(** * Trip dispatch engine of the mototaxi backend

    A shallow embedding of [src/controllers/trip.controller.js] and
    [src/controllers/driver.controller.js].  The controllers are written
    against the Supabase client: every [await supabase.from(..)...] is one
    round trip to the store, and everything a handler knows it learned from
    the [{ data, error }] object such a call resolved to.  The embedding keeps
    that shape:

    - the two tables are finite maps keyed by their primary key;
    - a store call is a value of [Query], executed atomically by [exec];
    - a handler is a [Prog]: a tree of store calls whose continuations
      inspect the reply exactly where the JavaScript inspects
      [data] and [error];
    - [run] executes one handler to completion (requests served one at a
      time), [step] interleaves the store calls of several handlers in
      flight (requests served concurrently).

    Conventions.  User and trip ids (UUIDs in the tables) and instants are
    natural numbers.  A [.select("id, estado")] returns the whole row: the
    handlers only read the columns they asked for.  [created_at], which no
    handler reads or writes, is left out of the trip row.  A row of [drivers]
    always carries one of the three states the driver controller writes, so
    the fallback ["desconocido"] of acceptTrip's message never shows.  The
    Supabase client reports failures in [error] and does not throw; the
    [catch] blocks of the handlers are not modelled.  A store call that
    fails ([fault]) has no effect on the tables.

    The second part of the definitions embeds what surrounds the engine:
    [getTripById], the role gates and the authentication middleware with
    the trip routes of [src/routes/trip.routes.js], the earlier driver
    controller that keeps its registry in memory, and [register] and
    [login] of [src/controllers/auth.controller.js].  There the [catch]
    blocks are modelled where the code relies on them; the token and
    hashing libraries are parameters ([Env]).  The handlers of the engine
    open with [!req.user || !req.user.userId]: [user req = None] stands
    for either, and a [req.user] that the authentication middleware built
    from a payload without [userId] reaches them as such
    ([trip_endpoint]). *)

From stdpp Require Import base option list strings gmap fin_maps relations.
From Stdlib Require Import Ascii.

Open Scope string_scope.

(** ** Rows *)

Abbreviation UserId := nat (only parsing).
Abbreviation TripId := nat (only parsing).
Abbreviation Instant := nat (only parsing).

(** [ESTADOS_VIAJE] *)
Inductive Estado := buscando | asignado | en_progreso | finalizado | cancelado.

(** [ESTADOS_PERMITIDOS] *)
Inductive DriverEstado := disponible | ocupado | offline.

#[global] Instance Estado_eq_dec : EqDecision Estado.
Proof. solve_decision. Defined.
#[global] Instance DriverEstado_eq_dec : EqDecision DriverEstado.
Proof. solve_decision. Defined.

Definition driver_estado_str (e : DriverEstado) : string :=
  match e with
  | disponible => "disponible"
  | ocupado => "ocupado"
  | offline => "offline"
  end.

(** [ESTADOS_PERMITIDOS.includes(estado)] on the request body's string. *)
Definition parse_driver_estado (s : string) : option DriverEstado :=
  if decide (s = "disponible") then Some disponible
  else if decide (s = "ocupado") then Some ocupado
  else if decide (s = "offline") then Some offline
  else None.

(** A row of [trips]. [id] is generated by the table, the rest is what the
    controllers write. *)
Record Trip := mkTrip {
  id : TripId;
  pasajero_id : UserId;
  conductor_id : option UserId;
  estado : Estado;
  accepted_at : option Instant;
  started_at : option Instant;
  finished_at : option Instant;
  cancelled_at : option Instant;
  cancelled_by : option string
}.

(** A row of [drivers]. *)
Record Driver := mkDriver {
  user_id : UserId;
  d_estado : DriverEstado
}.

(** The store: both tables, keyed by primary key, and the id the [trips]
    table will hand to the next inserted row. *)
Record DB := mkDB {
  trips : gmap nat Trip;
  drivers : gmap nat DriverEstado;
  next_id : TripId
}.

Definition empty_db : DB := mkDB ∅ ∅ 0.

(** ** Replies of the Supabase client *)

Record PgError := mkPgError { code : string }.

(** [{ data, error }] *)
Record Result (A : Type) := mkResult {
  data : option A;
  error : option PgError
}.
Arguments mkResult {A} _ _.
Arguments data {A} _.
Arguments error {A} _.

Definition ok {A} (x : A) : Result A := mkResult (Some x) None.
Definition failed {A} (e : PgError) : Result A := mkResult None (Some e).
Definition nothing {A} : Result A := mkResult None None.

(** PostgREST's "JSON object requested, multiple (or no) rows returned";
    the code tested by the read paths of the trip controller. *)
Definition PGRST116 : PgError := mkPgError "PGRST116".
(** Primary-key violation on insert. *)
Definition unique_violation : PgError := mkPgError "23505".
(** Any infrastructure failure: timeout, dropped connection. *)
Definition store_down : PgError := mkPgError "08006".

(** What [.single()] resolves to when the statement matched no row.  The
    PostgREST client answers with the error [PGRST116] ([strict]); the
    collaborator contract of the design document abstracts it to an absent
    row without error ([lenient]).  The handlers branch on both shapes, so
    the store is parameterised by the choice. *)
Inductive SingleMode := strict | lenient.

Definition no_row {A} (m : SingleMode) : Result A :=
  match m with
  | strict => failed PGRST116
  | lenient => nothing
  end.

(** ** Store calls *)

(** The [.update({...})] objects of the trip controller. *)
Record TripPatch := mkPatch {
  p_conductor_id : option UserId;
  p_estado : Estado;
  p_accepted_at : option Instant;
  p_started_at : option Instant;
  p_finished_at : option Instant;
  p_cancelled_at : option Instant;
  p_cancelled_by : option string
}.

(** A field absent from the update object keeps the row's value. *)
Definition keep {A} (new old : option A) : option A :=
  match new with
  | Some x => Some x
  | None => old
  end.

Definition apply_patch (p : TripPatch) (t : Trip) : Trip :=
  {| id := id t;
     pasajero_id := pasajero_id t;
     conductor_id := keep (p_conductor_id p) (conductor_id t);
     estado := p_estado p;
     accepted_at := keep (p_accepted_at p) (accepted_at t);
     started_at := keep (p_started_at p) (started_at t);
     finished_at := keep (p_finished_at p) (finished_at t);
     cancelled_at := keep (p_cancelled_at p) (cancelled_at t);
     cancelled_by := keep (p_cancelled_by p) (cancelled_by t) |}.

(** Every statement the two controllers send, indexed by the type of its
    reply. *)
Inductive Query : Type → Type :=
  (* trips: .select("id").eq("pasajero_id", p).in("estado", es) *)
  | TripsOfPasajero (p : UserId) (es : list Estado) : Query (Result (list Trip))
  (* trips: .select("id").eq("conductor_id", c).in("estado", es) *)
  | TripsOfConductor (c : UserId) (es : list Estado) : Query (Result (list Trip))
  (* trips: .select(..).eq("id", t).single() *)
  | TripById (t : TripId) : Query (Result Trip)
  (* trips: .insert({ pasajero_id, estado: "buscando" }).select().single() *)
  | TripInsert (p : UserId) : Query (Result Trip)
  (* trips: .update(patch).eq("id", t)[.eq("estado", e)].select().single() *)
  | TripUpdate (t : TripId) (guard : option Estado) (patch : TripPatch) : Query (Result Trip)
  (* drivers: .select("user_id, estado").eq("user_id", u).single() *)
  | DriverByUser (u : UserId) : Query (Result Driver)
  (* drivers: .select("user_id").eq("user_id", u).maybeSingle() *)
  | DriverByUserMaybe (u : UserId) : Query (Result Driver)
  (* drivers: .select("user_id").eq("estado", e) *)
  | DriversInEstado (e : DriverEstado) : Query (Result (list Driver))
  (* drivers: .update({ estado }).eq("user_id", u) *)
  | DriverUpdate (u : UserId) (e : DriverEstado) : Query (Result unit)
  (* drivers: .update({ estado }).eq("user_id", u).select() *)
  | DriverUpdateSelect (u : UserId) (e : DriverEstado) : Query (Result (list Driver))
  (* drivers: .insert({ user_id, estado }).select().single() *)
  | DriverInsert (u : UserId) (e : DriverEstado) : Query (Result Driver).

Definition rows {A} (m : gmap nat A) : list A := (map_to_list m).*2.

Definition trips_of_pasajero (p : UserId) (es : list Estado) (db : DB) : list Trip :=
  filter (λ t, pasajero_id t = p ∧ estado t ∈ es) (rows (trips db)).

Definition trips_of_conductor (c : UserId) (es : list Estado) (db : DB) : list Trip :=
  filter (λ t, conductor_id t = Some c ∧ estado t ∈ es) (rows (trips db)).

Definition drivers_in_estado (e : DriverEstado) (db : DB) : list Driver :=
  (λ kv, mkDriver kv.1 kv.2) <$> filter (λ kv, kv.2 = e) (map_to_list (drivers db)).

Definition guard_holds (g : option Estado) (t : Trip) : bool :=
  match g with
  | None => true
  | Some e => bool_decide (estado t = e)
  end.

Definition new_trip (i : TripId) (p : UserId) : Trip :=
  mkTrip i p None buscando None None None None None.

(** One statement, executed atomically against the store. *)
Definition exec (m : SingleMode) {A} (q : Query A) (db : DB) : A * DB :=
  match q in Query A return A * DB with
  | TripsOfPasajero p es => (ok (trips_of_pasajero p es db), db)
  | TripsOfConductor c es => (ok (trips_of_conductor c es db), db)
  | TripById t =>
      match trips db !! t with
      | Some row => (ok row, db)
      | None => (no_row m, db)
      end
  | TripInsert p =>
      let i := next_id db in
      match trips db !! i with
      | None =>
          let row := new_trip i p in
          (ok row, mkDB (<[i := row]> (trips db)) (drivers db) (S i))
      | Some _ => (failed unique_violation, mkDB (trips db) (drivers db) (S i))
      end
  | TripUpdate t g patch =>
      match trips db !! t with
      | Some row =>
          if guard_holds g row then
            let row' := apply_patch patch row in
            (ok row', mkDB (<[t := row']> (trips db)) (drivers db) (next_id db))
          else (no_row m, db)
      | None => (no_row m, db)
      end
  | DriverByUser u =>
      match drivers db !! u with
      | Some e => (ok (mkDriver u e), db)
      | None => (no_row m, db)
      end
  | DriverByUserMaybe u =>
      match drivers db !! u with
      | Some e => (ok (mkDriver u e), db)
      | None => (nothing, db)
      end
  | DriversInEstado e => (ok (drivers_in_estado e db), db)
  | DriverUpdate u e =>
      match drivers db !! u with
      | Some _ => (nothing, mkDB (trips db) (<[u := e]> (drivers db)) (next_id db))
      | None => (nothing, db)
      end
  | DriverUpdateSelect u e =>
      match drivers db !! u with
      | Some _ => (ok [mkDriver u e], mkDB (trips db) (<[u := e]> (drivers db)) (next_id db))
      | None => (ok [], db)
      end
  | DriverInsert u e =>
      match drivers db !! u with
      | None => (ok (mkDriver u e), mkDB (trips db) (<[u := e]> (drivers db)) (next_id db))
      | Some _ => (failed unique_violation, db)
      end
  end.

(** The reply of a call that did not reach the store. *)
Definition fault {A} (q : Query A) : A :=
  match q in Query A return A with
  | TripsOfPasajero _ _ => failed store_down
  | TripsOfConductor _ _ => failed store_down
  | TripById _ => failed store_down
  | TripInsert _ => failed store_down
  | TripUpdate _ _ _ => failed store_down
  | DriverByUser _ => failed store_down
  | DriverByUserMaybe _ => failed store_down
  | DriversInEstado _ => failed store_down
  | DriverUpdate _ _ => failed store_down
  | DriverUpdateSelect _ _ => failed store_down
  | DriverInsert _ _ => failed store_down
  end.

(** ** Requests, responses, handlers *)

(** [req.user], as the authentication middleware leaves it. *)
Record User := mkUser {
  userId : UserId;
  roles : list string
}.

(** What the handlers read from a request: [req.user], [req.body.tripId],
    [req.body.estado], and the clock reading behind
    [new Date().toISOString()]. *)
Record Req := mkReq {
  user : option User;
  tripId : option TripId;
  body_estado : option string;
  now : Instant
}.

Inductive Payload :=
  | NoData
  | OneTrip (t : Trip)
  | NewTrip (trip : option Trip) (conductorSugerido : option Driver)
  | OneDriver (d : option Driver)
  | ManyDrivers (l : list Driver).

(** [res.status(..).json({ success, message, data })] *)
Record Response := mkResponse {
  status : nat;
  success : bool;
  message : option string;
  payload : Payload
}.

Definition refuse (st : nat) (msg : string) : Response :=
  mkResponse st false (Some msg) NoData.

(** A handler: respond, write to the error console, or await a store call. *)
Inductive Prog : Type :=
  | Respond (r : Response)
  | Log (msg : string) (k : Prog)
  | Call {A : Type} (q : Query A) (k : A → Prog).

Notation "'await' x := q 'in' p" := (Call q (λ x, p))
  (at level 10, x name, q at level 200, p at level 200,
   format "'await'  x  :=  q  'in'  '//' p").

(** JavaScript truthiness of a nullable object. *)
Definition given {A} (o : option A) : bool :=
  match o with
  | Some _ => true
  | None => false
  end.

(** [xs && xs.length > 0] *)
Definition some_rows {A} (o : option (list A)) : bool :=
  match o with
  | Some (_ :: _) => true
  | _ => false
  end.

(** [roles.includes(r)] *)
Definition includes (r : string) (rs : list string) : bool :=
  bool_decide (r ∈ rs).

Definition estados_activos : list Estado := [buscando; asignado; en_progreso].
Definition estados_activos_conductor : list Estado := [asignado; en_progreso].

Definition accept_patch (c : UserId) (t : Instant) : TripPatch :=
  mkPatch (Some c) asignado (Some t) None None None None.
Definition start_patch (t : Instant) : TripPatch :=
  mkPatch None en_progreso None (Some t) None None None.
Definition finish_patch (t : Instant) : TripPatch :=
  mkPatch None finalizado None None (Some t) None None.
Definition cancel_patch (t : Instant) (who : string) : TripPatch :=
  mkPatch None cancelado None None None (Some t) (Some who).

Definition unauthenticated : Response :=
  refuse 401 "No autorizado: usuario no autenticado".
Definition internal : Response := refuse 500 "Error interno".
Definition trip_not_found : Response := refuse 404 "Viaje no encontrado".

(** [requestTrip] *)
Definition requestTrip (req : Req) : Prog :=
  match user req with
  | None => Respond unauthenticated
  | Some u =>
    let pasajeroId := userId u in
    await r1 := TripsOfPasajero pasajeroId estados_activos in
    if given (error r1) then
      Log "Error al consultar viajes activos:" (Respond internal)
    else if some_rows (data r1) then
      Respond (refuse 409 "Ya tienes un viaje activo")
    else
    await r2 := DriversInEstado disponible in
    if given (error r2) then
      Log "Error al consultar conductores:" (Respond internal)
    else if negb (some_rows (data r2)) then
      Respond (refuse 503 "No hay conductores disponibles")
    else
    await r3 := TripInsert pasajeroId in
    if given (error r3) then
      Log "Error al crear viaje:" (Respond internal)
    else
      Respond (mkResponse 201 true (Some "Viaje creado, buscando conductor")
                 (NewTrip (data r3) (default [] (data r2) !! 0)))
  end.

(** [acceptTrip] *)
Definition acceptTrip (req : Req) : Prog :=
  match user req with
  | None => Respond unauthenticated
  | Some u =>
    if negb (includes "conductor" (roles u)) then
      Respond (refuse 403 "Solo los conductores pueden aceptar viajes")
    else
    match tripId req with
    | None => Respond (refuse 400 "tripId es requerido")
    | Some tripId =>
      let conductorId := userId u in
      await r1 := DriverByUser conductorId in
      match error r1, data r1 with
      | Some _, _ | None, None =>
          Respond (refuse 404 "Conductor no encontrado en el sistema")
      | None, Some driver =>
        if negb (bool_decide (d_estado driver = disponible)) then
          Respond (refuse 400 ("El conductor no está disponible. Estado actual: "
                               +:+ driver_estado_str (d_estado driver)))
        else
        await r2 := TripsOfConductor conductorId estados_activos_conductor in
        if given (error r2) then
          Log "Error al consultar viajes activos del conductor:" (Respond internal)
        else if some_rows (data r2) then
          Respond (refuse 409 "Ya tienes un viaje activo. No puedes aceptar otro.")
        else
        await r3 := TripById tripId in
        match error r3 with
        | Some e =>
            if bool_decide (code e = "PGRST116") then Respond trip_not_found
            else Log "Error al consultar viaje:" (Respond internal)
        | None =>
          match data r3 with
          | None => Respond trip_not_found
          | Some viajeActual =>
            if negb (bool_decide (estado viajeActual = buscando)) then
              Respond (refuse 400 "Transición de estado no válida. El viaje debe estar en estado 'buscando'.")
            else
            await r4 := TripUpdate tripId (Some buscando) (accept_patch conductorId (now req)) in
            if given (error r4) then
              Log "Error al actualizar viaje:" (Respond internal)
            else
            match data r4 with
            | None => Respond (refuse 400 "El viaje ya no está disponible (estado cambió)")
            | Some viajeActualizado =>
              await r5 := DriverUpdate conductorId ocupado in
              if given (error r5) then
                Log "Error al actualizar estado del conductor:" (Respond internal)
              else
                Respond (mkResponse 200 true (Some "Viaje aceptado") (OneTrip viajeActualizado))
            end
          end
        end
      end
    end
  end.

(** [startTrip] *)
Definition startTrip (req : Req) : Prog :=
  match user req with
  | None => Respond unauthenticated
  | Some u =>
    match tripId req with
    | None => Respond (refuse 400 "tripId es requerido")
    | Some tripId =>
      let conductorId := userId u in
      await r1 := TripById tripId in
      match error r1 with
      | Some e =>
          if bool_decide (code e = "PGRST116") then Respond trip_not_found
          else Log "Error al consultar viaje:" (Respond internal)
      | None =>
        match data r1 with
        | None => Respond trip_not_found
        | Some viajeActual =>
          if negb (bool_decide (conductor_id viajeActual = Some conductorId)) then
            Respond (refuse 403 "Solo el conductor asignado puede iniciar este viaje")
          else if negb (bool_decide (estado viajeActual = asignado)) then
            Respond (refuse 400 "Transición de estado no válida. El viaje debe estar en estado 'asignado'.")
          else
          await r2 := TripUpdate tripId None (start_patch (now req)) in
          if given (error r2) then
            Log "Error al iniciar viaje:" (Respond internal)
          else
          match data r2 with
          | None => Respond trip_not_found
          | Some viajeActualizado =>
              Respond (mkResponse 200 true (Some "Viaje iniciado") (OneTrip viajeActualizado))
          end
        end
      end
    end
  end.

(** [finishTrip] *)
Definition finishTrip (req : Req) : Prog :=
  match user req with
  | None => Respond unauthenticated
  | Some u =>
    match tripId req with
    | None => Respond (refuse 400 "tripId es requerido")
    | Some tripId =>
      let conductorId := userId u in
      await r1 := TripById tripId in
      match error r1 with
      | Some e =>
          if bool_decide (code e = "PGRST116") then Respond trip_not_found
          else Log "Error al consultar viaje:" (Respond internal)
      | None =>
        match data r1 with
        | None => Respond trip_not_found
        | Some viajeActual =>
          if negb (bool_decide (conductor_id viajeActual = Some conductorId)) then
            Respond (refuse 403 "Solo el conductor asignado puede finalizar este viaje")
          else if negb (bool_decide (estado viajeActual = en_progreso)) then
            Respond (refuse 400 "Transición de estado no válida. El viaje debe estar en estado 'en_progreso'.")
          else
          await r2 := TripUpdate tripId (Some en_progreso) (finish_patch (now req)) in
          if given (error r2) then
            Log "Error al finalizar viaje:" (Respond internal)
          else
          match data r2 with
          | None => Respond trip_not_found
          | Some viajeActualizado =>
            await r3 := DriverUpdate conductorId disponible in
            if given (error r3) then
              Log "Error al actualizar estado del conductor:" (Respond internal)
            else
              Respond (mkResponse 200 true None (OneTrip viajeActualizado))
          end
        end
      end
    end
  end.

(** [cancelTrip] *)
Definition cancelTrip (req : Req) : Prog :=
  match user req with
  | None => Respond unauthenticated
  | Some u =>
    match tripId req with
    | None => Respond (refuse 400 "tripId es requerido")
    | Some tripId =>
      let userId := userId u in
      let roles := roles u in
      await r1 := TripById tripId in
      match error r1 with
      | Some e =>
          if bool_decide (code e = "PGRST116") then Respond trip_not_found
          else Log "Error al consultar viaje:" (Respond internal)
      | None =>
        match data r1 with
        | None => Respond trip_not_found
        | Some viajeActual =>
          if bool_decide (estado viajeActual = finalizado) then
            Respond (refuse 400 "No se puede cancelar un viaje finalizado")
          else if bool_decide (estado viajeActual = cancelado) then
            Respond (refuse 400 "El viaje ya está cancelado")
          else
          let esPasajero :=
            includes "pasajero" roles && bool_decide (pasajero_id viajeActual = userId) in
          let esConductor :=
            includes "conductor" roles && bool_decide (conductor_id viajeActual = Some userId) in
          if negb esPasajero && negb esConductor then
            Respond (refuse 403 "No tienes permisos para cancelar este viaje")
          else if bool_decide (estado viajeActual = en_progreso) && negb esConductor then
            Respond (refuse 403 "Solo el conductor puede cancelar un viaje en progreso")
          else if esPasajero && negb (bool_decide (estado viajeActual = buscando))
                             && negb (bool_decide (estado viajeActual = asignado)) then
            Respond (refuse 400 "Transición de estado no válida")
          else if negb (esConductor && bool_decide (estado viajeActual = asignado))
                  && (esConductor && negb (bool_decide (estado viajeActual = en_progreso))) then
            Respond (refuse 400 "El conductor solo puede cancelar viajes en estado 'asignado' o 'en_progreso'")
          else
          let cancelledBy := if esPasajero then "pasajero" else "conductor" in
          await r2 := TripUpdate tripId None (cancel_patch (now req) cancelledBy) in
          if given (error r2) then
            Log "Error al cancelar viaje:" (Respond internal)
          else
          match data r2 with
          | None => Respond trip_not_found
          | Some viajeActualizado =>
            let done := Respond (mkResponse 200 true None (OneTrip viajeActualizado)) in
            match conductor_id viajeActual with
            | Some c =>
              await r3 := DriverUpdate c disponible in
              if given (error r3) then
                Log "Error al actualizar estado del conductor:" done
              else done
            | None => done
            end
          end
        end
      end
    end
  end.

(** [registerDriver] *)
Definition registerDriver (req : Req) : Prog :=
  match user req with
  | None => Respond (refuse 401 "No autorizado: usuario no identificado")
  | Some u =>
    let userId := userId u in
    await r1 := DriverByUserMaybe userId in
    if given (error r1) then
      Log "Error al verificar conductor:" (Respond (refuse 500 "Error interno del servidor"))
    else if given (data r1) then
      Respond (refuse 409 "Ya existe un conductor registrado con ese userId")
    else
    await r2 := DriverInsert userId disponible in
    if given (error r2) then
      Log "Error al registrar conductor:" (Respond (refuse 500 "Error interno del servidor"))
    else
      Respond (mkResponse 201 true (Some "Conductor registrado correctamente") (OneDriver (data r2)))
  end.

(** [updateStatus] *)
Definition updateStatus (req : Req) : Prog :=
  match user req with
  | None => Respond (refuse 401 "No autorizado: usuario no identificado")
  | Some u =>
    let userId := userId u in
    match body_estado req with
    | None | Some "" => Respond (refuse 400 "Estado es requerido")
    | Some s =>
      match parse_driver_estado s with
      | None =>
          Respond (refuse 400 "Estado no válido. Valores permitidos: disponible, ocupado, offline")
      | Some estado =>
        await r1 := DriverUpdateSelect userId estado in
        if given (error r1) then
          Log "Error al actualizar estado del conductor:"
            (Respond (refuse 500 "Error al actualizar el estado del conductor"))
        else
        let updatedRows := match data r1 with None => 0 | Some l => length l end in
        if bool_decide (updatedRows = 0) then
          await r2 := DriverInsert userId estado in
          if given (error r2) then
            Log "Error al crear registro del conductor:"
              (Respond (refuse 500 "Error al crear el registro del conductor"))
          else
            Respond (mkResponse 200 true (Some "Estado del conductor registrado") (OneDriver (data r2)))
        else
          Respond (mkResponse 200 true (Some "Estado del conductor actualizado")
                     (ManyDrivers (default [] (data r1))))
      end
    end
  end.

(** ** Serving one request at a time *)

(** A call and the reply it resolved to. *)
Inductive Event :=
  | Ev {A : Type} (q : Query A) (r : A).

(** A statement without its reply type, to compare statements. *)
Inductive Stmt :=
  | St {A : Type} (q : Query A).

Definition stmt_of (e : Event) : Stmt :=
  match e with Ev q _ => St q end.

Record Outcome := mkOutcome {
  response : Response;
  final : DB;
  calls : list Event;
  console : list string
}.

(** [run m p faults db]: the handler [p] served alone against [db].  The
    [n]-th store call fails without effect when the [n]-th entry of [faults]
    is [true]; calls beyond the list reach the store. *)
Fixpoint run (m : SingleMode) (p : Prog) (faults : list bool) (db : DB) : Outcome :=
  match p with
  | Respond r => mkOutcome r db [] []
  | Log msg k =>
      let o := run m k faults db in
      mkOutcome (response o) (final o) (calls o) (msg :: console o)
  | Call q k =>
      let rd := if default false (head faults) then (fault q, db) else exec m q db in
      let o := run m (k rd.1) (tail faults) rd.2 in
      mkOutcome (response o) (final o) (Ev q rd.1 :: calls o) (console o)
  end.

(** The five operations of the engine and the two of the driver registry. *)
Inductive Op := Request | Accept | Start | Finish | Cancel | Register | Status.

Definition handler (o : Op) : Req → Prog :=
  match o with
  | Request => requestTrip
  | Accept => acceptTrip
  | Start => startTrip
  | Finish => finishTrip
  | Cancel => cancelTrip
  | Register => registerDriver
  | Status => updateStatus
  end.

Definition serve (m : SingleMode) (o : Op) (req : Req) (faults : list bool) (db : DB) : Outcome :=
  run m (handler o req) faults db.

(** ** Vocabulary of the properties *)

(** The result kinds of the engine, read off the HTTP status that carries
    them at the boundary (400 also carries a missing [tripId]). *)
Inductive Kind :=
  | Success | Unauthorized | NotFound | InvalidState | Conflict | Forbidden
  | ServiceUnavailable | Internal | Other.

Definition kind_of (r : Response) : Kind :=
  match status r with
  | 200 | 201 => Success
  | 400 => InvalidState
  | 401 => Unauthorized
  | 403 => Forbidden
  | 404 => NotFound
  | 409 => Conflict
  | 500 => Internal
  | 503 => ServiceUnavailable
  | _ => Other
  end.

(** Driver [c] holds trip [i]: the row is his and is assigned or in progress. *)
Definition holds (db : DB) (c : UserId) (i : TripId) : Prop :=
  ∃ row, trips db !! i = Some row ∧ conductor_id row = Some c
         ∧ estado row ∈ estados_activos_conductor.

(** Passenger [p] owns an active trip. *)
Definition owns_active (db : DB) (p : UserId) : Prop :=
  ∃ i row, trips db !! i = Some row ∧ pasajero_id row = p
           ∧ estado row ∈ estados_activos.

(** Some driver row is available. *)
Definition some_available (db : DB) : Prop :=
  ∃ u, drivers db !! u = Some disponible.

(** The first store call of the request is not failed by the fault plan. *)
Definition reaches_store (faults : list bool) : Prop :=
  default false (head faults) = false.

Definition terminal (e : Estado) : Prop := e = finalizado ∨ e = cancelado.

(** The guards of the trip updates among a list of calls. *)
Definition update_guard (e : Event) : option (option Estado) :=
  match e with
  | Ev q _ =>
      match q with
      | TripUpdate _ g _ => Some g
      | _ => None
      end
  end.

Definition guards (es : list Event) : list (option Estado) :=
  omap update_guard es.

(** The statements a served request sent, in order. *)
Definition stmts (o : Outcome) : list Stmt := stmt_of <$> calls o.

(** ** What a served request does to the store

    Every request, whatever it answers, leaves the store either as it was or
    changed in one of the following ways.  The label records which writes
    took effect; [false] marks a dependent driver write that did not. *)

Inductive Label :=
  | LNothing
  | LIdSpent
  | LRequest
  | LAccept (driver_written : bool)
  | LStart
  | LFinish (driver_written : bool)
  | LCancel (driver_written : bool)
  | LRegister
  | LStatus.

(** [.update({ estado }).eq("user_id", u)]: writes the row if there is one. *)
Definition set_driver (u : UserId) (e : DriverEstado) (ds : gmap nat DriverEstado)
    : gmap nat DriverEstado :=
  match ds !! u with
  | Some _ => <[u := e]> ds
  | None => ds
  end.

Definition with_trip (db : DB) (t : TripId) (row : Trip) : DB :=
  mkDB (<[t := row]> (trips db)) (drivers db) (next_id db).

Definition with_drivers (db : DB) (ds : gmap nat DriverEstado) : DB :=
  mkDB (trips db) ds (next_id db).

Inductive moves (db : DB) : Label → DB → Prop :=
  | mv_nothing : moves db LNothing db
  | mv_id_spent : moves db LIdSpent (mkDB (trips db) (drivers db) (S (next_id db)))
  | mv_request p :
      trips db !! next_id db = None →
      moves db LRequest
        (mkDB (<[next_id db := new_trip (next_id db) p]> (trips db)) (drivers db)
              (S (next_id db)))
  | mv_accept c t row at_ w :
      drivers db !! c = Some disponible →
      trips_of_conductor c estados_activos_conductor db = [] →
      trips db !! t = Some row →
      estado row = buscando →
      moves db (LAccept w)
        (with_drivers (with_trip db t (apply_patch (accept_patch c at_) row))
           (if w then <[c := ocupado]> (drivers db) else drivers db))
  | mv_start c t row at_ :
      trips db !! t = Some row →
      conductor_id row = Some c →
      estado row = asignado →
      moves db LStart (with_trip db t (apply_patch (start_patch at_) row))
  | mv_finish c t row at_ w :
      trips db !! t = Some row →
      conductor_id row = Some c →
      estado row = en_progreso →
      moves db (LFinish w)
        (with_drivers (with_trip db t (apply_patch (finish_patch at_) row))
           (if w then set_driver c disponible (drivers db) else drivers db))
  | mv_cancel t row at_ who w :
      trips db !! t = Some row →
      ¬ terminal (estado row) →
      (w = false → is_Some (conductor_id row)) →
      moves db (LCancel w)
        (with_drivers (with_trip db t (apply_patch (cancel_patch at_ who) row))
           (match conductor_id row with
            | Some c => if w then set_driver c disponible (drivers db) else drivers db
            | None => drivers db
            end))
  | mv_register u :
      drivers db !! u = None →
      moves db LRegister (with_drivers db (<[u := disponible]> (drivers db)))
  | mv_status u e :
      moves db LStatus (with_drivers db (<[u := e]> (drivers db))).

(** Labels of requests on which every write that was due took effect and no
    driver set his own status. *)
Definition clean (l : Label) : Prop :=
  match l with
  | LAccept w | LFinish w | LCancel w => w = true
  | LStatus => False
  | _ => True
  end.

(** ** Stores reached by serving requests one at a time *)

Inductive reachable (m : SingleMode) : DB → Prop :=
  | reach_empty : reachable m empty_db
  | reach_serve db o req faults :
      reachable m db → reachable m (final (serve m o req faults db)).

(** The same, when no store call fails and no driver sets his own status. *)
Inductive reachable_clean (m : SingleMode) : DB → Prop :=
  | clean_empty : reachable_clean m empty_db
  | clean_serve db o req :
      reachable_clean m db → o ≠ Status →
      reachable_clean m (final (serve m o req [] db)).

(** A driver is recorded on the row. *)
Definition driver_recorded (row : Trip) : Prop := is_Some (conductor_id row).
(** The row went through acceptance. *)
Definition was_assigned (row : Trip) : Prop := is_Some (accepted_at row).

(** The driver is recorded exactly on rows that are assigned, in progress,
    finished, or cancelled after having been assigned; the record and the
    acceptance stamp come together. *)
Definition trip_ok (row : Trip) : Prop :=
  (driver_recorded row ↔
     estado row ∈ [asignado; en_progreso; finalizado]
     ∨ (estado row = cancelado ∧ was_assigned row))
  ∧ (driver_recorded row ↔ was_assigned row).

Definition trips_ok (db : DB) : Prop :=
  ∀ t row, trips db !! t = Some row → trip_ok row.

(** No driver holds two trips. *)
Definition single_holder (db : DB) : Prop :=
  ∀ c i j, holds db c i → holds db c j → i = j.

(** Driver [c] holds exactly one trip. *)
Definition holds_one (db : DB) (c : UserId) : Prop :=
  ∃ i, holds db c i ∧ ∀ j, holds db c j → j = i.

(** Busy drivers are the ones holding a trip. *)
Definition busy_ok (db : DB) : Prop :=
  ∀ c, drivers db !! c = Some ocupado ↔ ∃ i, holds db c i.

(** Fault plans: every store call succeeds but the [n]-th (counted from 0). *)
Definition fail_only (n : nat) : list bool := replicate n false ++ [true].

Definition driver_log : list string := ["Error al actualizar estado del conductor:"].

(** ** What a handler may send

    [follows allowed answer h p]: whatever the store replies, every statement
    the handler [p] sends is allowed by the calls made so far, and its
    response is one [answer] accepts after them.  [h] is the history of the
    request: the calls already made and their replies. *)
Fixpoint follows (allowed : list Event → Stmt → Prop)
    (answer : list Event → Response → Prop) (h : list Event) (p : Prog) : Prop :=
  match p with
  | Respond r => answer h r
  | Log _ k => follows allowed answer h k
  | Call q k =>
      allowed h (St q) ∧ ∀ r, follows allowed answer (h ++ [Ev q r]) (k r)
  end.

(** The statement is not a trip update, or is one guarded by [g]. *)
Definition guarded_by (g : option Estado) (s : Stmt) : Prop :=
  match s with
  | St q =>
      match q with
      | TripUpdate _ g' _ => g' = g
      | _ => True
      end
  end.

(** ** Serving requests concurrently

    Node runs a handler without interruption from one [await] to the next;
    the store calls are where requests interleave.  A request in flight is
    the handler that remains, stopped at a store call or at its response,
    with what it has done so far. *)
Record Thread := mkThread {
  prog : Prog;
  hist : list Event;
  logged : list string
}.

(** Run the handler up to its next store call. *)
Fixpoint settle (p : Prog) (h : list Event) (out : list string) : Thread :=
  match p with
  | Log msg k => settle k h (out ++ [msg])
  | _ => mkThread p h out
  end.

Definition spawn (p : Prog) : Thread := settle p [] [].

Record Config := mkConfig {
  store : DB;
  pool : list Thread
}.

(** The pending call of thread [th] resolves to [r]. *)
Definition resume {A} (th : Thread) (q : Query A) (k : A → Prog) (r : A) : Thread :=
  settle (k r) (hist th ++ [Ev q r]) (logged th).

(** One scheduling decision: thread [i] gets its pending call executed, or
    sees it fail without effect. *)
Inductive step (m : SingleMode) (c : Config) : Config → Prop :=
  | step_exec i th A (q : Query A) k :
      pool c !! i = Some th →
      prog th = Call q k →
      step m c (mkConfig (exec m q (store c)).2
                  (<[i := resume th q k (exec m q (store c)).1]> (pool c)))
  | step_fault i th A (q : Query A) k :
      pool c !! i = Some th →
      prog th = Call q k →
      step m c (mkConfig (store c) (<[i := resume th q k (fault q)]> (pool c))).

(** The same as a function of a schedule, to run scenarios. *)
Definition sched_step (m : SingleMode) (c : Config) (d : nat * bool) : Config :=
  match pool c !! d.1 with
  | Some th =>
      match prog th with
      | Call q k =>
          if d.2 then mkConfig (store c) (<[d.1 := resume th q k (fault q)]> (pool c))
          else mkConfig (exec m q (store c)).2
                 (<[d.1 := resume th q k (exec m q (store c)).1]> (pool c))
      | _ => c
      end
  | None => c
  end.

Definition run_sched (m : SingleMode) (sched : list (nat * bool)) (c : Config) : Config :=
  foldl (sched_step m) c sched.

(** Requests arriving together against [db]. *)
Definition arrive (db : DB) (ps : list Prog) : Config := mkConfig db (spawn <$> ps).

(** The response of thread [i], once it has one. *)
Definition answered (c : Config) (i : nat) : option Response :=
  match pool c !! i with
  | Some th =>
      match prog th with
      | Respond r => Some r
      | _ => None
      end
  | None => None
  end.

(** Thread [i] runs first without being interrupted: [i, i, i, ...]. *)
Definition turns (i n : nat) : list (nat * bool) := replicate n (i, false).

(** ** Vocabulary of the acceptance race *)

(** The call is an acceptance write on trip [t] for driver [u] that took
    effect: the guarded update came back with a row. *)
Definition commit_by (u : UserId) (t : TripId) (e : Event) : Prop :=
  match e with
  | Ev q r =>
      match q in Query A return A → Prop with
      | TripUpdate t' g p => λ r,
          t' = t ∧ g = Some buscando ∧ p_conductor_id p = Some u ∧ is_Some (data r)
      | _ => λ _, False
      end r
  end.

(** The call is a read of trip [t] that returned [row]. *)
Definition saw (t : TripId) (row : Trip) (e : Event) : Prop :=
  match e with
  | Ev q r =>
      match q in Query A return A → Prop with
      | TripById t' => λ r, t' = t ∧ r = ok row
      | _ => λ _, False
      end r
  end.

(** The request committed the acceptance of [t] for driver [u]. *)
Definition won_by (u : UserId) (t : TripId) (th : Thread) : Prop :=
  Exists (commit_by u t) (hist th).

(** What every handler respects when it writes a trip: it never puts a row
    back into the search, and it records a driver only under the guard that
    the row is still being searched. *)
Definition careful (h : list Event) (s : Stmt) : Prop :=
  match s with
  | St q =>
      match q with
      | TripUpdate _ g p =>
          p_estado p ≠ buscando ∧ (is_Some (p_conductor_id p) → g = Some buscando)
      | _ => True
      end
  end.

(** What an acceptTrip request on [t] may answer after the calls [h]:
    success only if one of them committed the acceptance for its caller, and
    InvalidState if it read the trip out of the search. *)
Definition accept_answer (t : TripId) (o : Op) (req : Req) (h : list Event) (r : Response)
    : Prop :=
  o = Accept → tripId req = Some t →
  (kind_of r = Success → ∃ u, user req = Some u ∧ Exists (commit_by (userId u) t) h)
  ∧ (∀ row, Exists (saw t row) h → estado row ≠ buscando → kind_of r = InvalidState).

Definition handlers (reqs : list (Op * Req)) : list Prog :=
  (λ x, handler x.1 x.2) <$> reqs.

(** Trip [t] has left the search, with driver [u] recorded. *)
Definition taken_by (t : TripId) (db : DB) (u : UserId) : Prop :=
  ∃ row, trips db !! t = Some row ∧ estado row ≠ buscando ∧ conductor_id row = Some u.

Definition taken (t : TripId) (db : DB) : Prop :=
  ∃ row, trips db !! t = Some row ∧ estado row ≠ buscando.

(** The invariant of a pool of requests [reqs] in flight, seen from trip [t]. *)
Record race_inv (t : TripId) (reqs : list (Op * Req)) (c : Config) : Prop := {
  inv_follow : ∀ i th, pool c !! i = Some th →
    ∃ o req, reqs !! i = Some (o, req)
             ∧ follows careful (accept_answer t o req) (hist th) (prog th);
  inv_taken : ∀ i th u, pool c !! i = Some th → won_by u t th → taken_by t (store c) u;
  inv_single : ∀ i j thi thj u u',
    pool c !! i = Some thi → pool c !! j = Some thj →
    won_by u t thi → won_by u' t thj → i = j
}.

(** ** Vocabulary of the lost race *)

(** A guarded trip update that came back without a row. *)
Definition lost_update (e : Event) : Prop :=
  match e with
  | Ev q r =>
      match q in Query A return A → Prop with
      | TripUpdate _ (Some _) _ => λ r, data r = None
      | _ => λ _, False
      end r
  end.

Definition is_trip_update (e : Event) : Prop :=
  match e with
  | Ev q _ =>
      match q with
      | TripUpdate _ _ _ => True
      | _ => False
      end
  end.

(** A trip update is sent only if none was sent before. *)
Definition no_retry (h : list Event) (s : Stmt) : Prop :=
  match s with
  | St q =>
      match q with
      | TripUpdate _ _ _ => ¬ Exists is_trip_update h
      | _ => True
      end
  end.

(** A guarded trip update that the store answered as it answers a statement
    that matched no row. *)
Definition matched_no_row (m : SingleMode) (e : Event) : Prop :=
  match e with
  | Ev q r =>
      match q in Query A return A → Prop with
      | TripUpdate _ (Some _) _ => λ r, r = no_row m
      | _ => λ _, False
      end r
  end.

(** What acceptTrip answers after such an update: the error of [strict] is
    caught by [if (errorActualizacion)], the absent row of [lenient] by
    [if (!viajeActualizado)]. *)
Definition loser_kind (m : SingleMode) : Kind :=
  match m with
  | strict => Internal
  | lenient => InvalidState
  end.

Definition loser_answer (m : SingleMode) (o : Op) (h : list Event) (r : Response) : Prop :=
  o = Accept → Exists (matched_no_row m) h → kind_of r = loser_kind m.

(** ** Vocabulary of the writes without a guard *)

(** The schedule gives no turn to thread [i]. *)
Definition without (i : nat) (sched : list (nat * bool)) : Prop :=
  Forall (λ d, d.1 ≠ i) sched.

(** Request [first] arrives with the requests [others]; it gets one turn, in
    which its first store call is executed, then the others run as [sched]
    has it. *)
Definition after_read (m : SingleMode) (first : Op * Req) (others : list (Op * Req))
    (sched : list (nat * bool)) (db : DB) : Config :=
  run_sched m sched (run_sched m (turns 0 1) (arrive db (handlers (first :: others)))).

(** Thread 0 gets its next turn. *)
Definition then_write (m : SingleMode) (c : Config) : Config := run_sched m (turns 0 1) c.

(** ** Vocabulary of the driver record under concurrency *)

(** The call is a read of trip [t] that returned a row with a driver. *)
Definition knows_driver (t : TripId) (e : Event) : Prop :=
  ∃ row, saw t row e ∧ driver_recorded row.

(** What every handler respects when it writes a trip, as far as the driver
    record goes: driver and acceptance stamp are written together, only
    under the guard that the trip is being searched, and always when the
    trip becomes assigned; a trip is put in progress or finished only under
    the guard that it is in progress, or after the request has read it with
    a driver on it. *)
Definition sound_write (h : list Event) (s : Stmt) : Prop :=
  match s with
  | St q =>
      match q with
      | TripUpdate t g p =>
          p_estado p ≠ buscando
          ∧ (is_Some (p_conductor_id p) ↔ is_Some (p_accepted_at p))
          ∧ (is_Some (p_conductor_id p) → g = Some buscando)
          ∧ (p_estado p = asignado → is_Some (p_conductor_id p))
          ∧ (p_estado p ∈ [en_progreso; finalizado] →
             g = Some en_progreso ∨ Exists (knows_driver t) h)
      | _ => True
      end
  end.

Definition has_driver (db : DB) (t : TripId) : Prop :=
  ∃ row, trips db !! t = Some row ∧ driver_recorded row.

(** The invariant of a pool of requests in flight, as far as the driver
    record goes. *)
Record pool_inv (c : Config) : Prop := {
  pi_store : trips_ok (store c);
  pi_follow : ∀ i th, pool c !! i = Some th →
    follows sound_write (λ _ _, True) (hist th) (prog th);
  pi_known : ∀ i th t, pool c !! i = Some th →
    Exists (knows_driver t) (hist th) → has_driver (store c) t
}.

(** ** Trip ids *)

(** Every trip id in use is below the one the table hands out next. *)
Definition ids_below (db : DB) : Prop :=
  ∀ i, is_Some (trips db !! i) → i < next_id db.

(** ** Scenarios

    Concrete stores and requests on which the properties are exercised. *)

Definition as_conductor (u : UserId) : option User := Some (mkUser u ["conductor"]).
Definition as_pasajero (u : UserId) : option User := Some (mkUser u ["pasajero"]).

(** A request about trip [t] made at instant [9]. *)
Definition about (who : option User) (t : TripId) : Req := mkReq who (Some t) None 9.
(** A request without a body. *)
Definition bare (who : option User) : Req := mkReq who None None 9.
(** A status update. *)
Definition set_estado (who : option User) (s : string) : Req := mkReq who None (Some s) 9.

Definition trip_in (e : Estado) (c : option UserId) : Trip :=
  mkTrip 0 1 c e (match c with Some _ => Some 5 | None => None end) None None None None.

(** Driver 7 registered and available, no trip yet. *)
Definition db_registered : DB := mkDB ∅ {[7 := disponible]} 0.

(** Passenger 1's trip 0 in the given state, driver 7 registered. *)
Definition db_searching : DB := mkDB {[0 := trip_in buscando None]} {[7 := disponible]} 1.
Definition db_assigned : DB := mkDB {[0 := trip_in asignado (Some 7)]} {[7 := ocupado]} 1.
Definition db_in_progress : DB := mkDB {[0 := trip_in en_progreso (Some 7)]} {[7 := ocupado]} 1.
Definition db_finished : DB := mkDB {[0 := trip_in finalizado (Some 7)]} {[7 := disponible]} 1.

(** Drivers 7 and 8 both registered and available, trip 0 being searched. *)
Definition db_two : DB :=
  mkDB {[0 := trip_in buscando None]} {[7 := disponible; 8 := disponible]} 1.

(** Conductors 7 and 8 accept trip 0 at the same time. *)
Definition race_reqs : list (Op * Req) :=
  [(Accept, about (as_conductor 7) 0); (Accept, about (as_conductor 8) 0)].

(** Both complete their three reads before either writes; 7 writes first. *)
Definition race_sched : list (nat * bool) :=
  turns 0 3 ++ turns 1 3 ++ turns 0 2 ++ turns 1 1.

(** Conductor 7 sends finishTrip twice for trip 0. *)
Definition twice_reqs : list (Op * Req) :=
  [(Finish, about (as_conductor 7) 0); (Finish, about (as_conductor 7) 0)].

(** Both read the trip in progress; the first then finishes it. *)
Definition twice_sched : list (nat * bool) :=
  turns 0 1 ++ turns 1 1 ++ turns 0 2 ++ turns 1 1.

(** Conductor 7 starts trip 0 while passenger 1 cancels it. *)
Definition overlap_reqs : list (Op * Req) :=
  [(Start, about (as_conductor 7) 0); (Cancel, about (as_pasajero 1) 0)].

(** The start reads, the cancellation runs to its end, the start writes. *)
Definition overlap_sched : list (nat * bool) :=
  turns 0 1 ++ turns 1 3 ++ turns 0 1.

(** Driver 7 registers, passenger 1 requests a trip, driver 7 accepts it. *)
Definition db_accepted : DB :=
  final (serve strict Accept (about (as_conductor 7) 0) []
    (final (serve strict Request (bare (as_pasajero 1)) []
      (final (serve strict Register (bare (as_conductor 7)) [] empty_db))))).

(** Conductor 7, unknown to the registry, declares himself busy. *)
Definition db_self_busy : DB :=
  final (serve strict Status (set_estado (as_conductor 7) "ocupado") [] empty_db).

(** Driver 7, holding trip 0, declares himself available. *)
Definition db_self_free : DB :=
  final (serve strict Status (set_estado (as_conductor 7) "disponible") [] db_accepted).

(** Two trips being searched, driver 7 available. *)
Definition db_two_trips : DB :=
  mkDB {[0 := trip_in buscando None; 1 := mkTrip 1 2 None buscando None None None None None]}
       {[7 := disponible]} 2.

(** Conductor 7 accepts trips 0 and 1 at the same time. *)
Definition greedy_reqs : list (Op * Req) :=
  [(Accept, about (as_conductor 7) 0); (Accept, about (as_conductor 7) 1)].

(** Both requests complete their reads before either writes. *)
Definition greedy_sched : list (nat * bool) :=
  turns 0 3 ++ turns 1 3 ++ turns 0 2 ++ turns 1 2.

(** * The rest of the controllers, the gates and the routes *)

(** [ESTADOS_PERMITIDOS], as the strings of the request body. *)
Definition ESTADOS_PERMITIDOS : list string := ["disponible"; "ocupado"; "offline"].

(** The statement is not an insertion into [trips]. *)
Definition not_insert (s : Stmt) : Prop :=
  match s with
  | St q =>
      match q with
      | TripInsert _ => False
      | _ => True
      end
  end.

(** ** Stamps of a trip *)

(** The stamps a row carries tell how far it went: a row has been accepted,
    started and finished exactly as far as its state says, and a cancelled
    row records when and by whom. *)
Definition stamps_ok (row : Trip) : Prop :=
  match estado row with
  | buscando =>
      accepted_at row = None ∧ started_at row = None ∧ finished_at row = None
      ∧ cancelled_at row = None ∧ cancelled_by row = None
  | asignado =>
      is_Some (accepted_at row) ∧ started_at row = None ∧ finished_at row = None
      ∧ cancelled_at row = None ∧ cancelled_by row = None
  | en_progreso =>
      is_Some (accepted_at row) ∧ is_Some (started_at row) ∧ finished_at row = None
      ∧ cancelled_at row = None ∧ cancelled_by row = None
  | finalizado =>
      is_Some (accepted_at row) ∧ is_Some (started_at row) ∧ is_Some (finished_at row)
      ∧ cancelled_at row = None ∧ cancelled_by row = None
  | cancelado =>
      is_Some (cancelled_at row) ∧ is_Some (cancelled_by row) ∧ finished_at row = None
      ∧ (is_Some (started_at row) → is_Some (accepted_at row))
  end.

Definition all_stamps_ok (db : DB) : Prop :=
  ∀ t row, trips db !! t = Some row → stamps_ok row.

(** Whatever the first row records (its driver, its stamps), the second
    records the same. *)
Definition kept (row row' : Trip) : Prop :=
  (∀ c, conductor_id row = Some c → conductor_id row' = Some c)
  ∧ (∀ x, accepted_at row = Some x → accepted_at row' = Some x)
  ∧ (∀ x, started_at row = Some x → started_at row' = Some x)
  ∧ (∀ x, finished_at row = Some x → finished_at row' = Some x)
  ∧ (∀ x, cancelled_at row = Some x → cancelled_at row' = Some x)
  ∧ (∀ x, cancelled_by row = Some x → cancelled_by row' = Some x).

(** No passenger owns two active trips. *)
Definition one_active_each (db : DB) : Prop :=
  ∀ i j ri rj, trips db !! i = Some ri → trips db !! j = Some rj →
    pasajero_id ri = pasajero_id rj →
    estado ri ∈ estados_activos → estado rj ∈ estados_activos → i = j.

(** ** Reading one trip *)

(** [getTripById]: the trip is named by the route parameter [req.params.id];
    [req.user] is not read. *)
Definition getTripById (id : TripId) : Prog :=
  await r := TripById id in
  if given (error r) then
    Log "Error al consultar viaje:" (Respond internal)
  else
    match data r with
    | None => Respond trip_not_found
    | Some trip => Respond (mkResponse 200 true None (OneTrip trip))
    end.

(** ** Role gates *)

(** What a middleware does with a request: hand it on, or answer it.  The
    refusal of [roleMiddleware] carries the caller's roles beside the
    message. *)
Inductive Gate :=
  | Next
  | Deny (r : Response) (userRoles : option (list string)).

(** [xs.join(sep)] *)
Fixpoint join (sep : string) (xs : list string) : string :=
  match xs with
  | [] => ""
  | x :: rest =>
      match rest with
      | [] => x
      | _ :: _ => x +:+ sep +:+ join sep rest
      end
  end.

(** [roleMiddleware(rolesPermitidos)] *)
Definition roleMiddleware (rolesPermitidos : list string) (req : Req) : Gate :=
  match user req with
  | None =>
      Deny (refuse 401 "Usuario no autenticado. Usa authMiddleware antes de roleMiddleware") None
  | Some u =>
    let userRoles := roles u in
    let tieneRolPermitido := existsb (λ rol, includes rol userRoles) rolesPermitidos in
    if negb tieneRolPermitido then
      Deny (refuse 403 ("Acceso denegado. Se requiere uno de estos roles: "
                        +:+ join ", " rolesPermitidos))
           (Some userRoles)
    else Next
  end.

(** ** The gates on any value of [roles]

    [requireRole] and [roleMiddleware] read [req.user] and [req.user.roles]
    and nothing else of the request.  [verifyToken] attaches
    [decoded.roles || []] whatever the payload holds, so the value need not
    be an array; the two gates part ways on the values that are not. *)
Module AnyRoles.

(** A value in the place of [req.user.roles], as far as the gates tell
    values apart.  The elements of an array that are not strings equal no
    role and are left out. *)
Inductive RolesValue :=
  | Falsy                      (* undefined, null, false, 0 *)
  | Array (l : list string)
  | Text (s : string)          (* a string; the empty one is falsy *)
  | Other.                     (* a number but 0, true, an object *)

(** [!value] *)
Definition falsy (v : RolesValue) : bool :=
  match v with
  | Falsy | Text "" => true
  | _ => false
  end.

(** [s.includes(rol)] on a string: [rol] occurs in [s]. *)
Fixpoint text_includes (rol s : string) : bool :=
  String.prefix rol s
  || match s with
     | "" => false
     | String _ rest => text_includes rol rest
     end.

Arguments text_includes : simpl never.

(** [value.includes(rol)]: membership in an array, occurrence in a string;
    another value has no such method and the call throws. *)
Definition value_includes (rol : string) (v : RolesValue) : option bool :=
  match v with
  | Array l => Some (includes rol l)
  | Text s => Some (text_includes rol s)
  | Falsy | Other => None
  end.

(** [rolesPermitidos.some(rol => userRoles.includes(rol))] *)
Fixpoint some_includes (rolesPermitidos : list string) (userRoles : RolesValue) : option bool :=
  match rolesPermitidos with
  | [] => Some false
  | rol :: rest =>
      match value_includes rol userRoles with
      | None => None
      | Some true => Some true
      | Some false => some_includes rest userRoles
      end
  end.

(** What a gate does with a request: hand it on, answer it, or answer it
    from its [catch] block after writing to the console. *)
Inductive Gate :=
  | Next
  | Deny (r : Response) (userRoles : option RolesValue)
  | Caught (r : Response) (console : string).

(** [roleMiddleware(rolesPermitidos)], on [req.user]: absent, or an object
    with the given value for [roles]. *)
Definition roleMiddleware (rolesPermitidos : list string) (req_user : option RolesValue) : Gate :=
  match req_user with
  | None =>
      Deny (refuse 401 "Usuario no autenticado. Usa authMiddleware antes de roleMiddleware") None
  | Some roles =>
    let userRoles := if falsy roles then Array [] else roles in
    match some_includes rolesPermitidos userRoles with
    | None => Caught (refuse 500 "Error al verificar roles") "Error en roleMiddleware:"
    | Some tieneRolPermitido =>
      if negb tieneRolPermitido then
        Deny (refuse 403 ("Acceso denegado. Se requiere uno de estos roles: "
                          +:+ join ", " rolesPermitidos))
             (Some userRoles)
      else Next
    end
  end.

(** [requireRole(role)], on the same.  Its calls cannot throw, so its
    [catch] block is never entered. *)
Definition requireRole (role : string) (req_user : option RolesValue) : Gate :=
  match req_user with
  | None => Deny (refuse 401 "Usuario no autenticado. Usa verifyToken antes de requireRole") None
  | Some roles =>
    match roles with
    | Array l =>
      if negb (includes role l) then
        Deny (refuse 403 ("Acceso denegado. Se requiere el rol: " +:+ role)) None
      else Next
    | _ => Deny (refuse 403 "Acceso denegado. El usuario no tiene roles asignados") None
    end
  end.

(** The status a gate answers with, if it answers. *)
Definition answer (g : Gate) : option nat :=
  match g with
  | Next => None
  | Deny r _ | Caught r _ => Some (status r)
  end.

End AnyRoles.

(** A request of the engine, whose roles are a list, as these gates read
    it. *)
Definition roles_read (req : Req) : option AnyRoles.RolesValue :=
  (λ u, AnyRoles.Array (roles u)) <$> user req.

(** ** The trip routes *)

(** The routes of [trip.routes.js] whose handlers are modelled, each behind
    the authentication middleware. *)
Inductive TripRoute :=
  | GetById (id : TripId)
  | PostRequest | PostAccept | PostStart | PostFinish | PostCancel.

(** The role gate of the route, if it has one. *)
Definition route_roles (r : TripRoute) : option (list string) :=
  match r with
  | GetById _ => None
  | PostRequest => Some ["pasajero"]
  | PostAccept | PostStart | PostFinish => Some ["conductor"]
  | PostCancel => Some ["pasajero"; "conductor"]
  end.

Definition route_handler (r : TripRoute) : Req → Prog :=
  match r with
  | GetById id => λ _, getTripById id
  | PostRequest => requestTrip
  | PostAccept => acceptTrip
  | PostStart => startTrip
  | PostFinish => finishTrip
  | PostCancel => cancelTrip
  end.

(** A request answered by a gate, or handed to the handler. *)
Inductive Routed :=
  | Stopped (r : Response) (userRoles : option (list string))
  | Handled (o : Outcome).

(** The route from its role gate on, for a request as the authentication
    middleware left it. *)
Definition trip_route (m : SingleMode) (r : TripRoute) (req : Req) (faults : list bool)
    (db : DB) : Routed :=
  match
    match route_roles r with
    | Some rs => roleMiddleware rs req
    | None => Next
    end
  with
  | Deny resp userRoles => Stopped resp userRoles
  | Next => Handled (run m (route_handler r req) faults db)
  end.

Definition routed_response (x : Routed) : Response :=
  match x with
  | Stopped r _ => r
  | Handled o => response o
  end.

(** The store after the request; a stopped request leaves [db]. *)
Definition routed_final (db : DB) (x : Routed) : DB :=
  match x with
  | Stopped _ _ => db
  | Handled o => final o
  end.

(** ** The registry kept in memory

    The earlier driver controller keeps the drivers in an array of the
    process.  Its handlers are synchronous, so each request runs alone.
    Dates are milliseconds since the epoch. *)
Module Memory.

Definition Date := N.

(** [req.user.userId] *)
Definition caller (u : User) : UserId := userId u.

(** An element of [drivers].  [registerDriver] creates records with
    [createdAt], [updateStatus] with [activoHasta] and [lastUpdate]. *)
Record Driver := mkDriver {
  userId : UserId;
  estado : string;
  createdAt : option Date;
  activoHasta : option Date;
  lastUpdate : option Date
}.

(** What the handlers read: [req.user], [req.body] and, when there is a
    body, its [estado]; and the clock, which [updateStatus] reads twice when
    it creates a record. *)
Record Req := mkReq {
  user : option User;
  body : option (option string);
  now : Date;
  now' : Date
}.

Record Response := mkResponse {
  status : nat;
  success : bool;
  message : string;
  data : option Driver
}.

Record Outcome := mkOutcome {
  response : Response;
  store : list Driver;
  console : list string
}.

Definition refuse (st : nat) (msg : string) : Response := mkResponse st false msg None.

(** [drivers.find(d => d.userId === userId)] *)
Definition find_driver (u : UserId) (drivers : list Driver) : option Driver :=
  List.find (λ d, bool_decide (userId d = u)) drivers.

(** Assignments to the record [find] returned: they change the first record
    of the array with that [userId]. *)
Fixpoint assign (u : UserId) (f : Driver → Driver) (drivers : list Driver) : list Driver :=
  match drivers with
  | [] => []
  | d :: rest => if bool_decide (userId d = u) then f d :: rest else d :: assign u f rest
  end.

(** [registerDriver].  Reading [req.user.userId] throws when there is no
    [req.user]; the catch block answers. *)
Definition registerDriver (req : Req) (drivers : list Driver) : Outcome :=
  match user req with
  | None =>
      mkOutcome (refuse 500 "Error interno del servidor") drivers ["Error en registerDriver:"]
  | Some u =>
    let userId := caller u in
    match find_driver userId drivers with
    | Some _ =>
        mkOutcome (refuse 409 "Ya existe un conductor registrado con ese userId") drivers []
    | None =>
      let newDriver := mkDriver userId "disponible" (Some (now req)) None None in
      mkOutcome (mkResponse 201 true "Conductor registrado correctamente" (Some newDriver))
                (drivers ++ [newDriver]) []
    end
  end.

(** [24 * 60 * 60 * 1000] *)
Definition un_dia : N := 24 * 60 * 60 * 1000.

(** [updateStatus].  Destructuring a missing [req.body] and reading
    [req.user.userId] without a user both throw into the catch block, which
    writes the error to the console. *)
Definition updateStatus (req : Req) (drivers : list Driver) : Outcome :=
  match body req, user req with
  | None, _ | _, None => mkOutcome (refuse 500 "Error interno") drivers ["TypeError"]
  | Some estado, Some u =>
    let userId := caller u in
    match estado with
    | None | Some "" => mkOutcome (refuse 400 "estado es requerido") drivers []
    | Some estado =>
      if negb (bool_decide (estado ∈ ESTADOS_PERMITIDOS)) then
        mkOutcome
          (refuse 400 "estado no válido. Valores permitidos: disponible, ocupado, offline")
          drivers []
      else
        match find_driver userId drivers with
        | None =>
          let driver :=
            mkDriver userId estado None (Some (now req + un_dia)%N) (Some (now' req)) in
          mkOutcome (mkResponse 200 true "Estado del conductor actualizado" (Some driver))
                    (drivers ++ [driver]) []
        | Some found =>
          let write d := mkDriver (Memory.userId d) estado (createdAt d) (activoHasta d)
                           (Some (now req)) in
          mkOutcome (mkResponse 200 true "Estado del conductor actualizado" (Some (write found)))
                    (assign userId write drivers) []
        end
    end
  end.

Inductive Op := Register | Status.

Definition serve (o : Op) : Req → list Driver → Outcome :=
  match o with
  | Register => registerDriver
  | Status => updateStatus
  end.

(** Arrays reached from the empty one by serving requests. *)
Inductive reachable : list Driver → Prop :=
  | reach_empty : reachable []
  | reach_serve ds o req : reachable ds → reachable (store (serve o req ds)).

(** The table the array stands for: each user's status, the first record of
    a user counting. *)
Definition table (drivers : list Driver) : gmap nat DriverEstado :=
  foldr (λ d t, match parse_driver_estado (estado d) with
                | Some e => <[userId d := e]> t
                | None => t
                end) ∅ drivers.

End Memory.

(** The request as the later controller reads it. *)
Definition later (req : Memory.Req) : Req :=
  mkReq (Memory.user req) None (mjoin (Memory.body req)) 0.

Definition later_op (o : Memory.Op) : Op :=
  match o with
  | Memory.Register => Register
  | Memory.Status => Status
  end.

(** No two records of the array are of the same user, and every status is a
    permitted one. *)
Definition memory_ok (ds : list Memory.Driver) : Prop :=
  NoDup (Memory.userId <$> ds) ∧ Forall (λ d, Memory.estado d ∈ ESTADOS_PERMITIDOS) ds.

(** ** More scenarios *)

(** Driver 7 has started trip 0. *)
Definition db_started : DB :=
  final (serve strict Start (about (as_conductor 7) 0) [] db_accepted).

(** In memory: user 7 registers, then user 8 declares himself busy. *)
Definition mem_two : list Memory.Driver :=
  Memory.store (Memory.serve Memory.Status
                  (Memory.mkReq (as_conductor 8) (Some (Some "ocupado")) 200%N 201%N)
    (Memory.store (Memory.serve Memory.Register
                  (Memory.mkReq (as_conductor 7) (Some None) 100%N 100%N) []))).

(** The table of [mem_two], as a store of the later controller. *)
Definition db_of_mem_two : DB := mkDB ∅ {[7 := disponible; 8 := ocupado]} 0.

(** ** Strings and patterns of the account controller

    The account controller measures and matches its strings, so they are
    kept as JavaScript has them: sequences of UTF-16 code units. *)
Definition Text := list N.

(** The code units [\s] matches. *)
Definition is_blank (c : N) : bool :=
  bool_decide (c ∈ [9; 10; 11; 12; 13; 32; 160; 5760; 8232; 8233; 8239; 8287; 12288; 65279]%N)
  || (8192 <=? c)%N && (c <=? 8202)%N.

(** Patterns without groups or backreferences, for which [test] between
    [^] and [$] is membership in the language of the pattern. *)
Inductive Re :=
  | NoMatch
  | Eps
  | Unit (p : N → bool)
  | Then (r1 r2 : Re)
  | Or (r1 r2 : Re)
  | Star (r : Re).

(** [r+] *)
Definition Plus (r : Re) : Re := Then r (Star r).

Fixpoint nullable (r : Re) : bool :=
  match r with
  | NoMatch => false
  | Eps => true
  | Unit _ => false
  | Then r1 r2 => nullable r1 && nullable r2
  | Or r1 r2 => nullable r1 || nullable r2
  | Star _ => true
  end.

(** What is left of the pattern after the code unit [c]. *)
Fixpoint deriv (c : N) (r : Re) : Re :=
  match r with
  | NoMatch | Eps => NoMatch
  | Unit p => if p c then Eps else NoMatch
  | Then r1 r2 =>
      if nullable r1 then Or (Then (deriv c r1) r2) (deriv c r2) else Then (deriv c r1) r2
  | Or r1 r2 => Or (deriv c r1) (deriv c r2)
  | Star r => Then (deriv c r) (Star r)
  end.

(** [/^r$/.test(s)] *)
Fixpoint test (r : Re) (s : Text) : bool :=
  match s with
  | [] => nullable r
  | c :: rest => test (deriv c r) rest
  end.

(** The strings a pattern matches. *)
Inductive matches : Re → Text → Prop :=
  | m_empty : matches Eps []
  | m_unit p c : p c = true → matches (Unit p) [c]
  | m_then r1 r2 s1 s2 : matches r1 s1 → matches r2 s2 → matches (Then r1 r2) (s1 ++ s2)%list
  | m_or_l r1 r2 s : matches r1 s → matches (Or r1 r2) s
  | m_or_r r1 r2 s : matches r2 s → matches (Or r1 r2) s
  | m_star_nil r : matches (Star r) []
  | m_star_more r s1 s2 : matches r s1 → matches (Star r) s2 → matches (Star r) (s1 ++ s2)%list.

(** [[^\s@]] *)
Definition plain (c : N) : bool := negb (is_blank c) && negb (bool_decide (c = 64%N)).

(** [/^[^\s@]+@[^\s@]+\.[^\s@]+$/] *)
Definition emailRegex : Re :=
  Then (Plus (Unit plain))
    (Then (Unit (λ c, bool_decide (c = 64%N)))
       (Then (Plus (Unit plain))
          (Then (Unit (λ c, bool_decide (c = 46%N)))
             (Plus (Unit plain))))).

(** A non-empty string of code units that are neither blank nor [@]. *)
Definition plain_word (s : Text) : Prop := s ≠ [] ∧ Forall (λ c, plain c = true) s.

(** ** The authentication middleware

    A header value is a string of Latin-1 code units, as Node hands it to
    the handlers. *)

(** The code units below 256 that [trim] strips and [\s] matches: tab, line
    feed, vertical tab, form feed, carriage return, space, no-break space. *)
Definition is_space (c : ascii) : bool :=
  bool_decide (c ∈ ["009"; "010"; "011"; "012"; "013"; " "; "160"]%char).

Fixpoint trimStart (s : string) : string :=
  match s with
  | "" => ""
  | String c rest => if is_space c then trimStart rest else s
  end.

Fixpoint trimEnd (s : string) : string :=
  match s with
  | "" => ""
  | String c rest =>
      match trimEnd rest with
      | "" => if is_space c then "" else String c ""
      | kept => String c kept
      end
  end.

(** [s.trim()] *)
Definition trim (s : string) : string := trimEnd (trimStart s).

(** [s.split(/\s+/)], from a position inside a separator ([gap]) or not: a
    run of spaces closes the part being read; the end of the string closes
    the last part, which is empty after a separator. *)
Fixpoint split_spaces (gap : bool) (s : string) : list string :=
  match s with
  | "" => [""]
  | String c rest =>
      if is_space c then
        if gap then split_spaces true rest else "" :: split_spaces true rest
      else
        match split_spaces false rest with
        | part :: parts => String c part :: parts
        | [] => [String c ""]
        end
  end.

(** [toLowerCase] on one Latin-1 code unit: A to Z, and the accented capitals
    from À to Þ but for the multiplication sign. *)
Definition lower_unit (c : ascii) : ascii :=
  let n := Ascii.N_of_ascii c in
  if ((65 <=? n) && (n <=? 90) || (192 <=? n) && (n <=? 222) && negb (n =? 215))%N
  then Ascii.ascii_of_N (n + 32) else c.

Fixpoint toLowerCase (s : string) : string :=
  match s with
  | "" => ""
  | String c rest => String (lower_unit c) (toLowerCase rest)
  end.

(** The payload of a token that carries a [userId], as far as the
    middleware reads it.  Tokens are signed by [login], which always puts a
    [userId]. *)
Record Claims := mkClaims {
  c_userId : UserId;
  c_email : Text;
  c_roles : option (list string)
}.

(** [jwt.verify(token, secret)]: the decoded payload, or the name of the
    error thrown.  [Nameless] is a payload without a [userId], or with one
    that is null or empty, which the handlers' test [!req.user.userId] does
    not tell from a missing one; of such a payload the middleware and the
    gates read the roles. *)
Inductive Verified :=
  | Decoded (c : Claims)
  | Nameless (roles : option (list string))
  | Thrown (name : string).

(** What the middleware and the account controller take from their
    environment: [process.env.JWT_SECRET]; the token library, which signs a
    payload at an instant and verifies a token; and the hashing library,
    which hashes a password with a salt of its choice and compares a
    password with a hash. *)
Record Env := mkEnv {
  JWT_SECRET : option string;
  jwt_sign : Claims → string → Instant → string;
  jwt_verify : string → string → Verified;
  bcrypt_hash : Text → N → Text;
  bcrypt_compare : Text → Text → bool
}.

(** [next()] with [req.user] set, or a response and what was written to the
    console.  The middleware copies [decoded.userId] without testing it:
    [Unnamed] is a [req.user] that has roles and no [userId].  The [email]
    of the payload is attached to [req.user] too; no handler of the engine
    reads it. *)
Inductive Auth :=
  | Granted (u : User)
  | Unnamed (roles : list string)
  | Refused (r : Response) (console : list string).

(** [verifyToken], on [req.headers.authorization]. *)
Definition verifyToken (env : Env) (authorization : option string) : Auth :=
  match authorization with
  | None | Some "" =>
      Refused (refuse 401 "Token de autenticación requerido. Usa: Authorization: Bearer <token>") []
  | Some authHeader =>
    let parts := split_spaces false (trim authHeader) in
    if negb (bool_decide (length parts = 2))
       || negb (bool_decide (toLowerCase (default "" (parts !! 0)) = "bearer")) then
      Refused (refuse 401 "Formato de token inválido. Usa: Authorization: Bearer <token>") []
    else
    let token := default "" (parts !! 1) in
    match JWT_SECRET env with
    | None | Some "" =>
        Refused (refuse 500 "Error de configuración del servidor")
                ["JWT_SECRET no está definido en las variables de entorno"]
    | Some secret =>
      match jwt_verify env token secret with
      | Decoded decoded =>
          Granted (mkUser (c_userId decoded) (default [] (c_roles decoded)))
      | Nameless roles => Unnamed (default [] roles)
      | Thrown name =>
          if bool_decide (name = "JsonWebTokenError") then
            Refused (refuse 401 "Token inválido") []
          else if bool_decide (name = "TokenExpiredError") then
            Refused (refuse 401 "Token expirado. Por favor, inicia sesión nuevamente") []
          else
            Refused (refuse 401 "Error al validar el token") ["Error en verifyToken:"]
      end
    end
  end.

(** [roleMiddleware(rolesPermitidos)] on a [req.user] that has the roles
    [userRoles] and no [userId].  The gate tests [!req.user] and reads
    [req.user.roles]; it does not read [userId]. *)
Definition roleMiddleware_unnamed (rolesPermitidos userRoles : list string) : Gate :=
  let tieneRolPermitido := existsb (λ rol, includes rol userRoles) rolesPermitidos in
  if negb tieneRolPermitido then
    Deny (refuse 403 ("Acceso denegado. Se requiere uno de estos roles: "
                      +:+ join ", " rolesPermitidos))
         (Some userRoles)
  else Next.

(** A trip route from the authentication middleware on.  The handlers of
    the engine open with [!req.user || !req.user.userId]: a [req.user]
    without [userId] is no user to them, and [acceptTrip] and [cancelTrip],
    which read the roles after that test, do not get to read them. *)
Definition trip_endpoint (env : Env) (m : SingleMode) (r : TripRoute)
    (authorization : option string) (req : Req) (faults : list bool) (db : DB) : Routed :=
  match verifyToken env authorization with
  | Refused resp _ => Stopped resp None
  | Granted u =>
      trip_route m r (mkReq (Some u) (tripId req) (body_estado req) (now req)) faults db
  | Unnamed userRoles =>
      match
        match route_roles r with
        | Some rs => roleMiddleware_unnamed rs userRoles
        | None => Next
        end
      with
      | Deny resp shown => Stopped resp shown
      | Next =>
          Handled (run m (route_handler r (mkReq None (tripId req) (body_estado req) (now req)))
                     faults db)
      end
  end.

(** Strings without a space, and strings of spaces. *)
Fixpoint no_spaces (s : string) : bool :=
  match s with
  | "" => true
  | String c rest => negb (is_space c) && no_spaces rest
  end.

Fixpoint all_spaces (s : string) : bool :=
  match s with
  | "" => true
  | String c rest => is_space c && all_spaces rest
  end.

(** A header of the form the middleware accepts: a scheme and a token, each
    without a space, a run of spaces between them, and spaces around. *)
Definition bearer_shape (header scheme token : string) : Prop :=
  ∃ pre gap post,
    header = pre +:+ scheme +:+ gap +:+ token +:+ post
    ∧ all_spaces pre ∧ all_spaces gap ∧ all_spaces post
    ∧ gap ≠ "" ∧ scheme ≠ "" ∧ token ≠ ""
    ∧ no_spaces scheme ∧ no_spaces token.



(** ** The account controller

    [register] and [login] of [auth.controller.js], against the table
    [users].  The fields of the body are strings when they are present, and
    [roles], when it is an array, is an array of strings.  [created_at] is
    left out. *)
Module Accounts.

(** [data] of a reply of the store. *)
Definition data_of {A} (r : Result A) : option A := data r.

(** [ROLES_PERMITIDOS] *)
Definition ROLES_PERMITIDOS : list string := ["pasajero"; "conductor"].

(** A row of [users]; [password] is what [register] stored. *)
Record Account := mkAccount {
  id : UserId;
  email : Text;
  password : Text;
  nombre : Text;
  telefono : Text;
  roles : option (list string)
}.

Record Store := mkStore {
  users : gmap nat Account;
  next_id : nat
}.

Definition empty : Store := mkStore ∅ 0.

(** The statements of the controller. *)
Inductive Query : Type → Type :=
  (* users: .select("id").eq("email", e) *)
  | IdsByEmail (e : Text) : Query (Result (list Account))
  (* users: .select("id").eq("telefono", t) *)
  | IdsByTelefono (t : Text) : Query (Result (list Account))
  (* users: .insert({ email, password, nombre, telefono, roles }).select(..).single() *)
  | Insert (email password nombre telefono : Text) (roles : list string)
      : Query (Result Account)
  (* users: .select(..).eq("email", e).single() *)
  | ByEmail (e : Text) : Query (Result Account).

Definition with_email (e : Text) (st : Store) : list Account :=
  filter (λ a, email a = e) (rows (users st)).

Definition with_telefono (t : Text) (st : Store) : list Account :=
  filter (λ a, telefono a = t) (rows (users st)).

(** One statement against the table.  [unique] tells whether the table
    refuses a second row with the same [email] or [telefono]. *)
Definition exec (m : SingleMode) (unique : bool) {A} (q : Query A) (st : Store) : A * Store :=
  match q in Query A return A * Store with
  | IdsByEmail e => (ok (with_email e st), st)
  | IdsByTelefono t => (ok (with_telefono t st), st)
  | Insert e p n t rs =>
      let i := next_id st in
      match users st !! i with
      | Some _ => (failed unique_violation, mkStore (users st) (S i))
      | None =>
          if unique && negb (bool_decide (with_email e st = [] ∧ with_telefono t st = [])) then
            (failed unique_violation, mkStore (users st) (S i))
          else
            let row := mkAccount i e p n t (Some rs) in
            (ok row, mkStore (<[i := row]> (users st)) (S i))
      end
  | ByEmail e =>
      match with_email e st with
      | [] => (no_row m, st)
      | [row] => (ok row, st)
      | _ :: _ :: _ => (failed PGRST116, st)
      end
  end.

Definition fault {A} (q : Query A) : A :=
  match q in Query A return A with
  | IdsByEmail _ => failed store_down
  | IdsByTelefono _ => failed store_down
  | Insert _ _ _ _ _ => failed store_down
  | ByEmail _ => failed store_down
  end.

(** [req.body.roles]: missing or null, something that is no array, or an
    array. *)
Inductive RolesField :=
  | Missing
  | NotArray
  | Array (rs : list string).

Record Body := mkBody {
  b_email : option Text;
  b_password : option Text;
  b_nombre : option Text;
  b_telefono : option Text;
  b_roles : RolesField
}.

(** A request: its body, the salt the hashing library draws, and the
    clock. *)
Record Req := mkReq {
  body : Body;
  salt : N;
  now : Instant
}.

Inductive Data :=
  | NoData
  | Registered (id : UserId) (email nombre telefono : Text) (roles : option (list string))
  | LoggedIn (id : UserId) (email nombre telefono : Text) (roles : list string) (token : string).

Record Response := mkResponse {
  status : nat;
  success : bool;
  message : string;
  data : Data
}.

Definition refuse (st : nat) (msg : string) : Response := mkResponse st false msg NoData.

Inductive Prog : Type :=
  | Respond (r : Response)
  | Log (msg : string) (k : Prog)
  | Call {A : Type} (q : Query A) (k : A → Prog).

Notation "'ask' x := q 'in' p" := (Call q (λ x, p))
  (at level 10, x name, q at level 200, p at level 200,
   format "'ask'  x  :=  q  'in'  '//' p").

(** [!s] is false: the field is there and is not the empty string. *)
Definition filled (s : option Text) : bool :=
  match s with
  | Some (_ :: _) => true
  | _ => false
  end.

Definition server_error : Response := refuse 500 "Error interno del servidor".

(** [register] *)
Definition register (env : Env) (req : Req) : Prog :=
  let b := body req in
  if negb (filled (b_email b)) || negb (filled (b_password b))
     || negb (filled (b_nombre b)) || negb (filled (b_telefono b)) then
    Respond (refuse 400 "Faltan datos requeridos. Necesitas: email, password, nombre, telefono")
  else
  let email := default [] (b_email b) in
  let password := default [] (b_password b) in
  let nombre := default [] (b_nombre b) in
  let telefono := default [] (b_telefono b) in
  match b_roles b with
  | Missing => Respond (refuse 400 "El campo 'roles' es obligatorio")
  | NotArray => Respond (refuse 400 "El campo 'roles' debe ser un array")
  | Array [] => Respond (refuse 400 "El array 'roles' no puede estar vacío")
  | Array roles =>
    let rolesInvalidos := filter (λ role, negb (includes role ROLES_PERMITIDOS)) roles in
    if bool_decide (0 < length rolesInvalidos) then
      Respond (refuse 400 ("Roles no permitidos: " +:+ join ", " rolesInvalidos
                           +:+ ". Valores permitidos: " +:+ join ", " ROLES_PERMITIDOS))
    else if negb (test emailRegex email) then
      Respond (refuse 400 "El formato del email no es válido")
    else if bool_decide (length password < 6) then
      Respond (refuse 400 "La contraseña debe tener al menos 6 caracteres")
    else
    ask r1 := IdsByEmail email in
    if given (error r1) then
      Log "Error al verificar email en Supabase:" (Respond server_error)
    else if some_rows (data_of r1) then
      Respond (refuse 409 "Este email ya está registrado")
    else
    ask r2 := IdsByTelefono telefono in
    if given (error r2) then
      Log "Error al verificar teléfono en Supabase:" (Respond server_error)
    else if some_rows (data_of r2) then
      Respond (refuse 409 "Este teléfono ya está registrado")
    else
    let passwordHasheada := bcrypt_hash env password (salt req) in
    ask r3 := Insert email passwordHasheada nombre telefono roles in
    match error r3 with
    | Some e =>
        if bool_decide (code e = "23505") then
          Respond (refuse 409 "Email o teléfono ya registrado")
        else Log "Error al registrar usuario en Supabase:" (Respond server_error)
    | None =>
      match data_of r3 with
      | None => Respond (refuse 500 "No se pudo crear el usuario")
      | Some nuevoUsuario =>
          Respond (mkResponse 201 true "Usuario registrado correctamente"
                     (Registered (id nuevoUsuario) (Accounts.email nuevoUsuario)
                        (Accounts.nombre nuevoUsuario) (Accounts.telefono nuevoUsuario)
                        (Accounts.roles nuevoUsuario)))
      end
    end
  end.

Definition bad_credentials : Response := refuse 401 "Credenciales inválidas".

(** [login].  Without [JWT_SECRET] the handler throws and the catch block
    answers.  The token is signed for 24 hours; how long is the business of
    [jwt_sign] and of [jwt_verify]. *)
Definition login (env : Env) (req : Req) : Prog :=
  let b := body req in
  if negb (filled (b_email b)) || negb (filled (b_password b)) then
    Respond (refuse 400 "Faltan datos requeridos. Necesitas: email, password")
  else
  let email := default [] (b_email b) in
  let password := default [] (b_password b) in
  ask r := ByEmail email in
  match error r with
  | Some e =>
      if bool_decide (code e = "PGRST116") then Respond bad_credentials
      else Log "Error al buscar usuario en Supabase:" (Respond server_error)
  | None =>
    match data_of r with
    | None => Respond bad_credentials
    | Some user =>
      if negb (bcrypt_compare env password (Accounts.password user)) then
        Respond bad_credentials
      else
      match JWT_SECRET env with
      | None | Some "" => Log "Error en login:" (Respond server_error)
      | Some jwtSecret =>
        let token :=
          jwt_sign env
            (mkClaims (id user) (Accounts.email user) (Some (default [] (roles user))))
            jwtSecret (now req) in
        Respond (mkResponse 200 true "Login exitoso"
                   (LoggedIn (id user) (Accounts.email user) (Accounts.nombre user)
                      (Accounts.telefono user) (default [] (roles user)) token))
      end
    end
  end.

Record Outcome := mkOutcome {
  response : Response;
  final : Store;
  console : list string
}.

(** The handler served alone; the [n]-th store call fails without effect
    when the [n]-th entry of [faults] is [true]. *)
Fixpoint run (m : SingleMode) (unique : bool) (p : Prog) (faults : list bool) (st : Store)
    : Outcome :=
  match p with
  | Respond r => mkOutcome r st []
  | Log msg k =>
      let o := run m unique k faults st in
      mkOutcome (response o) (final o) (msg :: console o)
  | Call q k =>
      let rd := if default false (head faults) then (fault q, st) else exec m unique q st in
      run m unique (k rd.1) (tail faults) rd.2
  end.

Inductive Op := Register | Login.

Definition handler (env : Env) (o : Op) : Req → Prog :=
  match o with
  | Register => register env
  | Login => login env
  end.

Definition serve (env : Env) (m : SingleMode) (unique : bool) (o : Op) (req : Req)
    (faults : list bool) (st : Store) : Outcome :=
  run m unique (handler env o req) faults st.

(** Tables reached from the empty one by serving requests one at a time. *)
Inductive reachable (env : Env) (m : SingleMode) (unique : bool) : Store → Prop :=
  | reach_empty : reachable env m unique empty
  | reach_serve st o req faults :
      reachable env m unique st →
      reachable env m unique (final (serve env m unique o req faults st)).

(** A body that passes the checks [register] makes before it asks the
    table. *)
Definition well_formed (b : Body) : Prop :=
  ∃ e p n t rs,
    b = mkBody (Some e) (Some p) (Some n) (Some t) (Array rs)
    ∧ n ≠ [] ∧ t ≠ []
    ∧ rs ≠ [] ∧ (∀ r, r ∈ rs → r ∈ ROLES_PERMITIDOS)
    ∧ test emailRegex e = true
    ∧ (6 ≤ length p)%nat.

(** What the rows of a table have in common. *)
Definition table_ok (env : Env) (st : Store) : Prop :=
  (∀ i a, users st !! i = Some a →
     id a = i ∧ i < next_id st
     ∧ test emailRegex (email a) = true
     ∧ (∃ p s, password a = bcrypt_hash env p s ∧ (6 ≤ length p)%nat)
     ∧ (∃ rs, roles a = Some rs ∧ rs ≠ [] ∧ ∀ r, r ∈ rs → r ∈ ROLES_PERMITIDOS))
  ∧ (∀ i j a b, users st !! i = Some a → users st !! j = Some b →
       email a = email b ∨ telefono a = telefono b → i = j).

End Accounts.

(** ** Scenarios of the account controller *)

(** [a@b.c], [secret1], [Ana], [5550100] *)
Definition demo_email : Text := [97; 64; 98; 46; 99]%N.
Definition demo_password : Text := [115; 101; 99; 114; 101; 116; 49]%N.
Definition demo_nombre : Text := [65; 110; 97]%N.
Definition demo_telefono : Text := [53; 53; 53; 48; 49; 48; 48]%N.

(** A stand-in for the libraries: the hash is the password behind its salt,
    and there is one token, for the account of [demo_email]. *)
Definition demo_env : Env :=
  mkEnv (Some "s3cret")
    (λ _ _ _, "t0k")
    (λ token _, if bool_decide (token = "t0k")
                then Decoded (mkClaims 0 demo_email (Some ["conductor"]))
                else Thrown "JsonWebTokenError")
    (λ p s, s :: p)
    (λ p h, bool_decide (tail h = p)).

(** The same libraries, which accept one more token, signed elsewhere with
    the same secret: its payload has the role of a driver and no [userId]. *)
Definition stray_env : Env :=
  mkEnv (Some "s3cret")
    (jwt_sign demo_env)
    (λ token secret, if bool_decide (token = "n0id")
                     then Nameless (Some ["conductor"])
                     else jwt_verify demo_env token secret)
    (bcrypt_hash demo_env)
    (bcrypt_compare demo_env).

Definition demo_register : Accounts.Req :=
  Accounts.mkReq
    (Accounts.mkBody (Some demo_email) (Some demo_password) (Some demo_nombre)
       (Some demo_telefono) (Accounts.Array ["conductor"]))
    7 9.

Definition demo_login : Accounts.Req :=
  Accounts.mkReq (Accounts.mkBody (Some demo_email) (Some demo_password) None None Accounts.Missing)
    0 11.

Definition demo_row : Accounts.Account :=
  Accounts.mkAccount 0 demo_email (7%N :: demo_password) demo_nombre demo_telefono
    (Some ["conductor"]).

(** The table after [demo_register]. *)
Definition demo_accounts : Accounts.Store :=
  Accounts.final (Accounts.serve demo_env strict true Accounts.Register demo_register []
                    Accounts.empty).

(** Every row of [db] is still in [db'], with its id and its passenger. *)
Definition rows_kept (db db' : DB) : Prop :=
  (∀ t row, trips db !! t = Some row →
     ∃ row', trips db' !! t = Some row'
             ∧ id row' = id row ∧ pasajero_id row' = pasajero_id row)
  ∧ (∀ u, is_Some (drivers db !! u) → is_Some (drivers db' !! u)).

(** * Properties *)

(** ** The store calls *)

Lemma elem_of_rows {A} (m : gmap nat A) (x : A) :
  x ∈ rows m ↔ ∃ i, m !! i = Some x.
Proof.
  unfold rows. rewrite list_elem_of_fmap. split.
  - intros [[i y] [-> Hin]]. exists i. by apply elem_of_map_to_list.
  - intros [i Hi]. exists (i, x). split; [done|]. by apply elem_of_map_to_list.
Qed.

Lemma elem_of_trips_of_conductor c es db row :
  row ∈ trips_of_conductor c es db ↔
  (∃ i, trips db !! i = Some row) ∧ conductor_id row = Some c ∧ estado row ∈ es.
Proof.
  unfold trips_of_conductor. rewrite list_elem_of_filter, elem_of_rows. tauto.
Qed.

Lemma elem_of_trips_of_pasajero p es db row :
  row ∈ trips_of_pasajero p es db ↔
  (∃ i, trips db !! i = Some row) ∧ pasajero_id row = p ∧ estado row ∈ es.
Proof.
  unfold trips_of_pasajero. rewrite list_elem_of_filter, elem_of_rows. tauto.
Qed.

Lemma elem_of_drivers_in_estado e db d :
  d ∈ drivers_in_estado e db ↔ drivers db !! user_id d = Some e ∧ d_estado d = e.
Proof.
  unfold drivers_in_estado. rewrite list_elem_of_fmap. split.
  - intros [[u e'] [-> Hin]]. apply list_elem_of_filter in Hin as [He Hin].
    apply elem_of_map_to_list in Hin. simpl in *. by subst.
  - intros [Hu He]. exists (user_id d, d_estado d). destruct d; simpl in *. split; [done|].
    apply list_elem_of_filter. split; [done|]. apply elem_of_map_to_list. by subst.
Qed.

Lemma not_nil_elem {A} (l : list A) : l ≠ [] ↔ ∃ x, x ∈ l.
Proof.
  destruct l as [|x l]; split; try congruence.
  - intros [x Hx]. by apply elem_of_nil in Hx.
  - intros _. exists x. by left.
Qed.

Lemma conductor_busy_iff db c :
  trips_of_conductor c estados_activos_conductor db ≠ [] ↔ ∃ i, holds db c i.
Proof.
  rewrite not_nil_elem. unfold holds. split.
  - intros [row Hrow]. apply elem_of_trips_of_conductor in Hrow as [[i Hi] [Hc He]]. eauto.
  - intros [i [row (Hi & Hc & He)]]. exists row. apply elem_of_trips_of_conductor. eauto.
Qed.

Lemma pasajero_busy_iff db p :
  trips_of_pasajero p estados_activos db ≠ [] ↔ owns_active db p.
Proof.
  rewrite not_nil_elem. unfold owns_active. split.
  - intros [row Hrow]. apply elem_of_trips_of_pasajero in Hrow as [[i Hi] [Hc He]]. eauto.
  - intros [i [row (Hi & Hc & He)]]. exists row. apply elem_of_trips_of_pasajero. eauto.
Qed.

Lemma available_iff db :
  drivers_in_estado disponible db ≠ [] ↔ some_available db.
Proof.
  rewrite not_nil_elem. unfold some_available. split.
  - intros [d Hd]. apply elem_of_drivers_in_estado in Hd as [Hd _]. eauto.
  - intros [u Hu]. exists (mkDriver u disponible). by apply elem_of_drivers_in_estado.
Qed.

(** ** Identity of the recorded driver *)

Ltac serve_unfold :=
  unfold serve, handler, requestTrip, acceptTrip, startTrip, finishTrip,
    cancelTrip, registerDriver, updateStatus.

(** C8. A caller who is not the driver recorded on the trip is answered
    Forbidden by startTrip, by finishTrip, and by cancelTrip on a trip in
    progress, whatever roles the caller holds, and the store is left as it
    was. *)
Theorem stranger_is_forbidden (m : SingleMode) (db : DB) (req : Req) (u : User)
    (t : TripId) (row : Trip) (c : UserId) (faults : list bool) :
  user req = Some u →
  tripId req = Some t →
  trips db !! t = Some row →
  conductor_id row = Some c →
  userId u ≠ c →
  reaches_store faults →
  (kind_of (response (serve m Start req faults db)) = Forbidden
   ∧ final (serve m Start req faults db) = db)
  ∧ (kind_of (response (serve m Finish req faults db)) = Forbidden
     ∧ final (serve m Finish req faults db) = db)
  ∧ (estado row = en_progreso →
     kind_of (response (serve m Cancel req faults db)) = Forbidden
     ∧ final (serve m Cancel req faults db) = db).
Proof.
  intros Hu Ht Hrow Hc Hne Hf. unfold reaches_store in Hf.
  serve_unfold. rewrite Hu, Ht. simpl. rewrite Hf. simpl. rewrite Hrow. simpl.
  rewrite Hc. rewrite !bool_decide_eq_false_2 by congruence. simpl.
  split; [done|]. split; [done|]. intros He. rewrite He. simpl.
  rewrite andb_false_r. simpl.
  destruct (includes "pasajero" (roles u) && bool_decide (pasajero_id row = userId u)); done.
Qed.

Lemma stranger_is_forbidden_witness :
  kind_of (response (serve strict Start (about (as_conductor 8) 0) [] db_in_progress)) = Forbidden
  ∧ kind_of (response (serve strict Finish (about (as_conductor 8) 0) [] db_in_progress)) = Forbidden
  ∧ kind_of (response (serve strict Cancel (about (as_pasajero 1) 0) [] db_in_progress)) = Forbidden.
Proof.
  destruct (stranger_is_forbidden strict db_in_progress (about (as_conductor 8) 0)
              (mkUser 8 ["conductor"]) 0 (trip_in en_progreso (Some 7)) 7 [])
    as [[H1 _] [[H2 _] _]]; [reflexivity | reflexivity | reflexivity | reflexivity | simpl; lia | reflexivity |].
  destruct (stranger_is_forbidden strict db_in_progress (about (as_pasajero 1) 0)
              (mkUser 1 ["pasajero"]) 0 (trip_in en_progreso (Some 7)) 7 [])
    as [_ [_ H3]]; [reflexivity | reflexivity | reflexivity | reflexivity | simpl; lia | reflexivity |].
  split; [exact H1 | split; [exact H2 | apply H3; reflexivity]].
Defined.

(** ** Preconditions of acceptance *)

Lemma includes_true r rs : r ∈ rs → includes r rs = true.
Proof. intros. unfold includes. by apply bool_decide_eq_true_2. Qed.

Lemma conductor_idle db c :
  (¬ ∃ i, holds db c i) → trips_of_conductor c estados_activos_conductor db = [].
Proof.
  intros Hno. destruct (trips_of_conductor _ _ db) eqn:E; [done|].
  exfalso. apply Hno, conductor_busy_iff. by rewrite E.
Qed.

(** C4. acceptTrip checks, in this order: the driver row exists (NotFound),
    the driver is available (InvalidState, naming the actual state), the
    driver holds no assigned or running trip (Conflict), the trip exists
    (NotFound), the trip is being searched (InvalidState).  A failed check
    ends the request: the statements sent stop at the one that revealed it,
    and the store is untouched. *)
Theorem accept_checks_in_order (m : SingleMode) (db : DB) (req : Req) (u : User) (t : TripId) :
  user req = Some u →
  "conductor" ∈ roles u →
  tripId req = Some t →
  let o := serve m Accept req [] db in
  let c := userId u in
  let look_driver := St (DriverByUser c) in
  let look_held := St (TripsOfConductor c estados_activos_conductor) in
  let look_trip := St (TripById t) in
  (drivers db !! c = None →
     kind_of (response o) = NotFound
     ∧ message (response o) = Some "Conductor no encontrado en el sistema"
     ∧ stmts o = [look_driver] ∧ final o = db)
  ∧ (∀ e, drivers db !! c = Some e → e ≠ disponible →
     kind_of (response o) = InvalidState
     ∧ message (response o)
       = Some ("El conductor no está disponible. Estado actual: " +:+ driver_estado_str e)
     ∧ stmts o = [look_driver] ∧ final o = db)
  ∧ (drivers db !! c = Some disponible → (∃ i, holds db c i) →
     kind_of (response o) = Conflict
     ∧ stmts o = [look_driver; look_held] ∧ final o = db)
  ∧ (drivers db !! c = Some disponible → (¬ ∃ i, holds db c i) →
     trips db !! t = None →
     kind_of (response o) = NotFound
     ∧ message (response o) = Some "Viaje no encontrado"
     ∧ stmts o = [look_driver; look_held; look_trip] ∧ final o = db)
  ∧ (∀ row, drivers db !! c = Some disponible → (¬ ∃ i, holds db c i) →
     trips db !! t = Some row → estado row ≠ buscando →
     kind_of (response o) = InvalidState
     ∧ stmts o = [look_driver; look_held; look_trip] ∧ final o = db).
Proof.
  intros Hu Hrole Ht. unfold stmts. serve_unfold. rewrite Hu, Ht, (includes_true _ _ Hrole).
  simpl.
  split; [intros Hd | split; [intros e Hd He | split; [intros Hd Hheld |
    split; [intros Hd Hidle Hrow | intros row Hd Hidle Hrow He]]]];
    rewrite Hd; simpl.
  - destruct m; done.
  - by rewrite bool_decide_eq_false_2.
  - apply conductor_busy_iff in Hheld.
    by destruct (trips_of_conductor _ _ db).
  - rewrite (conductor_idle _ _ Hidle). simpl. rewrite Hrow. destruct m; done.
  - rewrite (conductor_idle _ _ Hidle). simpl. rewrite Hrow. simpl.
    by rewrite bool_decide_eq_false_2.
Qed.

Lemma accept_checks_in_order_witness :
  kind_of (response (serve strict Accept (about (as_conductor 7) 0) [] db_assigned)) = InvalidState
  ∧ message (response (serve strict Accept (about (as_conductor 7) 0) [] db_assigned))
    = Some "El conductor no está disponible. Estado actual: ocupado"
  ∧ stmts (serve strict Accept (about (as_conductor 7) 0) [] db_assigned) = [St (DriverByUser 7)]
  ∧ final (serve strict Accept (about (as_conductor 7) 0) [] db_assigned) = db_assigned.
Proof.
  destruct (accept_checks_in_order strict db_assigned (about (as_conductor 7) 0)
              (mkUser 7 ["conductor"]) 0) as (_ & H & _);
    [reflexivity | simpl; constructor | reflexivity |].
  apply (H ocupado); [reflexivity | discriminate].
Defined.

(** ** Requesting a trip *)

Lemma passenger_idle db p :
  ¬ owns_active db p → trips_of_pasajero p estados_activos db = [].
Proof.
  intros Hno. destruct (trips_of_pasajero _ _ db) eqn:E; [done|].
  exfalso. apply Hno, pasajero_busy_iff. by rewrite E.
Qed.

Lemma nobody_available db :
  ¬ some_available db → drivers_in_estado disponible db = [].
Proof.
  intros Hno. destruct (drivers_in_estado _ db) eqn:E; [done|].
  exfalso. apply Hno, available_iff. by rewrite E.
Qed.

(** Whatever happens to a trip request, the [drivers] table is not written. *)
Lemma request_keeps_drivers m req faults db :
  drivers (final (serve m Request req faults db)) = drivers db.
Proof.
  serve_unfold. destruct (user req) as [u|]; [|done].
  repeat (simpl; try done;
          match goal with
          | |- context [head ?f] => is_var f; destruct f as [|[] ?]
          | |- context [trips_of_pasajero ?p ?es db] => destruct (trips_of_pasajero p es db)
          | |- context [drivers_in_estado ?e db] => destruct (drivers_in_estado e db)
          | |- context [trips db !! ?i] => destruct (trips db !! i)
          end).
Qed.

(** C9. requestTrip answers Conflict when the passenger owns a trip that is
    searching, assigned or in progress; otherwise ServiceUnavailable when no
    driver row is available; otherwise it inserts one trip, searching and
    without driver, and returns it with one available driver as a hint.  In
    no case is a driver row written. *)
Theorem request_outcomes (m : SingleMode) (db : DB) (req : Req) (u : User) :
  user req = Some u →
  let p := userId u in
  let o := serve m Request req [] db in
  (owns_active db p → kind_of (response o) = Conflict ∧ final o = db)
  ∧ (¬ owns_active db p → ¬ some_available db →
     kind_of (response o) = ServiceUnavailable ∧ final o = db)
  ∧ (¬ owns_active db p → some_available db → trips db !! next_id db = None →
     ∃ fresh hint,
       response o = mkResponse 201 true (Some "Viaje creado, buscando conductor")
                      (NewTrip (Some fresh) (Some hint))
       ∧ fresh = new_trip (next_id db) p
       ∧ estado fresh = buscando ∧ conductor_id fresh = None
       ∧ drivers db !! user_id hint = Some disponible
       ∧ trips (final o) = <[next_id db := fresh]> (trips db)
       ∧ size (trips (final o)) = S (size (trips db)))
  ∧ (∀ faults, drivers (final (serve m Request req faults db)) = drivers db).
Proof.
  intros Hu. simpl. split; [|split; [|split]]; [..|intros; apply request_keeps_drivers].
  - intros Hact%pasajero_busy_iff. serve_unfold. rewrite Hu. simpl.
    by destruct (trips_of_pasajero _ _ db).
  - intros Hidle Hnone. serve_unfold. rewrite Hu. simpl.
    rewrite (passenger_idle _ _ Hidle). simpl. by rewrite (nobody_available _ Hnone).
  - intros Hidle Hav%available_iff Hfresh. serve_unfold. rewrite Hu. simpl.
    rewrite (passenger_idle _ _ Hidle). simpl.
    destruct (drivers_in_estado disponible db) as [|hint rest] eqn:E; [done|]. simpl.
    rewrite Hfresh. simpl. exists (new_trip (next_id db) (userId u)), hint.
    repeat split.
    + assert (hint ∈ drivers_in_estado disponible db) as Hin by (rewrite E; by left).
      by apply elem_of_drivers_in_estado in Hin as [? _].
    + by apply map_size_insert_None.
Qed.

Lemma request_outcomes_witness :
  ∃ fresh hint,
    response (serve strict Request (bare (as_pasajero 1)) [] db_registered)
    = mkResponse 201 true (Some "Viaje creado, buscando conductor")
        (NewTrip (Some fresh) (Some hint))
    ∧ fresh = new_trip 0 1
    ∧ estado fresh = buscando ∧ conductor_id fresh = None
    ∧ drivers db_registered !! user_id hint = Some disponible
    ∧ trips (final (serve strict Request (bare (as_pasajero 1)) [] db_registered))
      = <[0 := fresh]> (trips db_registered)
    ∧ size (trips (final (serve strict Request (bare (as_pasajero 1)) [] db_registered)))
      = S (size (trips db_registered)).
Proof.
  destruct (request_outcomes strict db_registered (bare (as_pasajero 1)) (mkUser 1 ["pasajero"]))
    as (_ & _ & H & _); [reflexivity|].
  apply H.
  - intros (i & row & Hrow & _). simpl in Hrow. by rewrite lookup_empty in Hrow.
  - exists 7. reflexivity.
  - reflexivity.
Defined.

(** ** Every request is one move *)

Lemma moves_eq db l d1 d2 : moves db l d1 → d1 = d2 → moves db l d2.
Proof. by intros ? <-. Qed.

Ltac run_step db :=
  simpl in *; try done;
  match goal with
  | H : trips db !! ?i = _ |- context [trips db !! ?i] => rewrite H
  | H : drivers db !! ?i = _ |- context [drivers db !! ?i] => rewrite H
  | |- context [head ?f] => is_var f; destruct f as [|[] ?]
  | |- context [@no_row _ ?m] => is_var m; destruct m
  | |- context [parse_driver_estado ?s] => destruct (parse_driver_estado s) eqn:?
  | |- context [trips_of_pasajero ?p ?es db] => destruct (trips_of_pasajero p es db) eqn:?
  | |- context [trips_of_conductor ?c ?es db] => destruct (trips_of_conductor c es db) eqn:?
  | |- context [drivers_in_estado ?e db] => destruct (drivers_in_estado e db) eqn:?
  | |- context [trips db !! ?i] => destruct (trips db !! i) eqn:?
  | |- context [drivers db !! ?i] => destruct (drivers db !! i) eqn:?
  | |- context [<[?i := ?x]> ?m !! ?i] => rewrite (lookup_insert_eq m i x)
  | |- context [includes ?r ?rs] => destruct (includes r rs) eqn:?
  | |- context [bool_decide ?P] => destruct (bool_decide_reflect P)
  | |- context [match conductor_id ?r with _ => _ end] => destruct (conductor_id r) eqn:?
  | |- context [match ?s with EmptyString => _ | String _ _ => _ end] => destruct s
  | |- context [match ?o with Some _ => _ | None => _ end] => is_var o; destruct o
  end.

Ltac run_all db := repeat run_step db.

Ltac same_store :=
  unfold set_driver, with_trip, with_drivers; simpl;
  repeat match goal with
         | H : _ !! _ = _ |- _ => rewrite H
         | H : conductor_id _ = _ |- _ => rewrite H
         end;
  done.

Ltac by_move c :=
  eexists; split;
  [ eapply moves_eq; [ solve [c; eauto] | same_store ]
  | by intros ].

Ltac close_move :=
  simpl; simplify_eq;
  first
    [ exists LNothing; split; [apply mv_nothing | done]
    | exists LIdSpent; split; [apply mv_id_spent | done]
    | exists LRequest; split; [by apply mv_request | done]
    | by_move ltac:(eapply mv_accept with (w := true))
    | by_move ltac:(eapply mv_accept with (w := false))
    | by_move ltac:(eapply mv_start)
    | by_move ltac:(eapply mv_finish with (w := true))
    | by_move ltac:(eapply mv_finish with (w := false))
    | by_move ltac:(eapply mv_cancel with (w := true);
                    [eassumption | unfold terminal; intros [?|?]; congruence | done])
    | by_move ltac:(eapply mv_cancel with (w := false);
                    [eassumption | unfold terminal; intros [?|?]; congruence
                    | intros _; eapply mk_is_Some; eassumption])
    | by_move ltac:(eapply mv_register)
    | by_move ltac:(eapply mv_status) ].

Lemma request_moves m req faults db :
  ∃ l, moves db l (final (serve m Request req faults db)) ∧ (faults = [] → clean l).
Proof.
  serve_unfold. destruct (user req) as [u|]; run_all db; close_move.
Qed.

Lemma accept_moves m req faults db :
  ∃ l, moves db l (final (serve m Accept req faults db)) ∧ (faults = [] → clean l).
Proof.
  serve_unfold. destruct (user req) as [u|]; [|close_move].
  destruct (tripId req) as [t|]; run_all db; close_move.
Qed.

Lemma start_moves m req faults db :
  ∃ l, moves db l (final (serve m Start req faults db)) ∧ (faults = [] → clean l).
Proof.
  serve_unfold. destruct (user req) as [u|]; [|close_move].
  destruct (tripId req) as [t|]; run_all db; close_move.
Qed.

Lemma finish_moves m req faults db :
  ∃ l, moves db l (final (serve m Finish req faults db)) ∧ (faults = [] → clean l).
Proof.
  serve_unfold. destruct (user req) as [u|]; [|close_move].
  destruct (tripId req) as [t|]; run_all db; close_move.
Qed.

Lemma cancel_moves m req faults db :
  ∃ l, moves db l (final (serve m Cancel req faults db)) ∧ (faults = [] → clean l).
Proof.
  serve_unfold. destruct (user req) as [u|]; [|close_move].
  destruct (tripId req) as [t|]; [|close_move]. simpl.
  destruct (trips db !! t) as [row|] eqn:Hrow;
    [|destruct faults as [|[] ?]; simpl; rewrite ?Hrow; destruct m; close_move].
  destruct faults as [|[] faults]; simpl; [|close_move|]; rewrite ?Hrow; simpl.
  all: destruct (estado row) eqn:He; simpl.
  all: destruct (includes "pasajero" (roles u) && bool_decide (pasajero_id row = userId u));
    simpl.
  all: destruct (includes "conductor" (roles u)
                 && bool_decide (conductor_id row = Some (userId u))); simpl.
  all: try close_move.
  all: try (destruct faults as [|[] faults]; simpl; [|close_move|]).
  all: rewrite Hrow; simpl.
  all: destruct (conductor_id row) as [c|] eqn:Hc; simpl; [|close_move].
  all: try (destruct faults as [|[] faults]; simpl; [|close_move|]).
  all: destruct (drivers db !! c) eqn:Hd; simpl; close_move.
Qed.

Lemma register_moves m req faults db :
  ∃ l, moves db l (final (serve m Register req faults db)) ∧ (faults = [] → clean l).
Proof.
  serve_unfold. destruct (user req) as [u|]; run_all db; close_move.
Qed.

Lemma status_moves m req faults db :
  ∃ l, moves db l (final (serve m Status req faults db)).
Proof.
  serve_unfold. destruct (user req) as [u|]; [|by exists LNothing; constructor].
  destruct (body_estado req) as [s|]; run_all db;
    first [ by exists LNothing; constructor | exists LStatus; eapply moves_eq; [apply mv_status|same_store] ].
Qed.

(** Whatever the request, the faults and the store, serving it is one move. *)
Lemma serve_moves m o req faults db :
  ∃ l, moves db l (final (serve m o req faults db))
       ∧ (faults = [] → o ≠ Status → clean l).
Proof.
  destruct o;
    [ destruct (request_moves m req faults db) as (l & ? & ?)
    | destruct (accept_moves m req faults db) as (l & ? & ?)
    | destruct (start_moves m req faults db) as (l & ? & ?)
    | destruct (finish_moves m req faults db) as (l & ? & ?)
    | destruct (cancel_moves m req faults db) as (l & ? & ?)
    | destruct (register_moves m req faults db) as (l & ? & ?)
    | destruct (status_moves m req faults db) as (l & ?) ];
    exists l; split; auto; intros; done.
Qed.

(** ** Terminal states *)

Ltac other_trip t t' :=
  destruct (decide (t = t')) as [->|?];
  [ simplify_eq | rewrite lookup_insert_ne by done ].

(** A move never rewrites a finished or cancelled row. *)
Lemma moves_keeps_terminal db l db' t row :
  moves db l db' → trips db !! t = Some row → terminal (estado row) →
  trips db' !! t = Some row.
Proof.
  intros Hmv Hrow [Hend|Hend]; inversion Hmv; subst; simpl; try done.
  all: match goal with
       | |- <[?i := _]> _ !! _ = _ =>
           other_trip t i; first [done | congruence | exfalso; unfold terminal in *; tauto]
       end.
Qed.

(** C5, as the code has it.  startTrip and finishTrip compare the caller with
    the recorded driver before they look at the state: a caller who is not
    the recorded driver is answered Forbidden in every state (a trip being
    searched has no recorded driver, so every caller is), and the recorded
    driver is answered InvalidState when the trip is not assigned (start) or
    not in progress (finish).  cancelTrip answers InvalidState to every
    caller once the trip is finished or cancelled.  Each refusal leaves the
    store as it was, and no request served on its own, whatever it is,
    rewrites a finished or cancelled row. *)
Theorem illegal_transitions_refused (m : SingleMode) (db : DB) (req : Req) (u : User)
    (t : TripId) (row : Trip) :
  user req = Some u →
  tripId req = Some t →
  trips db !! t = Some row →
  let by_driver := conductor_id row = Some (userId u) in
  let refused o k :=
    kind_of (response (serve m o req [] db)) = k ∧ final (serve m o req [] db) = db in
  (¬ by_driver → refused Start Forbidden ∧ refused Finish Forbidden)
  ∧ (by_driver → estado row ≠ asignado → refused Start InvalidState)
  ∧ (by_driver → estado row ≠ en_progreso → refused Finish InvalidState)
  ∧ (terminal (estado row) → refused Cancel InvalidState)
  ∧ (terminal (estado row) → ∀ o' req' faults,
       trips (final (serve m o' req' faults db)) !! t = Some row).
Proof.
  intros Hu Ht Hrow. simpl.
  split; [|split; [|split; [|split]]].
  - intros Hno. serve_unfold. rewrite Hu, Ht. simpl. rewrite Hrow. simpl.
    by rewrite bool_decide_eq_false_2.
  - intros Hyes He. serve_unfold. rewrite Hu, Ht. simpl. rewrite Hrow. simpl.
    rewrite bool_decide_eq_true_2 by done. simpl. by rewrite bool_decide_eq_false_2.
  - intros Hyes He. serve_unfold. rewrite Hu, Ht. simpl. rewrite Hrow. simpl.
    rewrite bool_decide_eq_true_2 by done. simpl. by rewrite bool_decide_eq_false_2.
  - intros [He|He]; serve_unfold; rewrite Hu, Ht; simpl; rewrite Hrow; simpl;
      by rewrite He.
  - intros Hend o' req' faults.
    destruct (serve_moves m o' req' faults db) as (l & Hmv & _).
    by eapply moves_keeps_terminal.
Qed.

Lemma illegal_transitions_refused_witness :
  kind_of (response (serve strict Cancel (about (as_pasajero 1) 0) [] db_finished)) = InvalidState
  ∧ final (serve strict Cancel (about (as_pasajero 1) 0) [] db_finished) = db_finished.
Proof.
  destruct (illegal_transitions_refused strict db_finished (about (as_pasajero 1) 0)
              (mkUser 1 ["pasajero"]) 0 (trip_in finalizado (Some 7)))
    as (_ & _ & _ & H & _); [reflexivity | reflexivity | reflexivity |].
  apply H. left. reflexivity.
Defined.

(** finishTrip on a trip that is being searched: the conductor asking is not
    its recorded driver, since it has none, and is answered Forbidden. *)
Lemma finish_on_searching_is_forbidden :
  estado <$> trips db_searching !! 0 = Some buscando
  ∧ kind_of (response (serve strict Finish (about (as_conductor 7) 0) [] db_searching)) = Forbidden
  ∧ kind_of (response (serve lenient Finish (about (as_conductor 7) 0) [] db_searching)) = Forbidden
  ∧ kind_of (response (serve strict Finish (about (as_conductor 7) 0) [] db_searching))
    ≠ InvalidState.
Proof. repeat split; try reflexivity. discriminate. Qed.

(** ** The dependent driver write *)

(** C7, as the code has it.  When the trip transition has committed and the
    driver write that follows it fails, the transition is never rolled back
    and the failure is written to the error console.  cancelTrip then answers
    exactly as if the write had succeeded; acceptTrip and finishTrip answer
    Internal. *)
Theorem second_write_failure (m : SingleMode) (db : DB) (req : Req) :
  let good o := serve m o req [] db in
  (kind_of (response (good Accept)) = Success →
     let bad := serve m Accept req (fail_only 4) db in
     kind_of (response bad) = Internal
     ∧ trips (final bad) = trips (final (good Accept))
     ∧ drivers (final bad) = drivers db
     ∧ console bad = driver_log)
  ∧ (kind_of (response (good Finish)) = Success →
     let bad := serve m Finish req (fail_only 2) db in
     kind_of (response bad) = Internal
     ∧ trips (final bad) = trips (final (good Finish))
     ∧ drivers (final bad) = drivers db
     ∧ console bad = driver_log)
  ∧ (kind_of (response (good Cancel)) = Success →
     let bad := serve m Cancel req (fail_only 2) db in
     response bad = response (good Cancel)
     ∧ trips (final bad) = trips (final (good Cancel))
     ∧ drivers (final bad) = drivers db
     ∧ (length (calls (good Cancel)) = 3 → console bad = driver_log)).
Proof.
  simpl. unfold fail_only. serve_unfold.
  destruct (user req) as [u|]; [|by repeat split].
  destruct (tripId req) as [t|]; [|split; [run_all db|by split]].
  split; [|split].
  - run_all db.
  - run_all db.
  - simpl. destruct (trips db !! t) as [row|] eqn:Hrow; [|by destruct m]. simpl.
    destruct (estado row) eqn:He; simpl; try done.
    all: destruct (includes "pasajero" (roles u) && bool_decide (pasajero_id row = userId u));
      simpl; try done.
    all: destruct (includes "conductor" (roles u)
                   && bool_decide (conductor_id row = Some (userId u))); simpl; try done.
    all: rewrite Hrow; simpl.
    all: destruct (conductor_id row) as [c|] eqn:Hc; simpl; try done.
    all: destruct (drivers db !! c); done.
Qed.

Lemma second_write_failure_witness :
  response (serve strict Cancel (about (as_conductor 7) 0) (fail_only 2) db_in_progress)
  = response (serve strict Cancel (about (as_conductor 7) 0) [] db_in_progress)
  ∧ trips (final (serve strict Cancel (about (as_conductor 7) 0) (fail_only 2) db_in_progress))
    = trips (final (serve strict Cancel (about (as_conductor 7) 0) [] db_in_progress))
  ∧ drivers (final (serve strict Cancel (about (as_conductor 7) 0) (fail_only 2) db_in_progress))
    = drivers db_in_progress
  ∧ console (serve strict Cancel (about (as_conductor 7) 0) (fail_only 2) db_in_progress)
    = driver_log.
Proof.
  destruct (second_write_failure strict db_in_progress (about (as_conductor 7) 0))
    as (_ & _ & H).
  destruct (H eq_refl) as (H1 & H2 & H3 & H4).
  split; [exact H1|]. split; [exact H2|]. split; [exact H3|]. apply H4. reflexivity.
Defined.

(** The driver write of acceptTrip and of finishTrip fails after the trip
    transition committed: the trip stays assigned (finished), the driver row
    is not updated, and the request is answered Internal, where it answers
    success when the write goes through. *)
Lemma failed_driver_write_is_reported :
  kind_of (response (serve strict Accept (about (as_conductor 7) 0) [] db_searching)) = Success
  ∧ kind_of (response (serve strict Accept (about (as_conductor 7) 0) (fail_only 4) db_searching))
    = Internal
  ∧ estado <$> trips (final (serve strict Accept (about (as_conductor 7) 0) (fail_only 4)
                              db_searching)) !! 0 = Some asignado
  ∧ drivers (final (serve strict Accept (about (as_conductor 7) 0) (fail_only 4) db_searching))
      !! 7 = Some disponible
  ∧ kind_of (response (serve strict Finish (about (as_conductor 7) 0) [] db_in_progress)) = Success
  ∧ kind_of (response (serve strict Finish (about (as_conductor 7) 0) (fail_only 2) db_in_progress))
    = Internal
  ∧ estado <$> trips (final (serve strict Finish (about (as_conductor 7) 0) (fail_only 2)
                              db_in_progress)) !! 0 = Some finalizado
  ∧ response (serve strict Accept (about (as_conductor 7) 0) (fail_only 4) db_searching)
    ≠ response (serve strict Accept (about (as_conductor 7) 0) [] db_searching).
Proof. repeat split; try reflexivity. vm_compute. discriminate. Qed.

(** ** What the handlers send *)

Lemma settle_hist p h out : hist (settle p h out) = h.
Proof. revert out. induction p; intros; simpl; auto. Qed.

Lemma settle_follows A F p h out : follows A F h p → follows A F h (prog (settle p h out)).
Proof. revert out. induction p; intros; simpl in *; auto. Qed.

Ltac follow_step :=
  simpl;
  match goal with
  | |- True => exact I
  | |- _ ∧ _ => split
  | |- ∀ r : Result _, _ => intros [[?|] [?|]]
  | |- context [bool_decide ?P] => destruct (bool_decide_reflect P)
  | |- context [includes ?r ?rs] => destruct (includes r rs)
  | |- context [some_rows (Some ?l)] => destruct l
  | |- context [match ?l with [] => _ | _ :: _ => _ end] => destruct l
  | |- context [match conductor_id ?r with _ => _ end] => destruct (conductor_id r)
  | |- context [parse_driver_estado ?s] => destruct (parse_driver_estado s)
  | |- context [match ?s with EmptyString => _ | String _ _ => _ end] => destruct s
  end.

Ltac follow_all := repeat (follow_step; try done); simpl; try done.

Ltac find_event :=
  repeat first [ apply Exists_cons_hd; simpl; by eauto | apply Exists_cons_tl ].

Ltac no_event H :=
  repeat (apply Exists_cons in H as [H|H]; [simpl in H; try done|]);
  try (by apply Exists_nil in H).

Ltac accept_leaf :=
  intros _ ?; simplify_eq; split;
  [ intros Hk; first [ by cbv in Hk | eexists; split; [reflexivity|find_event] ]
  | let row := fresh "row" in let Hsaw := fresh "Hsaw" in
    intros row Hsaw ?; first [ reflexivity | no_event Hsaw; destruct Hsaw as [_ ?]; unfold ok in *; simplify_eq; done ] ].

Lemma accept_follows t req :
  follows careful (accept_answer t Accept req) [] (acceptTrip req).
Proof.
  unfold acceptTrip, accept_answer. destruct (user req) as [u|]; [|by accept_leaf].
  destruct (tripId req) as [t'|]; follow_all.
  all: try accept_leaf.
  all: try by intros [? ?].
Qed.

Lemma others_follow t o req :
  follows careful (accept_answer t o req) [] (handler o req).
Proof.
  destruct o; try apply accept_follows; unfold accept_answer; simpl.
  - unfold requestTrip. destruct (user req); [|done]. follow_all.
  - unfold startTrip. destruct (user req); [|done]. destruct (tripId req); follow_all.
    all: try by intros [? ?].
  - unfold finishTrip. destruct (user req); [|done]. destruct (tripId req); follow_all.
    all: try by intros [? ?].
  - unfold cancelTrip. destruct (user req); [|done]. destruct (tripId req); follow_all.
    all: try by intros [? ?].
  - unfold registerDriver. destruct (user req); [|done]. follow_all.
  - unfold updateStatus. destruct (user req); [|done]. destruct (body_estado req); follow_all.
Qed.

Lemma follows_run P m p faults db h :
  follows (λ _, P) (λ _ _, True) h p → Forall P (stmts (run m p faults db)).
Proof.
  revert h faults db. induction p as [r|msg k IH|A q k IH]; intros h faults db Hp.
  - constructor.
  - by apply (IH h).
  - destruct Hp as [Hq Hk]. unfold stmts. simpl. constructor; [done|].
    eapply IH, Hk.
Qed.

Lemma guards_stmts g o :
  Forall (guarded_by g) (stmts o) → ∀ g', g' ∈ guards (calls o) → g' = g.
Proof.
  unfold stmts, guards. induction (calls o) as [|[A q r] es IH]; simpl; intros Hall g' Hg'.
  - by apply elem_of_nil in Hg'.
  - apply Forall_cons in Hall as [Hq Hall].
    destruct q; simpl in *; try by apply IH.
    apply elem_of_cons in Hg' as [->|Hg']; [done|by apply IH].
Qed.

Lemma start_unguarded req : follows (λ _, guarded_by None) (λ _ _, True) [] (startTrip req).
Proof.
  unfold startTrip. destruct (user req); [|done]. destruct (tripId req); [|done]. follow_all.
Qed.
Lemma cancel_unguarded req : follows (λ _, guarded_by None) (λ _ _, True) [] (cancelTrip req).
Proof.
  unfold cancelTrip. destruct (user req); [|done]. destruct (tripId req); [|done]. follow_all.
Qed.
Lemma accept_guarded req : follows (λ _, guarded_by (Some buscando)) (λ _ _, True) [] (acceptTrip req).
Proof.
  unfold acceptTrip. destruct (user req); [|done]. destruct (tripId req); follow_all.
Qed.
Lemma finish_guarded req : follows (λ _, guarded_by (Some en_progreso)) (λ _ _, True) [] (finishTrip req).
Proof.
  unfold finishTrip. destruct (user req); [|done]. destruct (tripId req); follow_all.
Qed.

(** ** The acceptance race *)

Section Race.
Context (m : SingleMode) (t : TripId).

Lemma exec_keeps_taken {A} (q : Query A) db h u :
  careful h (St q) → taken_by t db u → taken_by t (exec m q db).2 u.
Proof.
  intros Hq (row & Hrow & He & Hc). unfold taken_by.
  destruct q as [p es|c es|t'|p|t' g patch|u'|u'|e|u' e|u' e|u' e]; simpl in *.
  - by exists row.
  - by exists row.
  - destruct (trips db !! t'); [|destruct m]; by exists row.
  - destruct (trips db !! next_id db) eqn:Hn; simpl; [by exists row|].
    exists row. rewrite lookup_insert_ne; [done|]. intros <-. congruence.
  - destruct Hq as [Hp Hg].
    destruct (trips db !! t') as [row0|] eqn:H0; simpl; [|destruct m; by exists row].
    destruct (guard_holds g row0) eqn:Hgd; simpl; [|destruct m; by exists row].
    destruct (decide (t' = t)) as [->|Hne];
      [|rewrite lookup_insert_ne by done; by exists row].
    rewrite lookup_insert_eq. simplify_eq. eexists. split; [done|]. split; [done|]. simpl.
    destruct (p_conductor_id patch) as [c|] eqn:Hpc; simpl; [|done].
    rewrite Hg in Hgd by eauto. simpl in Hgd. by apply bool_decide_eq_true in Hgd.
  - destruct (drivers db !! u'); [|destruct m]; by exists row.
  - destruct (drivers db !! u'); by exists row.
  - by exists row.
  - destruct (drivers db !! u'); by exists row.
  - destruct (drivers db !! u'); by exists row.
  - destruct (drivers db !! u'); by exists row.
Qed.

Lemma exec_commits {A} (q : Query A) db h u :
  careful h (St q) → commit_by u t (Ev q (exec m q db).1) →
  ¬ taken t db ∧ taken_by t (exec m q db).2 u.
Proof.
  intros Hq Hc. destruct q; simpl in *; try done.
  destruct Hc as (-> & -> & Hpc & Hd). destruct Hq as [Hp _].
  destruct (trips db !! t) as [row|] eqn:Hrow; simpl in *; [|destruct m; by destruct Hd].
  destruct (bool_decide_reflect (estado row = buscando)) as [He|He]; simpl in *;
    [|destruct m; by destruct Hd].
  split.
  - intros (row' & Hrow' & He'). congruence.
  - exists (apply_patch patch row). simpl. rewrite lookup_insert_eq. simpl. by rewrite Hpc.
Qed.

Lemma fault_commits_not {A} (q : Query A) u : ¬ commit_by u t (Ev q (fault q)).
Proof. destruct q; simpl; try tauto. intros (_ & _ & _ & [? ?]); done. Qed.

Lemma race_inv_arrive reqs db : race_inv t reqs (arrive db (handlers reqs)).
Proof.
  assert (∀ i th, pool (arrive db (handlers reqs)) !! i = Some th →
            hist th = [] ∧ ∃ o req, reqs !! i = Some (o, req) ∧ th = spawn (handler o req))
    as Hth.
  { intros i th. unfold arrive, handlers. simpl. rewrite !list_lookup_fmap.
    destruct (reqs !! i) as [[o req]|]; simpl; [|done]. intros [= <-].
    split; [apply settle_hist|eauto]. }
  split.
  - intros i th (Hh & o & req & Hi & ->)%Hth. exists o, req. split; [done|].
    unfold spawn in *. rewrite Hh. apply settle_follows, others_follow.
  - intros i th u [Hh _]%Hth Hw. unfold won_by in Hw. rewrite Hh in Hw.
    by apply Exists_nil in Hw.
  - intros i j thi thj u u' [Hh _]%Hth _ Hw. unfold won_by in Hw. rewrite Hh in Hw.
    by apply Exists_nil in Hw.
Qed.

Lemma taken_by_taken db u : taken_by t db u → taken t db.
Proof. intros (row & ? & ? & ?). by exists row. Qed.

(** One call of one thread, resolved by the store or failed. *)
Lemma race_inv_call reqs c i th A (q : Query A) k r db' :
  race_inv t reqs c →
  pool c !! i = Some th → prog th = Call q k →
  (r = (exec m q (store c)).1 ∧ db' = (exec m q (store c)).2)
  ∨ (r = fault q ∧ db' = store c) →
  race_inv t reqs (mkConfig db' (<[i := resume th q k r]> (pool c))).
Proof.
  intros [Hfol Htak Hone] Hi Hp Hr.
  destruct (Hfol i th Hi) as (o & req & Hreq & Hth). rewrite Hp in Hth.
  destruct Hth as [Hq Hk].
  assert (∀ u, taken_by t (store c) u → taken_by t db' u) as Hkeep.
  { intros u Hu. destruct Hr as [[_ ->]|[_ ->]]; [|done]. by eapply exec_keeps_taken. }
  assert (∀ u, commit_by u t (Ev q r) → ¬ taken t (store c) ∧ taken_by t db' u) as Hnew.
  { intros u Hu. destruct Hr as [[-> ->]|[-> ->]]; [by eapply exec_commits|].
    by apply fault_commits_not in Hu. }
  assert (∀ u, won_by u t (resume th q k r) → won_by u t th ∨ commit_by u t (Ev q r)) as Hwon.
  { intros u. unfold won_by, resume. rewrite settle_hist, Exists_app.
    intros [?|He]; [by left|right]. apply Exists_cons in He as [?|He]; [done|].
    by apply Exists_nil in He. }
  split; simpl.
  - intros j thj [(-> & <- & _)|[Hne Hj]]%list_lookup_insert_Some; [|by apply Hfol].
    exists o, req. split; [done|]. unfold resume. rewrite settle_hist.
    apply settle_follows, Hk.
  - intros j thj u [(-> & <- & _)|[Hne Hj]]%list_lookup_insert_Some Hw.
    + apply Hwon in Hw as [Hw|Hw]; [by eapply Hkeep, Htak|by apply Hnew].
    + by eapply Hkeep, Htak.
  - intros j1 j2 th1 th2 u u'
      [(-> & <- & _)|[Hne1 Hj1]]%list_lookup_insert_Some
      [(-> & <- & _)|[Hne2 Hj2]]%list_lookup_insert_Some Hw1 Hw2; [done|..].
    + apply Hwon in Hw1 as [Hw1|Hw1]; [by eapply Hone|].
      apply Hnew in Hw1 as [Hfree _]. exfalso. eapply Hfree, taken_by_taken, Htak; eauto.
    + apply Hwon in Hw2 as [Hw2|Hw2]; [by eapply Hone|].
      apply Hnew in Hw2 as [Hfree _]. exfalso. eapply Hfree, taken_by_taken, Htak; eauto.
    + by eapply Hone.
Qed.

Lemma race_inv_step reqs c c' : race_inv t reqs c → step m c c' → race_inv t reqs c'.
Proof.
  intros Hinv Hstep. inversion Hstep; subst; eapply race_inv_call; eauto.
Qed.

Lemma race_inv_reach reqs db c :
  rtc (step m) (arrive db (handlers reqs)) c → race_inv t reqs c.
Proof.
  apply (rtc_ind_r (R := step m) (race_inv t reqs)).
  - apply race_inv_arrive.
  - intros c1 c2 _ Hstep Hinv. by eapply race_inv_step.
Qed.
End Race.

Lemma sched_step_rtc m c d : rtc (step m) c (sched_step m c d).
Proof.
  unfold sched_step. destruct (pool c !! d.1) as [th|] eqn:Hth; [|done].
  destruct (prog th) as [r|msg k|A q k] eqn:Hp; [done|done|].
  destruct d.2; apply rtc_once; [by eapply step_fault|by eapply step_exec].
Qed.

Lemma run_sched_rtc m sched c : rtc (step m) c (run_sched m sched c).
Proof.
  revert c. induction sched as [|d sched IH]; intros c; [done|].
  unfold run_sched. simpl. etrans; [apply sched_step_rtc|apply IH].
Qed.

(** What the guard of acceptTrip's write secures.  Requests of any kind are
    in flight together and their store calls interleave in any order, with
    any of them failing.  Among the acceptTrip calls on trip [t], at most
    one commits the guarded write, only a call that committed answers
    success, and the trip then carries that caller as its driver; so at
    most one call succeeds.  A call that read the trip after it had left the
    search answers InvalidState. *)
Theorem one_accept_wins (m : SingleMode) (db : DB) (reqs : list (Op * Req)) (t : TripId)
    (c : Config) :
  rtc (step m) (arrive db (handlers reqs)) c →
  (∀ i j thi thj u u', pool c !! i = Some thi → pool c !! j = Some thj →
     won_by u t thi → won_by u' t thj → i = j)
  ∧ (∀ i req r, reqs !! i = Some (Accept, req) → tripId req = Some t →
       answered c i = Some r → kind_of r = Success →
       ∃ u th, user req = Some u ∧ pool c !! i = Some th
               ∧ won_by (userId u) t th ∧ taken_by t (store c) (userId u))
  ∧ (∀ i j reqi reqj ri rj,
       reqs !! i = Some (Accept, reqi) → reqs !! j = Some (Accept, reqj) →
       tripId reqi = Some t → tripId reqj = Some t →
       answered c i = Some ri → answered c j = Some rj →
       kind_of ri = Success → kind_of rj = Success → i = j)
  ∧ (∀ i req r th row, reqs !! i = Some (Accept, req) → tripId req = Some t →
       pool c !! i = Some th → answered c i = Some r →
       Exists (saw t row) (hist th) → estado row ≠ buscando →
       kind_of r = InvalidState).
Proof.
  intros Hreach. destruct (race_inv_reach m t reqs db c Hreach) as [Hfol Htak Hone].
  assert (∀ i req r, reqs !! i = Some (Accept, req) → tripId req = Some t →
            answered c i = Some r →
            ∃ th, pool c !! i = Some th ∧ accept_answer t Accept req (hist th) r) as Hans.
  { intros i req r Hi Ht. unfold answered.
    destruct (pool c !! i) as [th|] eqn:Hth; [|done].
    destruct (Hfol i th Hth) as (o & req' & Hi' & Hp). simplify_eq.
    destruct (prog th) eqn:Hpr; [|done..]. intros [= ->]. by exists th. }
  assert (∀ i req r, reqs !! i = Some (Accept, req) → tripId req = Some t →
       answered c i = Some r → kind_of r = Success →
       ∃ u th, user req = Some u ∧ pool c !! i = Some th
               ∧ won_by (userId u) t th ∧ taken_by t (store c) (userId u)) as Hwin.
  { intros i req r Hi Ht Hr Hk. destruct (Hans i req r Hi Ht Hr) as (th & Hth & Ha).
    destruct (Ha eq_refl Ht) as [Hs _]. destruct (Hs Hk) as (u & Hu & Hc).
    exists u, th. repeat split; try done. by eapply Htak. }
  split; [exact Hone|]. split; [exact Hwin|]. split.
  - intros i j reqi reqj ri rj Hi Hj Hti Htj Hri Hrj Hki Hkj.
    destruct (Hwin i reqi ri Hi Hti Hri Hki) as (ui & thi & _ & Hthi & Hwi & _).
    destruct (Hwin j reqj rj Hj Htj Hrj Hkj) as (uj & thj & _ & Hthj & Hwj & _).
    by eapply Hone.
  - intros i req r th row Hi Ht Hth Hr Hsaw Hne.
    destruct (Hans i req r Hi Ht Hr) as (th' & Hth' & Ha). simplify_eq.
    destruct (Ha eq_refl Ht) as [_ Hs]. by eapply Hs.
Qed.

Lemma one_accept_wins_witness :
  ∃ u th, user (about (as_conductor 7) 0) = Some u
    ∧ pool (run_sched strict race_sched (arrive db_two (handlers race_reqs))) !! 0 = Some th
    ∧ won_by (userId u) 0 th
    ∧ taken_by 0 (store (run_sched strict race_sched (arrive db_two (handlers race_reqs))))
        (userId u).
Proof.
  destruct (one_accept_wins strict db_two race_reqs 0 _ (run_sched_rtc strict race_sched _))
    as (_ & H & _).
  apply (H 0 (about (as_conductor 7) 0)
           (mkResponse 200 true (Some "Viaje aceptado")
              (OneTrip (mkTrip 0 1 (Some 7) asignado (Some 9) None None None None))));
    reflexivity.
Defined.

(** ** The loser of the race *)

Lemma follows_any (answer : list Event → Response → Prop) h p :
  (∀ h r, answer h r) → follows (λ _ _, True) answer h p.
Proof.
  intros Hany. revert h. induction p as [r|msg k IH|A q k IH]; intros h; simpl; auto.
Qed.

Lemma accept_loser_follows m req :
  follows (λ _ _, True) (loser_answer m Accept) [] (acceptTrip req).
Proof.
  unfold acceptTrip, loser_answer.
  destruct (user req); [|by intros _ ?%Exists_nil].
  destruct (tripId req); follow_all.
  all: intros _ H; no_event H.
  all: destruct m; simplify_eq; done.
Qed.

Lemma handler_loser_follows m o req :
  follows (λ _ _, True) (loser_answer m o) [] (handler o req).
Proof.
  destruct o; try (apply follows_any; by intros h r [=]).
  apply accept_loser_follows.
Qed.

(** Each request in flight is its handler, run as far as its history. *)
Lemma pool_follows (answer : Op → list Event → Response → Prop) m db reqs c :
  (∀ o req, follows (λ _ _, True) (answer o) [] (handler o req)) →
  rtc (step m) (arrive db (handlers reqs)) c →
  ∀ i th, pool c !! i = Some th →
    ∃ o req, reqs !! i = Some (o, req) ∧ follows (λ _ _, True) (answer o) (hist th) (prog th).
Proof.
  intros Hh. apply (rtc_ind_r (R := step m)
    (λ c, ∀ i th, pool c !! i = Some th →
       ∃ o req, reqs !! i = Some (o, req) ∧ follows (λ _ _, True) (answer o) (hist th) (prog th))).
  - intros i th. unfold arrive, handlers. simpl. rewrite !list_lookup_fmap.
    destruct (reqs !! i) as [[o req]|]; simpl; [|done]. intros [= <-].
    exists o, req. split; [done|]. unfold spawn. rewrite settle_hist.
    apply settle_follows, Hh.
  - intros c1 c2 _ Hstep IH i th Hi.
    inversion Hstep as [j thj A q k Hj Hp|j thj A q k Hj Hp]; subst; simpl in Hi.
    all: apply list_lookup_insert_Some in Hi as [(-> & <- & _)|[Hne Hi]]; [|by apply IH].
    all: destruct (IH _ _ Hj) as (o & req & Hreq & Hf); rewrite Hp in Hf; destruct Hf as [_ Hk].
    all: exists o, req; split; [done|]; unfold resume; rewrite settle_hist.
    all: apply settle_follows, Hk.
Qed.

Lemma loser_answered m db reqs c i req th r :
  rtc (step m) (arrive db (handlers reqs)) c →
  reqs !! i = Some (Accept, req) →
  pool c !! i = Some th →
  Exists (matched_no_row m) (hist th) →
  answered c i = Some r →
  kind_of r = loser_kind m.
Proof.
  intros Hreach Hi Hth Hlost. unfold answered. rewrite Hth.
  destruct (pool_follows (loser_answer m) m db reqs c (handler_loser_follows m) Hreach i th Hth)
    as (o & req' & Hreq & Hf).
  simplify_eq. destruct (prog th); [|done..]. intros [= ->]. by apply Hf.
Qed.

(** C1 on the code.  An acceptTrip call whose guarded update matched no row,
    because another request took the trip after the call had read it, is
    answered as the store client reports the empty result.  With the error
    PGRST116 of [.single()], the branch [if (errorActualizacion)] answers
    Internal; only with a client that reports an absent row without an
    error does the call reach [if (!viajeActualizado)] and answer
    InvalidState.  This holds for every pool of requests and every
    interleaving of their store calls.  It happens when drivers 7 and 8,
    both available, accept trip 0 and each completes its reads before either
    writes: driver 7's update commits and he is answered success with the
    trip assigned to him; driver 8, who read the trip in the search, sends
    his update, which comes back with PGRST116 and changes nothing, and he
    is answered Internal. *)
Theorem lost_acceptance_answer :
  (∀ m db reqs c i req th r,
     rtc (step m) (arrive db (handlers reqs)) c →
     reqs !! i = Some (Accept, req) →
     pool c !! i = Some th →
     Exists (matched_no_row m) (hist th) →
     answered c i = Some r →
     kind_of r = loser_kind m)
  ∧ answered (run_sched strict race_sched (arrive db_two (handlers race_reqs))) 0
    = Some (mkResponse 200 true (Some "Viaje aceptado")
              (OneTrip (apply_patch (accept_patch 7 9) (trip_in buscando None))))
  ∧ trips (store (run_sched strict race_sched (arrive db_two (handlers race_reqs)))) !! 0
    = Some (apply_patch (accept_patch 7 9) (trip_in buscando None))
  ∧ (∃ th, pool (run_sched strict race_sched (arrive db_two (handlers race_reqs))) !! 1 = Some th
       ∧ Exists (saw 0 (trip_in buscando None)) (hist th)
       ∧ last (hist th)
         = Some (Ev (TripUpdate 0 (Some buscando) (accept_patch 8 9)) (failed PGRST116))
       ∧ logged th = ["Error al actualizar viaje:"])
  ∧ answered (run_sched strict race_sched (arrive db_two (handlers race_reqs))) 1
    = Some internal
  ∧ answered (run_sched lenient race_sched (arrive db_two (handlers race_reqs))) 1
    = Some (refuse 400 "El viaje ya no está disponible (estado cambió)").
Proof.
  split; [intros m db reqs c i req th r; apply loser_answered|].
  split; [vm_compute; reflexivity|]. split; [vm_compute; reflexivity|].
  split; [|split; vm_compute; reflexivity].
  exists (mkThread (Respond internal)
            [Ev (DriverByUser 8) (ok (mkDriver 8 disponible));
             Ev (TripsOfConductor 8 estados_activos_conductor) (ok []);
             Ev (TripById 0) (ok (trip_in buscando None));
             Ev (TripUpdate 0 (Some buscando) (accept_patch 8 9)) (failed PGRST116)]
            ["Error al actualizar viaje:"]).
  split; [vm_compute; reflexivity|]. split; [|split; reflexivity].
  do 2 apply Exists_cons_tl. apply Exists_cons_hd. by split.
Qed.

Lemma lost_acceptance_answer_witness :
  ∃ th r, pool (run_sched strict race_sched (arrive db_two (handlers race_reqs))) !! 1 = Some th
    ∧ Exists (matched_no_row strict) (hist th)
    ∧ answered (run_sched strict race_sched (arrive db_two (handlers race_reqs))) 1 = Some r
    ∧ kind_of r = Internal.
Proof.
  set (th := mkThread (Respond internal)
            [Ev (DriverByUser 8) (ok (mkDriver 8 disponible));
             Ev (TripsOfConductor 8 estados_activos_conductor) (ok []);
             Ev (TripById 0) (ok (trip_in buscando None));
             Ev (TripUpdate 0 (Some buscando) (accept_patch 8 9)) (failed PGRST116)]
            ["Error al actualizar viaje:"]).
  assert (pool (run_sched strict race_sched (arrive db_two (handlers race_reqs))) !! 1 = Some th)
    as Hth by (vm_compute; reflexivity).
  assert (Exists (matched_no_row strict) (hist th)) as Hlost.
  { do 3 apply Exists_cons_tl. apply Exists_cons_hd. reflexivity. }
  assert (answered (run_sched strict race_sched (arrive db_two (handlers race_reqs))) 1
          = Some internal) as Hans by (vm_compute; reflexivity).
  exists th, internal. split; [exact Hth|]. split; [exact Hlost|]. split; [exact Hans|].
  exact (proj1 lost_acceptance_answer strict db_two race_reqs _ 1 (about (as_conductor 8) 0) th
           internal (run_sched_rtc strict race_sched _) eq_refl Hth Hlost Hans).
Defined.

(** ** The lost race *)

(** Whatever the store replies: acceptTrip and finishTrip send at most one
    trip update, and after a guarded update that came back without a row
    acceptTrip answers InvalidState or Internal, finishTrip NotFound or
    Internal. *)
Lemma accept_after_lost_update req :
  follows no_retry
    (λ h r, Exists lost_update h → kind_of r = InvalidState ∨ kind_of r = Internal)
    [] (acceptTrip req).
Proof.
  unfold acceptTrip. destruct (user req); [|by intros ?%Exists_nil].
  destruct (tripId req); follow_all.
  all: try (intros H; no_event H; by auto).
  all: try (intros H; no_event H).
Qed.

Lemma finish_after_lost_update req :
  follows no_retry
    (λ h r, Exists lost_update h → kind_of r = NotFound ∨ kind_of r = Internal)
    [] (finishTrip req).
Proof.
  unfold finishTrip. destruct (user req); [|by intros ?%Exists_nil].
  destruct (tripId req); follow_all.
  all: try (intros H; no_event H; by auto).
  all: try (intros H; no_event H).
Qed.

(** C6 on the code.  Two acceptTrip calls race for a trip, two finishTrip
    calls for another; in each pair both read before either writes.  The
    second guarded update matches no row.  With the store client reporting
    that as the error PGRST116, both losers answer Internal; with a store
    reporting an absent row, the acceptTrip loser answers InvalidState and
    the finishTrip loser NotFound. *)
Theorem lost_race_answers :
  kind_of <$> answered (run_sched strict race_sched (arrive db_two (handlers race_reqs))) 1
    = Some Internal
  ∧ kind_of <$> answered (run_sched strict twice_sched (arrive db_in_progress (handlers twice_reqs))) 1
    = Some Internal
  ∧ kind_of <$> answered (run_sched lenient race_sched (arrive db_two (handlers race_reqs))) 1
    = Some InvalidState
  ∧ kind_of <$> answered (run_sched lenient twice_sched (arrive db_in_progress (handlers twice_reqs))) 1
    = Some NotFound.
Proof. repeat split; vm_compute; reflexivity. Qed.

(** ** Writes without a state guard *)

(** When the write is sent *)

Lemma start_sends m req faults db u t row :
  user req = Some u → tripId req = Some t → reaches_store faults →
  trips db !! t = Some row → conductor_id row = Some (userId u) → estado row = asignado →
  stmts (serve m Start req faults db)
  = [St (TripById t); St (TripUpdate t None (start_patch (now req)))].
Proof.
  intros Hu Ht Hf Hrow Hc He. unfold stmts, serve, handler, startTrip, reaches_store in *.
  rewrite Hu, Ht. simpl. rewrite Hf. simpl. rewrite Hrow. simpl.
  rewrite !bool_decide_eq_true_2 by done. simpl.
  destruct (default false (head (tail faults))); simpl.
  - done.
  - rewrite Hrow. done.
Qed.

Lemma start_refrains m req faults db u t row :
  user req = Some u → tripId req = Some t → reaches_store faults →
  trips db !! t = Some row → conductor_id row ≠ Some (userId u) ∨ estado row ≠ asignado →
  stmts (serve m Start req faults db) = [St (TripById t)]
  ∧ final (serve m Start req faults db) = db
  ∧ success (response (serve m Start req faults db)) = false.
Proof.
  intros Hu Ht Hf Hrow Hno. unfold stmts, serve, handler, startTrip, reaches_store in *.
  rewrite Hu, Ht. simpl. rewrite Hf. simpl. rewrite Hrow. simpl.
  destruct (bool_decide_reflect (conductor_id row = Some (userId u))); simpl; [|done].
  destruct (bool_decide_reflect (estado row = asignado)); simpl; [|done].
  by destruct Hno.
Qed.

Lemma cancel_sends m req faults db u t row :
  user req = Some u → tripId req = Some t → reaches_store faults →
  trips db !! t = Some row →
  (includes "pasajero" (roles u) = true ∧ pasajero_id row = userId u
   ∧ conductor_id row ≠ Some (userId u) ∧ estado row ∈ [buscando; asignado])
  ∨ (includes "conductor" (roles u) = true ∧ conductor_id row = Some (userId u)
     ∧ pasajero_id row ≠ userId u ∧ estado row ∈ [asignado; en_progreso]) →
  ∃ who, take 2 (stmts (serve m Cancel req faults db))
         = [St (TripById t); St (TripUpdate t None (cancel_patch (now req) who))]
         ∧ who = (if bool_decide (pasajero_id row = userId u) then "pasajero" else "conductor").
Proof.
  intros Hu Ht Hf Hrow Hwho. unfold stmts, serve, handler, cancelTrip, reaches_store in *.
  rewrite Hu, Ht. simpl. rewrite Hf. simpl. rewrite Hrow. simpl.
  destruct Hwho as [(Hr & Hp & Hc & He)|(Hr & Hc & Hp & He)]; rewrite Hr.
  - rewrite (bool_decide_eq_true_2 _ Hp), (bool_decide_eq_false_2 _ Hc), !andb_false_r.
    eexists. split; [|reflexivity].
    apply elem_of_cons in He as [He|He]; [|apply list_elem_of_singleton in He]; rewrite He; simpl.
    all: destruct (default false (head (tail faults))); simpl; try reflexivity.
    all: rewrite Hrow; simpl; by destruct (conductor_id row).
  - rewrite (bool_decide_eq_true_2 _ Hc), (bool_decide_eq_false_2 _ Hp), !andb_false_r.
    simpl. eexists. split; [|reflexivity].
    apply elem_of_cons in He as [He|He]; [|apply list_elem_of_singleton in He]; rewrite He; simpl.
    all: destruct (default false (head (tail faults))); simpl; try reflexivity.
    all: rewrite Hrow; simpl; by rewrite Hc.
Qed.

Lemma cancel_refrains m req faults db u t row :
  user req = Some u → tripId req = Some t → reaches_store faults →
  trips db !! t = Some row → estado row ∈ [finalizado; cancelado] →
  stmts (serve m Cancel req faults db) = [St (TripById t)]
  ∧ final (serve m Cancel req faults db) = db
  ∧ success (response (serve m Cancel req faults db)) = false.
Proof.
  intros Hu Ht Hf Hrow He. unfold stmts, serve, handler, cancelTrip, reaches_store in *.
  rewrite Hu, Ht. simpl. rewrite Hf. simpl. rewrite Hrow. simpl.
  apply elem_of_cons in He as [He|He]; [|apply list_elem_of_singleton in He]; by rewrite He.
Qed.

Lemma run_sched_without m i sched c :
  without i sched → pool (run_sched m sched c) !! i = pool c !! i.
Proof.
  unfold without, run_sched. revert c.
  induction sched as [|d sched IH]; intros c Hs; [done|].
  apply Forall_cons in Hs as [Hd Hs]. simpl. rewrite IH by done.
  unfold sched_step. destruct (pool c !! d.1) as [th|]; [|done].
  destruct (prog th); [done|done|].
  destruct d.2; simpl; by rewrite list_lookup_insert_ne.
Qed.

(** The write of startTrip, sent after its read whatever happened to the row
    in between. *)
Lemma start_write_late m req others sched db u t row row' :
  user req = Some u → tripId req = Some t →
  trips db !! t = Some row → conductor_id row = Some (userId u) → estado row = asignado →
  without 0 sched →
  trips (store (after_read m (Start, req) others sched db)) !! t = Some row' →
  store (then_write m (after_read m (Start, req) others sched db))
  = with_trip (store (after_read m (Start, req) others sched db)) t
      (apply_patch (start_patch (now req)) row')
  ∧ answered (then_write m (after_read m (Start, req) others sched db)) 0
    = Some (mkResponse 200 true (Some "Viaje iniciado")
              (OneTrip (apply_patch (start_patch (now req)) row'))).
Proof.
  intros Hu Ht Hrow Hc He Hs Hrow'.
  set (c := after_read m (Start, req) others sched db) in *.
  assert (pool c !! 0
          = Some (mkThread
                    (await r2 := TripUpdate t None (start_patch (now req)) in
                     if given (error r2) then Log "Error al iniciar viaje:" (Respond internal)
                     else match data r2 with
                          | None => Respond trip_not_found
                          | Some viajeActualizado =>
                              Respond (mkResponse 200 true (Some "Viaje iniciado")
                                         (OneTrip viajeActualizado))
                          end)
                    [Ev (TripById t) (ok row)] [])) as Hth.
  { unfold c, after_read. rewrite run_sched_without by done.
    unfold run_sched, arrive, handlers. simpl. unfold sched_step. simpl.
    unfold spawn, startTrip. rewrite Hu, Ht. simpl. rewrite Hrow. simpl. unfold resume. simpl.
    by rewrite !bool_decide_eq_true_2. }
  unfold then_write, run_sched, answered, sched_step. simpl. rewrite Hth. simpl.
  rewrite Hrow'. simpl. split; [done|].
  destruct (pool c) as [|th0 ths] eqn:Hpool; [done|]. done.
Qed.

(** The same for cancelTrip, called by the passenger of the trip. *)
Lemma cancel_write_late m req others sched db u t row row' :
  user req = Some u → tripId req = Some t →
  trips db !! t = Some row →
  includes "pasajero" (roles u) = true → pasajero_id row = userId u →
  conductor_id row ≠ Some (userId u) → estado row ∈ [buscando; asignado] →
  without 0 sched →
  trips (store (after_read m (Cancel, req) others sched db)) !! t = Some row' →
  store (then_write m (after_read m (Cancel, req) others sched db))
  = with_trip (store (after_read m (Cancel, req) others sched db)) t
      (apply_patch (cancel_patch (now req) "pasajero") row').
Proof.
  intros Hu Ht Hrow Hr Hp Hc He Hs Hrow'.
  set (c := after_read m (Cancel, req) others sched db) in *.
  assert (∃ k h out, pool c !! 0
          = Some (mkThread (Call (TripUpdate t None (cancel_patch (now req) "pasajero")) k) h out))
    as (k & h & out & Hth).
  { unfold c, after_read. rewrite run_sched_without by done.
    unfold run_sched, arrive, handlers. simpl. unfold sched_step. simpl.
    unfold spawn, cancelTrip. rewrite Hu, Ht. simpl. rewrite Hrow. simpl. unfold resume. simpl.
    rewrite Hr, (bool_decide_eq_true_2 _ Hp), (bool_decide_eq_false_2 _ Hc), !andb_false_r.
    apply elem_of_cons in He as [He|He]; [|apply list_elem_of_singleton in He]; rewrite He; simpl.
    all: eauto. }
  unfold then_write, run_sched, sched_step. simpl. rewrite Hth. simpl.
  by rewrite Hrow'.
Qed.

Lemma accept_sends m req db u t row :
  user req = Some u → includes "conductor" (roles u) = true → tripId req = Some t →
  drivers db !! userId u = Some disponible →
  trips_of_conductor (userId u) estados_activos_conductor db = [] →
  trips db !! t = Some row → estado row = buscando →
  guards (calls (serve m Accept req [] db)) = [Some buscando].
Proof.
  intros Hu Hr Ht Hd Hnone Hrow He. unfold guards, serve, handler, acceptTrip.
  rewrite Hu, Hr, Ht. simpl. rewrite Hd. simpl. rewrite Hnone. simpl. rewrite Hrow. simpl.
  rewrite (bool_decide_eq_true_2 _ He). simpl. rewrite Hrow. simpl.
  rewrite (bool_decide_eq_true_2 _ He). simpl. by rewrite Hd.
Qed.

Lemma finish_sends m req db u t row :
  user req = Some u → tripId req = Some t →
  trips db !! t = Some row → conductor_id row = Some (userId u) → estado row = en_progreso →
  guards (calls (serve m Finish req [] db)) = [Some en_progreso].
Proof.
  intros Hu Ht Hrow Hc He. unfold guards, serve, handler, finishTrip.
  rewrite Hu, Ht. simpl. rewrite Hrow. simpl.
  rewrite (bool_decide_eq_true_2 _ Hc), (bool_decide_eq_true_2 _ He). simpl. rewrite Hrow. simpl.
  rewrite (bool_decide_eq_true_2 _ He). simpl. by destruct (drivers db !! userId u).
Qed.

(** C10. startTrip and cancelTrip read the trip, test what they read, and
    write with [.eq("id", tripId)] alone.  Whatever the store and the faults,
    a trip update they send carries no guard on the state, where those of
    acceptTrip are guarded by "buscando" and those of finishTrip by
    "en_progreso"; an unguarded update rewrites the row in whatever state it
    finds it, a guarded one leaves a row in another state alone.  The write
    is sent, second, after the read of the same trip, when the row read
    passes the checks: startTrip writes if the row read is assigned to
    the caller and refrains otherwise; cancelTrip writes for the passenger
    of a trip searched or assigned and for the driver of a trip assigned or
    in progress, and refrains on a trip finished or cancelled; acceptTrip
    and finishTrip send their guarded write when their reads pass.  Nothing but the read enforces the state: when other
    requests run between the read and the write, the write of startTrip and
    of cancelTrip takes effect on the row as it then is, in any state. *)
Theorem unguarded_writes (m : SingleMode) (req : Req) (faults : list bool) (db : DB) :
  (∀ g, g ∈ guards (calls (serve m Start req faults db)) → g = None)
  ∧ (∀ g, g ∈ guards (calls (serve m Cancel req faults db)) → g = None)
  ∧ (∀ g, g ∈ guards (calls (serve m Accept req faults db)) → g = Some buscando)
  ∧ (∀ g, g ∈ guards (calls (serve m Finish req faults db)) → g = Some en_progreso)
  ∧ (∀ t p row, trips db !! t = Some row →
       exec m (TripUpdate t None p) db
       = (ok (apply_patch p row), with_trip db t (apply_patch p row)))
  ∧ (∀ t p e row, trips db !! t = Some row → estado row ≠ e →
       exec m (TripUpdate t (Some e) p) db = (no_row m, db))
  ∧ (∀ u t row, user req = Some u → tripId req = Some t → reaches_store faults →
       trips db !! t = Some row →
       (conductor_id row = Some (userId u) → estado row = asignado →
        stmts (serve m Start req faults db)
        = [St (TripById t); St (TripUpdate t None (start_patch (now req)))])
       ∧ (conductor_id row ≠ Some (userId u) ∨ estado row ≠ asignado →
          stmts (serve m Start req faults db) = [St (TripById t)]
          ∧ final (serve m Start req faults db) = db
          ∧ success (response (serve m Start req faults db)) = false))
  ∧ (∀ u t row, user req = Some u → tripId req = Some t → reaches_store faults →
       trips db !! t = Some row →
       (includes "pasajero" (roles u) = true ∧ pasajero_id row = userId u
        ∧ conductor_id row ≠ Some (userId u) ∧ estado row ∈ [buscando; asignado])
       ∨ (includes "conductor" (roles u) = true ∧ conductor_id row = Some (userId u)
          ∧ pasajero_id row ≠ userId u ∧ estado row ∈ [asignado; en_progreso]) →
       ∃ who, take 2 (stmts (serve m Cancel req faults db))
              = [St (TripById t); St (TripUpdate t None (cancel_patch (now req) who))]
              ∧ who = (if bool_decide (pasajero_id row = userId u)
                       then "pasajero" else "conductor"))
  ∧ (∀ u t row, user req = Some u → tripId req = Some t → reaches_store faults →
       trips db !! t = Some row → estado row ∈ [finalizado; cancelado] →
       stmts (serve m Cancel req faults db) = [St (TripById t)]
       ∧ final (serve m Cancel req faults db) = db
       ∧ success (response (serve m Cancel req faults db)) = false)
  ∧ (∀ u t row, user req = Some u → includes "conductor" (roles u) = true →
       tripId req = Some t → drivers db !! userId u = Some disponible →
       trips_of_conductor (userId u) estados_activos_conductor db = [] →
       trips db !! t = Some row → estado row = buscando →
       guards (calls (serve m Accept req [] db)) = [Some buscando])
  ∧ (∀ u t row, user req = Some u → tripId req = Some t →
       trips db !! t = Some row → conductor_id row = Some (userId u) →
       estado row = en_progreso →
       guards (calls (serve m Finish req [] db)) = [Some en_progreso])
  ∧ (∀ u t row row' others sched, user req = Some u → tripId req = Some t →
       trips db !! t = Some row → conductor_id row = Some (userId u) → estado row = asignado →
       without 0 sched →
       trips (store (after_read m (Start, req) others sched db)) !! t = Some row' →
       store (then_write m (after_read m (Start, req) others sched db))
       = with_trip (store (after_read m (Start, req) others sched db)) t
           (apply_patch (start_patch (now req)) row')
       ∧ answered (then_write m (after_read m (Start, req) others sched db)) 0
         = Some (mkResponse 200 true (Some "Viaje iniciado")
                   (OneTrip (apply_patch (start_patch (now req)) row'))))
  ∧ (∀ u t row row' others sched, user req = Some u → tripId req = Some t →
       trips db !! t = Some row →
       includes "pasajero" (roles u) = true → pasajero_id row = userId u →
       conductor_id row ≠ Some (userId u) → estado row ∈ [buscando; asignado] →
       without 0 sched →
       trips (store (after_read m (Cancel, req) others sched db)) !! t = Some row' →
       store (then_write m (after_read m (Cancel, req) others sched db))
       = with_trip (store (after_read m (Cancel, req) others sched db)) t
           (apply_patch (cancel_patch (now req) "pasajero") row')).
Proof.
  split; [eapply guards_stmts, follows_run, start_unguarded|].
  split; [eapply guards_stmts, follows_run, cancel_unguarded|].
  split; [eapply guards_stmts, follows_run, accept_guarded|].
  split; [eapply guards_stmts, follows_run, finish_guarded|].
  split; [intros t p row Hrow; simpl; by rewrite Hrow|].
  split.
  { intros t p e row Hrow He. simpl. rewrite Hrow. simpl. by rewrite bool_decide_eq_false_2. }
  split.
  { intros u t row Hu Ht Hf Hrow. split.
    - intros Hc He. by eapply start_sends.
    - intros Hno. by eapply start_refrains. }
  split; [intros u t row; apply cancel_sends|].
  split; [intros u t row; apply cancel_refrains|].
  split; [intros u t row; apply accept_sends|].
  split; [intros u t row; apply finish_sends|].
  split.
  - intros u t row row' others sched. apply start_write_late.
  - intros u t row row' others sched. apply cancel_write_late.
Qed.

(** Conductor 7 starts trip 0, assigned to him: the read, then the write.
    When passenger 1 cancels the trip between the two, the write puts the
    cancelled trip in progress and the request answers success. *)
Lemma unguarded_writes_witness :
  stmts (serve strict Start (about (as_conductor 7) 0) [] db_assigned)
  = [St (TripById 0); St (TripUpdate 0 None (start_patch 9))]
  ∧ estado <$> trips (store (after_read strict (Start, about (as_conductor 7) 0)
                               [(Cancel, about (as_pasajero 1) 0)] (turns 1 3) db_assigned)) !! 0
    = Some cancelado
  ∧ estado <$> trips (store (then_write strict
                        (after_read strict (Start, about (as_conductor 7) 0)
                           [(Cancel, about (as_pasajero 1) 0)] (turns 1 3) db_assigned))) !! 0
    = Some en_progreso
  ∧ status <$> answered (then_write strict
                  (after_read strict (Start, about (as_conductor 7) 0)
                     [(Cancel, about (as_pasajero 1) 0)] (turns 1 3) db_assigned)) 0
    = Some 200.
Proof.
  destruct (unguarded_writes strict (about (as_conductor 7) 0) [] db_assigned)
    as (_ & _ & _ & _ & _ & _ & Hsend & _ & _ & _ & _ & Hlate & _).
  destruct (Hsend (mkUser 7 ["conductor"]) 0 (trip_in asignado (Some 7))
              eq_refl eq_refl eq_refl eq_refl) as [Hwrite _].
  split; [exact (Hwrite eq_refl eq_refl)|].
  split; [vm_compute; reflexivity|].
  destruct (Hlate (mkUser 7 ["conductor"]) 0 (trip_in asignado (Some 7))
              (mkTrip 0 1 (Some 7) cancelado (Some 5) None None (Some 9) (Some "pasajero"))
              [(Cancel, about (as_pasajero 1) 0)] (turns 1 3)
              eq_refl eq_refl eq_refl eq_refl eq_refl) as [Hstore Hans].
  - repeat constructor; discriminate.
  - vm_compute; reflexivity.
  - rewrite Hstore, Hans. split; [|reflexivity].
    unfold with_trip. cbn [trips]. by rewrite lookup_insert_eq.
Defined.

(** A start overlapping a cancellation: the passenger's cancellation commits
    between the read and the write of startTrip, whose unguarded write then
    moves the cancelled trip into progress.  Both requests answer success,
    and the driver, released by the cancellation, is available while he
    holds a trip in progress. *)
Lemma start_overwrites_cancel :
  kind_of <$> answered (run_sched strict overlap_sched (arrive db_assigned (handlers overlap_reqs))) 0
    = Some Success
  ∧ kind_of <$> answered (run_sched strict overlap_sched (arrive db_assigned (handlers overlap_reqs))) 1
    = Some Success
  ∧ trips (store (run_sched strict overlap_sched (arrive db_assigned (handlers overlap_reqs)))) !! 0
    = Some (mkTrip 0 1 (Some 7) en_progreso (Some 5) (Some 9) None (Some 9) (Some "pasajero"))
  ∧ drivers (store (run_sched strict overlap_sched (arrive db_assigned (handlers overlap_reqs)))) !! 7
    = Some disponible.
Proof. repeat split; vm_compute; reflexivity. Qed.

(** ** Invariants of the store *)

Ltac invert_move Hmv :=
  inversion Hmv as
    [ | | mp Hfresh
    | mc mt mrow mat mw Hd Hidle Hrow He | mc mt mrow mat Hrow Hc He
    | mc mt mrow mat mw Hrow Hc He | mt mrow mat who mw Hrow Hlive Hw
    | mu Hu | mu me ]; subst; unfold with_drivers, with_trip; simpl.

Ltac break_trip_ok :=
  unfold trip_ok, driver_recorded, was_assigned, terminal in *; simpl in *;
  repeat match goal with
         | H : context [_ ∈ _ :: _] |- _ => rewrite elem_of_cons in H
         | H : context [_ ∈ []] |- _ => rewrite elem_of_nil in H
         | |- context [_ ∈ _ :: _] => rewrite elem_of_cons
         | |- context [_ ∈ []] => rewrite elem_of_nil
         | H : context [is_Some _] |- _ => rewrite is_Some_alt in H
         | |- context [is_Some _] => rewrite is_Some_alt
         end.

Lemma trip_ok_new i p : trip_ok (new_trip i p).
Proof. break_trip_ok. intuition congruence. Qed.

Lemma moves_keeps_trips_ok db l db' : moves db l db' → trips_ok db → trips_ok db'.
Proof.
  intros Hmv Hok t row. invert_move Hmv; simpl; try by apply Hok.
  all: match goal with
       | |- <[?i := _]> _ !! _ = _ → _ =>
           destruct (decide (t = i)) as [->|?];
           [ rewrite lookup_insert_eq; intros [= <-]
           | rewrite lookup_insert_ne by done; by apply Hok ]
       end.
  - apply trip_ok_new.
  - pose proof (Hok _ _ Hrow) as Hrow'. destruct mrow; simpl in *; subst.
    break_trip_ok. intuition congruence.
  - pose proof (Hok _ _ Hrow) as Hrow'. destruct mrow; simpl in *; subst.
    break_trip_ok. intuition congruence.
  - pose proof (Hok _ _ Hrow) as Hrow'. destruct mrow; simpl in *; subst.
    break_trip_ok. intuition congruence.
  - pose proof (Hok _ _ Hrow) as Hrow'. destruct mrow as [? ? ? e ? ? ? ? ?]; simpl in *.
    break_trip_ok. destruct e; intuition congruence.
Qed.

(** ** Who holds which trip *)
Lemma holds_insert db t row ds n c i :
  holds (mkDB (<[t := row]> (trips db)) ds n) c i ↔
  (i = t ∧ conductor_id row = Some c ∧ estado row ∈ estados_activos_conductor)
  ∨ (i ≠ t ∧ holds db c i).
Proof.
  unfold holds. simpl. destruct (decide (i = t)) as [->|Hne].
  - rewrite lookup_insert_eq. split.
    + intros (row' & [= <-] & ? & ?). by left.
    + intros [(_ & ? & ?)|[? _]]; [|done]. by exists row.
  - rewrite lookup_insert_ne by done. split; [by right|]. intros [[? _]|[_ ?]]; done.
Qed.

Lemma idle_no_holds db c i :
  trips_of_conductor c estados_activos_conductor db = [] → ¬ holds db c i.
Proof. intros Hidle Hh. assert (∃ i, holds db c i) as Hx%conductor_busy_iff by eauto. done. Qed.

Lemma holds_row db c i row :
  trips db !! i = Some row →
  holds db c i ↔ conductor_id row = Some c ∧ estado row ∈ estados_activos_conductor.
Proof.
  intros Hrow. unfold holds. split.
  - intros (row' & ? & ? & ?). by simplify_eq.
  - intros [? ?]. by exists row.
Qed.

Ltac active_cases :=
  unfold estados_activos_conductor in *; simpl in *;
  repeat match goal with
         | H : context [_ ∈ _ :: _] |- _ => rewrite elem_of_cons in H
         | H : context [_ ∈ []] |- _ => rewrite elem_of_nil in H
         | |- context [_ ∈ _ :: _] => rewrite elem_of_cons
         | |- context [_ ∈ []] => rewrite elem_of_nil
         end.

(** A move lets a driver hold a trip he did not hold only by accepting it,
    and then he held none and nobody held that one. *)
Lemma moves_holds db l db' c i :
  moves db l db' → holds db' c i →
  holds db c i ∨ (∃ w, l = LAccept w ∧ ¬ (∃ j, holds db c j) ∧ ¬ (∃ c', holds db c' i)
                       ∧ ∀ j, holds db' c j → j = i).
Proof.
  intros Hmv. invert_move Hmv; try by left.
  - intros [(-> & ? & Ha)|[_ ?]]%holds_insert; [|by left].
    active_cases. intuition congruence.
  - intros [(-> & [= <-] & _)|[_ ?]]%holds_insert; [|by left].
    right. exists mw. split; [done|]. split; [|split].
    + intros [j Hj]. by eapply idle_no_holds.
    + intros [c' Hc']. apply (holds_row _ _ _ _ Hrow) in Hc' as [_ Hc']. active_cases.
      intuition congruence.
    + intros j [(-> & _)|[_ Hj]]%holds_insert; [done|].
      exfalso. by eapply idle_no_holds.
  - intros [(-> & Hc' & _)|[_ ?]]%holds_insert; [|by left]. left.
    apply (holds_row _ _ _ _ Hrow). active_cases. intuition congruence.
  - intros [(-> & _ & Ha)|[_ ?]]%holds_insert; [|by left].
    active_cases. intuition congruence.
  - intros [(-> & _ & Ha)|[_ ?]]%holds_insert; [|by left].
    active_cases. intuition congruence.
Qed.

Lemma moves_keeps_single_holder db l db' :
  moves db l db' → single_holder db → single_holder db'.
Proof.
  intros Hmv Hone c i j Hi Hj.
  destruct (moves_holds _ _ _ _ _ Hmv Hi) as [Hi'|(w & -> & Hfree & _ & Honly)].
  - destruct (moves_holds _ _ _ _ _ Hmv Hj) as [Hj'|(w' & _ & Hfree' & _)].
    + by eapply Hone.
    + exfalso. apply Hfree'. eauto.
  - symmetry. by apply Honly.
Qed.

(** ** Busy drivers *)
Lemma busy_untouched db t row' ds n :
  busy_ok db → ds = drivers db → (∀ c, ¬ holds db c t) →
  estado row' ∉ estados_activos_conductor →
  busy_ok (mkDB (<[t := row']> (trips db)) ds n).
Proof.
  intros Hbusy -> Hfree Hrow' c. unfold busy_ok in Hbusy. rewrite Hbusy. simpl. split.
  - intros [i Hi]. exists i. apply holds_insert. right. split; [|done].
    intros ->. by eapply Hfree.
  - intros [i [(_ & _ & ?)|[_ ?]]%holds_insert]; [done|eauto].
Qed.

Lemma busy_same_holder db t row row' ds n :
  busy_ok db → ds = drivers db → trips db !! t = Some row →
  conductor_id row' = conductor_id row →
  (estado row ∈ estados_activos_conductor ↔ estado row' ∈ estados_activos_conductor) →
  busy_ok (mkDB (<[t := row']> (trips db)) ds n).
Proof.
  intros Hbusy -> Hrow Hc He c. unfold busy_ok in Hbusy. rewrite Hbusy. simpl. split.
  - intros [i Hi]. exists i. apply holds_insert. destruct (decide (i = t)) as [->|?].
    + left. apply (holds_row _ _ _ _ Hrow) in Hi as [? ?]. rewrite Hc, <- He. done.
    + by right.
  - intros [i [(-> & ? & ?)|[_ ?]]%holds_insert]; [|eauto].
    exists t. apply (holds_row _ _ _ _ Hrow). rewrite <- Hc, He. done.
Qed.

Lemma busy_release db t row row' c0 n :
  busy_ok db → single_holder db → trips db !! t = Some row → holds db c0 t →
  estado row' ∉ estados_activos_conductor →
  busy_ok (mkDB (<[t := row']> (trips db)) (set_driver c0 disponible (drivers db)) n).
Proof.
  intros Hbusy Hone Hrow Hheld Hrow' c. simpl.
  assert (drivers db !! c0 = Some ocupado) as Hc0 by (apply Hbusy; eauto).
  unfold set_driver. rewrite Hc0. destruct (decide (c = c0)) as [->|Hne].
  - rewrite lookup_insert_eq. split; [done|].
    intros [i [(_ & _ & ?)|[Hi ?]]%holds_insert]; [done|]. exfalso. apply Hi. by eapply Hone.
  - rewrite lookup_insert_ne by done. unfold busy_ok in Hbusy. rewrite Hbusy. split.
    + intros [i Hi]. exists i. apply holds_insert. right. split; [|done]. intros ->.
      apply (holds_row _ _ _ _ Hrow) in Hi as [? _], Hheld as [? _]. congruence.
    + intros [i [(_ & _ & ?)|[_ ?]]%holds_insert]; [done|eauto].
Qed.

Lemma busy_accept db t row row' c0 n :
  busy_ok db → trips db !! t = Some row → estado row = buscando →
  conductor_id row' = Some c0 → estado row' = asignado →
  busy_ok (mkDB (<[t := row']> (trips db)) (<[c0 := ocupado]> (drivers db)) n).
Proof.
  intros Hbusy Hrow He Hc' He' c. simpl. destruct (decide (c = c0)) as [->|Hne].
  - rewrite lookup_insert_eq. split; [|done]. intros _. exists t. apply holds_insert. left.
    rewrite He'. repeat split; [done|]. active_cases. auto.
  - rewrite lookup_insert_ne by done. unfold busy_ok in Hbusy. rewrite Hbusy. split.
    + intros [i Hi]. exists i. apply holds_insert. right. split; [|done]. intros ->.
      apply (holds_row _ _ _ _ Hrow) in Hi as [_ Hi]. rewrite He in Hi. active_cases.
      intuition congruence.
    + intros [i [(_ & ? & _)|[_ ?]]%holds_insert]; [congruence|eauto].
Qed.

Lemma busy_register db u :
  busy_ok db → drivers db !! u = None →
  busy_ok (mkDB (trips db) (<[u := disponible]> (drivers db)) (next_id db)).
Proof.
  intros Hbusy Hu c. simpl. destruct (decide (c = u)) as [->|Hne].
  - rewrite lookup_insert_eq. split; [done|]. intros Hh. apply Hbusy in Hh. congruence.
  - rewrite lookup_insert_ne by done. apply Hbusy.
Qed.

Lemma clean_moves_keep_busy db l db' :
  moves db l db' → clean l → trips_ok db → single_holder db → busy_ok db → busy_ok db'.
Proof.
  intros Hmv Hcl Hok Hone Hbusy. invert_move Hmv; simpl in Hcl; subst; try done.
  - apply busy_untouched; try done.
    + intros c (row & ? & _). congruence.
    + active_cases. intuition congruence.
  - by eapply busy_accept.
  - eapply busy_same_holder; try done. simpl. rewrite He. active_cases. intuition.
  - eapply busy_release; try done.
    + apply (holds_row _ _ _ _ Hrow). rewrite He. active_cases. auto.
    + active_cases. intuition congruence.
  - pose proof (Hok _ _ Hrow) as Hrow'. destruct (conductor_id mrow) as [c|] eqn:Hc.
    + eapply busy_release; try done.
      * apply (holds_row _ _ _ _ Hrow). split; [done|]. break_trip_ok.
        rewrite Hc in Hrow'. destruct (estado mrow); active_cases; intuition congruence.
      * active_cases. intuition congruence.
    + apply busy_untouched; try done.
      * intros c Hh. apply (holds_row _ _ _ _ Hrow) in Hh as [? _]. congruence.
      * active_cases. intuition congruence.
  - by apply busy_register.
Qed.

Lemma serve_keeps_trips_ok m o req faults db :
  trips_ok db → trips_ok (final (serve m o req faults db)).
Proof.
  destruct (serve_moves m o req faults db) as (l & Hmv & _). by eapply moves_keeps_trips_ok.
Qed.

Lemma reachable_trips_ok m db : reachable m db → trips_ok db.
Proof.
  induction 1 as [|db o req faults _ IH]; [|by apply serve_keeps_trips_ok].
  intros t row Hrow. simpl in Hrow. by rewrite lookup_empty in Hrow.
Qed.

Lemma trip_ok_searching row : trip_ok row → estado row = buscando → conductor_id row = None.
Proof.
  intros Hok He. destruct (conductor_id row) eqn:Hc; [|done]. exfalso.
  break_trip_ok. rewrite Hc, He in Hok. intuition congruence.
Qed.

Lemma db_accepted_reachable : reachable_clean strict db_accepted.
Proof. unfold db_accepted. repeat (constructor; [|done]). constructor. Qed.

Lemma reachable_clean_reachable m db : reachable_clean m db → reachable m db.
Proof. induction 1; by constructor. Qed.

Lemma serve_keeps_single_holder m o req faults db :
  single_holder db → single_holder (final (serve m o req faults db)).
Proof.
  destruct (serve_moves m o req faults db) as (l & Hmv & _).
  by eapply moves_keeps_single_holder.
Qed.

Lemma reachable_single_holder m db : reachable m db → single_holder db.
Proof.
  induction 1 as [|db o req faults _ IH]; [|by apply serve_keeps_single_holder].
  intros c i j (row & Hrow & _). simpl in Hrow. by rewrite lookup_empty in Hrow.
Qed.

Lemma reachable_clean_busy m db : reachable_clean m db → busy_ok db.
Proof.
  induction 1 as [|db o req Hdb IH Ho].
  - intros c. simpl. rewrite lookup_empty. split; [done|].
    intros [i (row & Hrow & _)]. simpl in Hrow. by rewrite lookup_empty in Hrow.
  - destruct (serve_moves m o req [] db) as (l & Hmv & Hcl).
    eapply clean_moves_keep_busy; eauto.
    + by eapply reachable_trips_ok, reachable_clean_reachable.
    + by eapply reachable_single_holder, reachable_clean_reachable.
Qed.

(** C3, as the code has it.  In every store reached by serving requests one
    at a time, no driver holds two trips that are assigned or in progress.
    As long as no store call fails and no driver sets his own status, the
    busy drivers are exactly those who hold one such trip. *)
Theorem one_trip_per_driver (m : SingleMode) :
  (∀ db c i j, reachable m db → holds db c i → holds db c j → i = j)
  ∧ (∀ db c, reachable_clean m db → drivers db !! c = Some ocupado ↔ holds_one db c).
Proof.
  split.
  - intros db c i j Hdb%reachable_single_holder. apply Hdb.
  - intros db c Hdb. rewrite (reachable_clean_busy m db Hdb c). unfold holds_one. split.
    + intros [i Hi]. exists i. split; [done|]. intros j Hj.
      eapply (reachable_single_holder m db);
        [by apply reachable_clean_reachable|exact Hj|exact Hi].
    + intros (i & Hi & _). eauto.
Qed.

Lemma one_trip_per_driver_witness :
  drivers db_accepted !! 7 = Some ocupado ↔ holds_one db_accepted 7.
Proof.
  destruct (one_trip_per_driver strict) as [_ H].
  apply H, db_accepted_reachable.
Defined.

(** updateStatus writes whatever status the driver asks for: a conductor who
    holds no trip becomes busy, and a driver who holds an assigned trip
    becomes available. *)
Lemma status_breaks_busy :
  reachable strict db_self_busy
  ∧ drivers db_self_busy !! 7 = Some ocupado
  ∧ (¬ ∃ i, holds db_self_busy 7 i)
  ∧ reachable strict db_self_free
  ∧ drivers db_self_free !! 7 = Some disponible
  ∧ holds db_self_free 7 0.
Proof.
  split; [repeat constructor|]. split; [reflexivity|]. split.
  { intros Hh%conductor_busy_iff. by apply Hh. }
  split; [constructor; apply reachable_clean_reachable, db_accepted_reachable|].
  split; [reflexivity|].
  eexists. split; [reflexivity|]. split; [reflexivity|]. simpl. active_cases. auto.
Qed.

(** ** Trip ids *)

Lemma moves_keeps_ids_below db l db' : moves db l db' → ids_below db → ids_below db'.
Proof.
  intros Hmv Hlt i. invert_move Hmv; try by apply Hlt.
  - intros Hi%Hlt. lia.
  - destruct (decide (i = next_id db)) as [->|?]; [lia|].
    rewrite lookup_insert_ne by done. intros Hi%Hlt. lia.
  - destruct (decide (i = mt)) as [->|?]; [|rewrite lookup_insert_ne by done; apply Hlt].
    intros _. apply Hlt. eauto.
  - destruct (decide (i = mt)) as [->|?]; [|rewrite lookup_insert_ne by done; apply Hlt].
    intros _. apply Hlt. eauto.
  - destruct (decide (i = mt)) as [->|?]; [|rewrite lookup_insert_ne by done; apply Hlt].
    intros _. apply Hlt. eauto.
  - destruct (decide (i = mt)) as [->|?]; [|rewrite lookup_insert_ne by done; apply Hlt].
    intros _. apply Hlt. eauto.
Qed.

(** The id handed to the next inserted trip is unused in every reachable store. *)
Lemma reachable_fresh m db : reachable m db → trips db !! next_id db = None.
Proof.
  intros Hdb. assert (ids_below db) as Hlt.
  { induction Hdb as [|db o req faults _ IH].
    - intros i [row Hrow]. simpl in Hrow. by rewrite lookup_empty in Hrow.
    - destruct (serve_moves m o req faults db) as (l & Hmv & _).
      by eapply moves_keeps_ids_below. }
  destruct (trips db !! next_id db) eqn:Hn; [|done].
  assert (next_id db < next_id db) by (apply Hlt; eauto). lia.
Qed.

(** Two acceptances by the same driver overlapping: each passes the check
    that he holds no trip before the other has written, and he ends up
    holding both trips. *)
Lemma double_accept_overlap :
  kind_of <$> answered (run_sched strict greedy_sched (arrive db_two_trips (handlers greedy_reqs))) 0
    = Some Success
  ∧ kind_of <$> answered (run_sched strict greedy_sched (arrive db_two_trips (handlers greedy_reqs))) 1
    = Some Success
  ∧ holds (store (run_sched strict greedy_sched (arrive db_two_trips (handlers greedy_reqs)))) 7 0
  ∧ holds (store (run_sched strict greedy_sched (arrive db_two_trips (handlers greedy_reqs)))) 7 1.
Proof.
  split; [vm_compute; reflexivity|]. split; [vm_compute; reflexivity|].
  split; (eexists; split; [vm_compute; reflexivity|]; split; [reflexivity|];
          active_cases; auto).
Qed.

(** ** The driver record under concurrency *)

Ltac find_known :=
  repeat first
    [ apply Exists_cons_hd; eexists; split; [split; reflexivity|]; unfold driver_recorded;
      by eauto
    | apply Exists_cons_tl ].

Ltac not_member :=
  let H := fresh in
  intros H; repeat (apply elem_of_cons in H as [H|H]; [done|]); by apply elem_of_nil in H.

Ltac sound_leaf :=
  first [ done | by intros [? ?] | split; by eauto | split; by intros [? ?] | not_member
        | by left | intros _; right; find_known ].

Lemma handler_sound o req : follows sound_write (λ _ _, True) [] (handler o req).
Proof.
  destruct o; simpl.
  - unfold requestTrip. destruct (user req); [|done]. follow_all.
  - unfold acceptTrip. destruct (user req); [|done]. destruct (tripId req); follow_all.
    all: sound_leaf.
  - unfold startTrip. destruct (user req); [|done]. destruct (tripId req); follow_all.
    all: sound_leaf.
  - unfold finishTrip. destruct (user req); [|done]. destruct (tripId req); follow_all.
    all: sound_leaf.
  - unfold cancelTrip. destruct (user req); [|done]. destruct (tripId req); follow_all.
    all: sound_leaf.
  - unfold registerDriver. destruct (user req); [|done]. follow_all.
  - unfold updateStatus. destruct (user req); [|done]. destruct (body_estado req); follow_all.
Qed.

Lemma trips_ok_insert db t row ds n :
  trips_ok db → trip_ok row → trips_ok (mkDB (<[t := row]> (trips db)) ds n).
Proof.
  intros Hok Hrow t' row'. simpl. destruct (decide (t' = t)) as [->|?].
  - rewrite lookup_insert_eq. by intros [= <-].
  - rewrite lookup_insert_ne by done. apply Hok.
Qed.

Lemma has_driver_insert db t row row' ds n t' :
  trips db !! t = Some row → (driver_recorded row → driver_recorded row') →
  has_driver db t' → has_driver (mkDB (<[t := row']> (trips db)) ds n) t'.
Proof.
  intros Hrow Hkeep (r & Hr & Hd). unfold has_driver. simpl.
  destruct (decide (t' = t)) as [->|?].
  - rewrite lookup_insert_eq. simplify_eq. eauto.
  - rewrite lookup_insert_ne by done. eauto.
Qed.

Lemma patch_ok h t g p db row :
  sound_write h (St (TripUpdate t g p)) →
  trips db !! t = Some row → trip_ok row → guard_holds g row = true →
  (Exists (knows_driver t) h → has_driver db t) →
  trip_ok (apply_patch p row) ∧ (driver_recorded row → driver_recorded (apply_patch p row)).
Proof.
  intros (Hne & Hboth & Hguard & Hasg & Hrun) Hrow Hok Hg Hknown.
  assert (p_estado p ∈ [en_progreso; finalizado] → driver_recorded row) as Hrec.
  { intros [->|Hk]%Hrun.
    - simpl in Hg. apply bool_decide_eq_true in Hg. destruct Hok as [Hst _]. apply Hst.
      left. rewrite Hg, !elem_of_cons. auto.
    - destruct (Hknown Hk) as (r & ? & ?). by simplify_eq. }
  assert (is_Some (p_conductor_id p) → ¬ driver_recorded row) as Hfree.
  { intros ->%Hguard. simpl in Hg. apply bool_decide_eq_true in Hg.
    intros Hd. apply (proj1 Hok) in Hd. rewrite Hg in Hd. rewrite !elem_of_cons, elem_of_nil in Hd.
    intuition congruence. }
  clear Hrun Hguard Hknown Hg Hrow.
  unfold trip_ok, driver_recorded, was_assigned in *.
  destruct p as [pc pe pa ? ? ? ?]; simpl in *.
  destruct pc as [c|]; simpl.
  - destruct Hboth as [[a ->] _]; [by eauto|]. simpl. split; [|by eauto].
    split; [|split; eauto]. split; [intros _|by eauto].
    rewrite !elem_of_cons. destruct pe; [done|eauto 10..].
  - assert (pa = None) as ->.
    { destruct pa; [|done]. destruct Hboth as [_ [? ?]]; [by eauto|done]. }
    simpl. split; [|done]. destruct Hok as [Hst Hboth']. split; [|done].
    rewrite !elem_of_cons, elem_of_nil in *. rewrite Hboth' in *.
    destruct pe; try done.
    + destruct Hasg as [? ?]; done.
    + intuition.
    + intuition.
    + intuition congruence.
Qed.

Ltac nothing_learned :=
  intros;
  match goal with
  | H : knows_driver _ _ |- _ => by destruct H as [? [[] ?]]
  end.

Ltac store_unchanged := split; [done|split; [done|nothing_learned]].

Section Pool.
Context (m : SingleMode).

Lemma exec_sound {A} (q : Query A) h db :
  trips_ok db → sound_write h (St q) →
  (∀ t, Exists (knows_driver t) h → has_driver db t) →
  trips_ok (exec m q db).2
  ∧ (∀ t, has_driver db t → has_driver (exec m q db).2 t)
  ∧ (∀ t, knows_driver t (Ev q (exec m q db).1) → has_driver (exec m q db).2 t).
Proof.
  intros Hok Hq Hknown.
  destruct q as [p es|c es|t'|p|t' g patch|u'|u'|e|u' e|u' e|u' e]; simpl in *.
  - store_unchanged.
  - store_unchanged.
  - destruct (trips db !! t') as [row|] eqn:Hrow; simpl; (split; [done|split; [done|]]).
    + intros t (r & [-> [= <-]] & Hr). by exists row.
    + intros t (r & [-> Hr] & _). by destruct m.
  - destruct (trips db !! next_id db) eqn:Hn; simpl.
    + store_unchanged.
    + split; [apply trips_ok_insert; [done|apply trip_ok_new]|]. split.
      * intros t (r & Hr & Hd). exists r. split; [|done]. simpl.
        rewrite lookup_insert_ne; [done|]. intros <-. congruence.
      * nothing_learned.
  - destruct (trips db !! t') as [row|] eqn:Hrow; simpl;
      [|destruct m; store_unchanged].
    destruct (guard_holds g row) eqn:Hg; simpl;
      [|destruct m; store_unchanged].
    destruct (patch_ok h t' g patch db row Hq Hrow (Hok _ _ Hrow) Hg (Hknown t')) as [Hnew Hkeep].
    split; [by apply trips_ok_insert|]. split.
    + intros t. by apply has_driver_insert with (row := row).
    + nothing_learned.
  - destruct (drivers db !! u'); [|destruct m]; store_unchanged.
  - destruct (drivers db !! u'); store_unchanged.
  - store_unchanged.
  - destruct (drivers db !! u'); store_unchanged.
  - destruct (drivers db !! u'); store_unchanged.
  - destruct (drivers db !! u'); store_unchanged.
Qed.

Lemma fault_teaches_nothing {A} (q : Query A) t : ¬ knows_driver t (Ev q (fault q)).
Proof. intros (row & Hsaw & _). destruct q; simpl in *; try done. by destruct Hsaw. Qed.

Lemma pool_inv_arrive db reqs : trips_ok db → pool_inv (arrive db (handlers reqs)).
Proof.
  intros Hok.
  assert (∀ i th, pool (arrive db (handlers reqs)) !! i = Some th →
            hist th = [] ∧ ∃ o req, th = spawn (handler o req)) as Hth.
  { intros i th. unfold arrive, handlers. simpl. rewrite !list_lookup_fmap.
    destruct (reqs !! i) as [[o req]|]; simpl; [|done]. intros [= <-].
    split; [apply settle_hist|eauto]. }
  split; [done|..].
  - intros i th (Hh & o & req & ->)%Hth. unfold spawn in *. rewrite Hh.
    apply settle_follows, handler_sound.
  - intros i th t [Hh _]%Hth Hk. rewrite Hh in Hk. by apply Exists_nil in Hk.
Qed.

Lemma pool_inv_call c i th A (q : Query A) k r db' :
  pool_inv c →
  pool c !! i = Some th → prog th = Call q k →
  (r = (exec m q (store c)).1 ∧ db' = (exec m q (store c)).2)
  ∨ (r = fault q ∧ db' = store c) →
  pool_inv (mkConfig db' (<[i := resume th q k r]> (pool c))).
Proof.
  intros [Hok Hfol Hkn] Hi Hp Hr.
  pose proof (Hfol i th Hi) as Hth. rewrite Hp in Hth. destruct Hth as [Hq Hk].
  assert (trips_ok db' ∧ (∀ t, has_driver (store c) t → has_driver db' t)
          ∧ (∀ t, knows_driver t (Ev q r) → has_driver db' t)) as (Hok' & Hkeep & Hnew).
  { destruct Hr as [[-> ->]|[-> ->]].
    - eapply exec_sound; eauto.
    - split; [done|]. split; [done|]. intros t Ht. by apply fault_teaches_nothing in Ht. }
  split; simpl; [done|..].
  - intros j thj [(-> & <- & _)|[Hne Hj]]%list_lookup_insert_Some; [|by eapply Hfol].
    unfold resume. rewrite settle_hist. apply settle_follows, Hk.
  - intros j thj t [(-> & <- & _)|[Hne Hj]]%list_lookup_insert_Some Hknown.
    + unfold resume in Hknown. rewrite settle_hist, Exists_app in Hknown.
      destruct Hknown as [Hold|Hlast]; [by eapply Hkeep, Hkn|].
      apply Exists_cons in Hlast as [?|Hlast]; [by apply Hnew|by apply Exists_nil in Hlast].
    + by eapply Hkeep, Hkn.
Qed.

Lemma pool_inv_reach db reqs c :
  trips_ok db → rtc (step m) (arrive db (handlers reqs)) c → pool_inv c.
Proof.
  intros Hok. apply (rtc_ind_r (R := step m) pool_inv).
  - by apply pool_inv_arrive.
  - intros c1 c2 _ Hstep Hinv. inversion Hstep; subst; eapply pool_inv_call; eauto.
Qed.
End Pool.

(** C2. On every trip row of every store reached by serving requests, no
    driver is recorded while the trip is being searched, and a driver is
    recorded exactly when the trip is assigned, in progress, finished, or
    cancelled after it had been assigned.  Every request, of any kind and
    whatever store calls fail, preserves this, served on its own or
    interleaved with any other requests. *)
Theorem driver_recorded_when_assigned (m : SingleMode) :
  (∀ db t row, reachable m db → trips db !! t = Some row →
     (estado row = buscando → conductor_id row = None)
     ∧ (driver_recorded row ↔
          estado row ∈ [asignado; en_progreso; finalizado]
          ∨ (estado row = cancelado ∧ was_assigned row)))
  ∧ (∀ db o req faults, trips_ok db → trips_ok (final (serve m o req faults db)))
  ∧ (∀ db reqs c, trips_ok db → rtc (step m) (arrive db (handlers reqs)) c →
       trips_ok (store c)).
Proof.
  split; [|split].
  - intros db t row Hdb Hrow. pose proof (reachable_trips_ok m db Hdb t row Hrow) as Hok.
    split; [by apply trip_ok_searching|apply Hok].
  - intros. by apply serve_keeps_trips_ok.
  - intros db reqs c Hok Hc. by destruct (pool_inv_reach m db reqs c Hok Hc).
Qed.

Lemma driver_recorded_when_assigned_witness :
  trips db_accepted !! 0 = Some (mkTrip 0 1 (Some 7) asignado (Some 9) None None None None)
  ∧ (driver_recorded (mkTrip 0 1 (Some 7) asignado (Some 9) None None None None) ↔
       asignado ∈ [asignado; en_progreso; finalizado]
       ∨ (asignado = cancelado
          ∧ was_assigned (mkTrip 0 1 (Some 7) asignado (Some 9) None None None None))).
Proof.
  destruct (driver_recorded_when_assigned strict) as [H _].
  destruct (H db_accepted 0 (mkTrip 0 1 (Some 7) asignado (Some 9) None None None None)
              (reachable_clean_reachable _ _ db_accepted_reachable)) as [_ Hiff];
    [reflexivity|].
  split; [reflexivity|exact Hiff].
Defined.

(** * The driver registry *)

Lemma parse_driver_estado_str s e :
  parse_driver_estado s = Some e ↔ s = driver_estado_str e.
Proof.
  unfold parse_driver_estado. split.
  - repeat case_decide; intros [= <-]; done.
  - intros ->. by destruct e.
Qed.

Lemma parse_driver_estado_permitted s :
  is_Some (parse_driver_estado s) ↔ s ∈ ESTADOS_PERMITIDOS.
Proof.
  unfold ESTADOS_PERMITIDOS. rewrite !elem_of_cons, elem_of_nil. split.
  - intros [e ->%parse_driver_estado_str]. destruct e; simpl; auto.
  - intros [->|[->|[->|[]]]]; by eexists.
Qed.

(** X1. updateStatus is an upsert.  When no store call fails, an identified
    caller who sends one of the three status names ends up with exactly that
    status in [drivers], whether he had a row or not; no other row and no
    trip changes.  With a row the handler sends the update alone, without
    one the update and then an insert. *)
Theorem status_upserts (m : SingleMode) (db : DB) (req : Req) (u : User) (s : string)
    (e : DriverEstado) :
  user req = Some u →
  body_estado req = Some s →
  s = driver_estado_str e →
  let o := serve m Status req [] db in
  kind_of (response o) = Success
  ∧ drivers (final o) = <[userId u := e]> (drivers db)
  ∧ trips (final o) = trips db
  ∧ (is_Some (drivers db !! userId u) →
       payload (response o) = ManyDrivers [mkDriver (userId u) e]
       ∧ stmts o = [St (DriverUpdateSelect (userId u) e)])
  ∧ (drivers db !! userId u = None →
       payload (response o) = OneDriver (Some (mkDriver (userId u) e))
       ∧ stmts o = [St (DriverUpdateSelect (userId u) e); St (DriverInsert (userId u) e)]).
Proof.
  intros Hu Hs ->. unfold stmts. serve_unfold. rewrite Hu, Hs.
  destruct e; simpl; destruct (drivers db !! userId u) eqn:Hd; simpl; rewrite ?Hd; simpl;
    repeat split; try done; try by intros [? ?].
Qed.

Lemma status_upserts_witness :
  drivers (final (serve strict Status (set_estado (as_conductor 7) "ocupado") [] db_registered))
  = <[7 := ocupado]> (drivers db_registered).
Proof.
  destruct (status_upserts strict db_registered (set_estado (as_conductor 7) "ocupado")
              (mkUser 7 ["conductor"]) "ocupado" ocupado eq_refl eq_refl eq_refl)
    as (_ & H & _).
  exact H.
Defined.

(** X2. updateStatus validates before it touches the store.  Without an
    identified caller it answers 401, and with a status that is missing or
    not one of the three names it answers 400; in both cases, whatever the
    store would do, no statement is sent and the store is left as it was.
    Whenever it does send a statement, the body carried one of the three
    names. *)
Theorem status_validates (m : SingleMode) (db : DB) (req : Req) (faults : list bool) :
  let o := serve m Status req faults db in
  (user req = None → kind_of (response o) = Unauthorized ∧ calls o = [] ∧ final o = db)
  ∧ (is_Some (user req) →
     (∀ s, body_estado req = Some s → s ∉ ESTADOS_PERMITIDOS) →
     kind_of (response o) = InvalidState ∧ calls o = [] ∧ final o = db)
  ∧ (calls o ≠ [] → ∃ s, body_estado req = Some s ∧ s ∈ ESTADOS_PERMITIDOS).
Proof.
  simpl. serve_unfold. split; [|split].
  - intros ->. done.
  - intros [u ->] Hbad. destruct (body_estado req) as [s|]; [|done].
    destruct (parse_driver_estado s) eqn:Hp.
    { exfalso. apply (Hbad s eq_refl), parse_driver_estado_permitted. by rewrite Hp. }
    destruct s; done.
  - destruct (user req); [|done]. destruct (body_estado req) as [s|]; [|done].
    destruct (parse_driver_estado s) eqn:Hp.
    + intros _. exists s. split; [done|]. apply parse_driver_estado_permitted. by rewrite Hp.
    + destruct s; done.
Qed.

Lemma status_validates_witness :
  kind_of (response (serve strict Status (set_estado (as_conductor 7) "libre") [] db_registered))
  = InvalidState
  ∧ final (serve strict Status (set_estado (as_conductor 7) "libre") [] db_registered)
    = db_registered.
Proof.
  destruct (status_validates strict db_registered (set_estado (as_conductor 7) "libre") [])
    as (_ & H & _).
  destruct H as (H1 & _ & H2).
  - by eexists.
  - intros s [= <-]. vm_compute. intros Hin.
    repeat (apply elem_of_cons in Hin as [Hin|Hin]; [discriminate Hin|]).
    by apply elem_of_nil in Hin.
  - split; [exact H1|exact H2].
Defined.

(** X3. registerDriver never rewrites a row.  Whatever the store calls do,
    every driver row is afterwards what it was and the trips are untouched.
    A caller who has a row is answered Conflict and his status is not reset;
    a caller who has none gets, when no store call fails, a row with status
    disponible and the answer 201. *)
Theorem register_outcomes (m : SingleMode) (db : DB) (req : Req) (u : User) (faults : list bool) :
  user req = Some u →
  let o := serve m Register req faults db in
  (∀ u' e, drivers db !! u' = Some e → drivers (final o) !! u' = Some e)
  ∧ trips (final o) = trips db
  ∧ (reaches_store faults → is_Some (drivers db !! userId u) →
       kind_of (response o) = Conflict ∧ final o = db)
  ∧ (faults = [] → drivers db !! userId u = None →
       status (response o) = 201
       ∧ payload (response o) = OneDriver (Some (mkDriver (userId u) disponible))
       ∧ drivers (final o) = <[userId u := disponible]> (drivers db)).
Proof.
  intros Hu. simpl. serve_unfold. rewrite Hu. unfold reaches_store.
  split; [|split; [|split]].
  - intros u' e Hd. run_all db.
    all: destruct (decide (u' = userId u)) as [->|?]; [congruence|].
    all: simpl; by rewrite lookup_insert_ne.
  - run_all db.
  - intros Hf [e He]. split; run_all db.
  - intros -> Hd. split; [|split]; run_all db.
Qed.

Lemma register_outcomes_witness :
  status (response (serve strict Register (bare (as_conductor 8)) [] db_registered)) = 201
  ∧ drivers (final (serve strict Register (bare (as_conductor 8)) [] db_registered))
    = <[8 := disponible]> (drivers db_registered).
Proof.
  destruct (register_outcomes strict db_registered (bare (as_conductor 8))
              (mkUser 8 ["conductor"]) [] eq_refl) as (_ & _ & _ & H).
  destruct H as (H1 & _ & H2); [reflexivity|reflexivity|].
  split; [exact H1|exact H2].
Defined.

(** X4. updateStatus reads neither the caller's roles nor an earlier
    registration.  Any identified caller who posts the status disponible is
    from then on an available driver: a passenger without an active trip who
    requests a trip next is served, where without that row he may have been
    told that no driver is available. *)
Theorem self_declared_driver (m : SingleMode) (db : DB) (who rider : Req) (u p : User) :
  user who = Some u →
  body_estado who = Some "disponible" →
  user rider = Some p →
  ¬ owns_active db (userId p) →
  trips db !! next_id db = None →
  let db' := final (serve m Status who [] db) in
  drivers db' !! userId u = Some disponible
  ∧ status (response (serve m Request rider [] db')) = 201.
Proof.
  intros Hu Hs Hp Hfree Hfresh. simpl.
  assert (Hdb : final (serve m Status who [] db)
                = mkDB (trips db) (<[userId u := disponible]> (drivers db)) (next_id db)).
  { serve_unfold. rewrite Hu, Hs. simpl. destruct db as [ts ds n]; simpl.
    destruct (ds !! userId u) eqn:Hd; simpl; rewrite ?Hd; done. }
  rewrite Hdb. split; [simpl; by rewrite lookup_insert_eq|].
  set (db' := mkDB _ _ _).
  assert (Hnone : trips_of_pasajero (userId p) estados_activos db' = []).
  { destruct (trips_of_pasajero (userId p) estados_activos db') eqn:E; [done|].
    exfalso. apply Hfree. apply pasajero_busy_iff.
    assert (Hne : trips_of_pasajero (userId p) estados_activos db' ≠ []) by (by rewrite E).
    apply pasajero_busy_iff in Hne. apply pasajero_busy_iff. exact Hne. }
  assert (Hav : drivers_in_estado disponible db' ≠ []).
  { apply available_iff. exists (userId u). simpl. by rewrite lookup_insert_eq. }
  serve_unfold. rewrite Hp. simpl. rewrite Hnone. simpl.
  destruct (drivers_in_estado disponible db') eqn:E; [done|]. simpl.
  rewrite Hfresh. done.
Qed.

Lemma self_declared_driver_witness :
  status (response (serve strict Request (bare (as_pasajero 1)) []
            (final (serve strict Status (set_estado (as_pasajero 2) "disponible") [] empty_db))))
  = 201.
Proof.
  destruct (self_declared_driver strict empty_db (set_estado (as_pasajero 2) "disponible")
              (bare (as_pasajero 1)) (mkUser 2 ["pasajero"]) (mkUser 1 ["pasajero"])
              eq_refl eq_refl eq_refl) as [_ H].
  - intros (i & row & Hrow & _). vm_compute in Hrow. discriminate Hrow.
  - reflexivity.
  - exact H.
Defined.

(** * What no request undoes *)

Ltac at_key t :=
  match goal with
  | |- context [<[?i := _]> _ !! t] =>
      destruct (decide (t = i)) as [->|?];
      [ rewrite lookup_insert_eq | rewrite lookup_insert_ne by done ]
  | H : context [<[?i := _]> _ !! t] |- _ =>
      destruct (decide (t = i)) as [->|?];
      [ rewrite lookup_insert_eq in H | rewrite lookup_insert_ne in H by done ]
  end.

Lemma moves_keeps_rows db l db' t row :
  moves db l db' → trips db !! t = Some row →
  ∃ row', trips db' !! t = Some row'
          ∧ id row' = id row ∧ pasajero_id row' = pasajero_id row.
Proof.
  intros Hmv Hold. invert_move Hmv; eauto.
  all: at_key t; [|by eauto].
  all: eexists; split; [done|]; simpl; by simplify_eq.
Qed.

Lemma moves_keeps_drivers db l db' u :
  moves db l db' → is_Some (drivers db !! u) → is_Some (drivers db' !! u).
Proof.
  intros Hmv Hold. invert_move Hmv; try done; unfold set_driver.
  all: repeat match goal with
         | |- context [if ?b then _ else _] => destruct b
         | |- context [match conductor_id ?r with _ => _ end] => destruct (conductor_id r)
         | |- context [match ?ds !! ?c with Some _ => _ | None => _ end] =>
             destruct (ds !! c) eqn:?
         end; try done.
  all: rewrite lookup_insert_is_Some;
    match goal with
    | |- ?k = ?v ∧ _ ∨ _ => destruct (decide (k = v)); auto
    | |- ?k = ?v ∨ _ => destruct (decide (k = v)); auto
    end.
Qed.

(** X5. No request deletes anything.  Whatever the operation, the request,
    the failing store calls and the store, every trip row is still there
    afterwards under the same id and with the same passenger, and every
    driver row is still there. *)
Theorem served_request_keeps_rows (m : SingleMode) (o : Op) (req : Req) (faults : list bool)
    (db : DB) :
  let db' := final (serve m o req faults db) in
  (∀ t row, trips db !! t = Some row →
     ∃ row', trips db' !! t = Some row'
             ∧ id row' = id row ∧ pasajero_id row' = pasajero_id row)
  ∧ (∀ u, is_Some (drivers db !! u) → is_Some (drivers db' !! u)).
Proof.
  simpl. destruct (serve_moves m o req faults db) as (l & Hmv & _). split.
  - intros t row. by eapply moves_keeps_rows.
  - intros u. by eapply moves_keeps_drivers.
Qed.

Lemma served_request_keeps_rows_witness :
  ∃ row', trips (final (serve strict Cancel (about (as_pasajero 1) 0) [] db_accepted)) !! 0
          = Some row'
          ∧ id row' = 0 ∧ pasajero_id row' = 1.
Proof.
  destruct (served_request_keeps_rows strict Cancel (about (as_pasajero 1) 0) [] db_accepted)
    as [H _].
  apply (H 0 (mkTrip 0 1 (Some 7) asignado (Some 9) None None None None)). reflexivity.
Defined.

(** ** Stamps *)

Ltac break_stamps :=
  unfold stamps_ok, terminal in *; simpl in *;
  repeat match goal with
         | H : context [is_Some _] |- _ => rewrite is_Some_alt in H
         | |- context [is_Some _] => rewrite is_Some_alt
         end.

Ltac stamps_done :=
  simpl in *;
  repeat match goal with H : _ ∧ _ |- _ => destruct H end;
  subst; simpl in *; intuition (try congruence).

Lemma moves_keeps_stamps db l db' :
  moves db l db' → all_stamps_ok db → all_stamps_ok db'.
Proof.
  intros Hmv Hok t row. invert_move Hmv; simpl; try by apply Hok.
  all: match goal with
       | |- <[?i := _]> _ !! _ = _ → _ =>
           destruct (decide (t = i)) as [->|?];
           [ rewrite lookup_insert_eq; intros [= <-]
           | rewrite lookup_insert_ne by done; by apply Hok ]
       end.
  - done.
  - pose proof (Hok _ _ Hrow) as Hrow'. destruct mrow; simpl in *; subst.
    break_stamps. intuition congruence.
  - pose proof (Hok _ _ Hrow) as Hrow'. destruct mrow; simpl in *; subst.
    break_stamps. intuition congruence.
  - pose proof (Hok _ _ Hrow) as Hrow'. destruct mrow; simpl in *; subst.
    break_stamps. intuition congruence.
  - pose proof (Hok _ _ Hrow) as Hrow'. destruct mrow as [? ? ? e ? ? ? ? ?]; simpl in *.
    destruct e; break_stamps; stamps_done.
Qed.

Lemma reachable_stamps m db : reachable m db → all_stamps_ok db.
Proof.
  induction 1 as [|db o req faults _ IH].
  - intros t row Hrow. simpl in Hrow. by rewrite lookup_empty in Hrow.
  - destruct (serve_moves m o req faults db) as (l & Hmv & _). by eapply moves_keeps_stamps.
Qed.

Lemma moves_write_once db l db' t row row' :
  moves db l db' → trip_ok row → stamps_ok row →
  trips db !! t = Some row → trips db' !! t = Some row' → kept row row'.
Proof.
  intros Hmv Hok Hst Hold. unfold kept.
  invert_move Hmv; try (intros; simplify_eq; by intuition).
  all: at_key t; [|intros; simplify_eq; by intuition].
  all: intros [= <-]; simplify_eq.
  - apply trip_ok_searching in Hok; [|done]. destruct row; simpl in *; subst.
    break_stamps. intuition congruence.
  - destruct row; simpl in *; subst. break_stamps. intuition congruence.
  - destruct row; simpl in *; subst. break_stamps. intuition congruence.
  - destruct row as [? ? ? e ? ? ? ? ?]; simpl in *.
    destruct e; break_stamps; stamps_done.
Qed.

(** X6. The stamps of a row record its path.  In every store reached by
    serving requests one at a time, a searching row has no stamp; an
    assigned row has the acceptance stamp alone; a row in progress has also
    the start stamp; a finished row has acceptance, start and finish stamps
    and no cancellation; a cancelled row has the cancellation stamp and its
    author and no finish stamp. *)
Theorem stamps_match_estado (m : SingleMode) (db : DB) (t : TripId) (row : Trip) :
  reachable m db → trips db !! t = Some row → stamps_ok row.
Proof. intros Hdb%reachable_stamps. apply Hdb. Qed.

Lemma stamps_match_estado_witness :
  stamps_ok (mkTrip 0 1 (Some 7) en_progreso (Some 9) (Some 9) None None None).
Proof.
  apply (stamps_match_estado strict db_started 0).
  - unfold db_started. constructor. apply reachable_clean_reachable, db_accepted_reachable.
  - reflexivity.
Defined.

(** X7. The driver and the stamps are written once.  When requests are
    served one at a time, no request, whatever it is and whichever store
    calls fail, changes the driver recorded on a row or a stamp the row
    already carries. *)
Theorem stamps_written_once (m : SingleMode) (o : Op) (req : Req) (faults : list bool) (db : DB)
    (t : TripId) (row row' : Trip) :
  reachable m db →
  trips db !! t = Some row →
  trips (final (serve m o req faults db)) !! t = Some row' →
  kept row row'.
Proof.
  intros Hdb Hrow Hrow'. destruct (serve_moves m o req faults db) as (l & Hmv & _).
  eapply moves_write_once; eauto.
  - by eapply (reachable_trips_ok m db).
  - by eapply (reachable_stamps m db).
Qed.

Lemma stamps_written_once_witness :
  kept (mkTrip 0 1 (Some 7) asignado (Some 9) None None None None)
       (mkTrip 0 1 (Some 7) cancelado (Some 9) None None (Some 12) (Some "pasajero")).
Proof.
  apply (stamps_written_once strict Cancel (mkReq (as_pasajero 1) (Some 0) None 12) []
           db_accepted 0).
  - apply reachable_clean_reachable, db_accepted_reachable.
  - reflexivity.
  - reflexivity.
Defined.

(** ** One active trip for each passenger *)

(** A store fact that every statement a handler may send preserves holds
    after the handler has run. *)
Lemma follows_keeps (P : Stmt → Prop) (Inv : DB → Prop) m p faults db h :
  (∀ A (q : Query A) d, P (St q) → Inv d → Inv (exec m q d).2) →
  follows (λ _, P) (λ _ _, True) h p → Inv db → Inv (final (run m p faults db)).
Proof.
  intros Hex. revert h faults db. induction p as [r|msg k IH|A q k IH]; intros h faults db Hp Hdb.
  - done.
  - simpl. by apply (IH h).
  - destruct Hp as [Hq Hk]. simpl.
    destruct (default false (head faults)); simpl; eapply IH; eauto.
Qed.

Lemma only_request_inserts o req :
  o ≠ Request → follows (λ _, not_insert) (λ _ _, True) [] (handler o req).
Proof.
  intros Ho. destruct o; [done|..]; simpl.
  - unfold acceptTrip. destruct (user req); [|done]. destruct (tripId req); follow_all.
  - unfold startTrip. destruct (user req); [|done]. destruct (tripId req); follow_all.
  - unfold finishTrip. destruct (user req); [|done]. destruct (tripId req); follow_all.
  - unfold cancelTrip. destruct (user req); [|done]. destruct (tripId req); follow_all.
  - unfold registerDriver. destruct (user req); [|done]. follow_all.
  - unfold updateStatus. destruct (user req); [|done]. destruct (body_estado req); follow_all.
Qed.

Lemma others_keep_next_id m o req faults db :
  o ≠ Request → next_id (final (serve m o req faults db)) = next_id db.
Proof.
  intros Ho. unfold serve.
  apply (follows_keeps not_insert (λ d, next_id d = next_id db) m _ faults db []);
    [|by apply only_request_inserts|done].
  intros A q d Hq Hd.
  destruct q as [p es|c es|t|p|t g patch|u|u|e|u e|u e|u e]; simpl in *; try done.
  - by destruct (trips d !! t); [|destruct m].
  - destruct (trips d !! t) as [row|]; [destruct (guard_holds g row)|]; try done; by destruct m.
  - by destruct (drivers d !! u); [|destruct m].
  - by destruct (drivers d !! u).
  - by destruct (drivers d !! u).
  - by destruct (drivers d !! u).
  - by destruct (drivers d !! u).
Qed.

Lemma request_store m req faults db :
  let db' := final (serve m Request req faults db) in
  trips db' = trips db
  ∨ ∃ u, user req = Some u
         ∧ ¬ owns_active db (userId u)
         ∧ trips db !! next_id db = None
         ∧ trips db' = <[next_id db := new_trip (next_id db) (userId u)]> (trips db).
Proof.
  simpl. serve_unfold. destruct (user req) as [u|]; [|by left].
  destruct (trips_of_pasajero (userId u) estados_activos db) eqn:Hp.
  - assert (¬ owns_active db (userId u)) by (intros Hx%pasajero_busy_iff; by rewrite Hp in Hx).
    run_all db; try (by left). all: right; exists u; done.
  - run_all db; by left.
Qed.

Lemma active_after_move db l db' t row' :
  moves db l db' → next_id db' = next_id db →
  trips db' !! t = Some row' → estado row' ∈ estados_activos →
  ∃ row, trips db !! t = Some row ∧ pasajero_id row = pasajero_id row'
         ∧ estado row ∈ estados_activos.
Proof.
  intros Hmv Hn. unfold estados_activos.
  invert_move Hmv; simpl in Hn; try lia; eauto.
  all: at_key t; [|by eauto].
  all: intros [= <-] Hact; simpl in *.
  all: try (eexists; split; [done|split; [done|]]).
  all: repeat (rewrite elem_of_cons in Hact || rewrite elem_of_nil in Hact);
       repeat (rewrite elem_of_cons || rewrite elem_of_nil).
  all: try (rewrite He; tauto).
  all: try (destruct Hact as [|[|[|]]]; done).
Qed.

Lemma serve_keeps_one_active m o req faults db :
  one_active_each db → one_active_each (final (serve m o req faults db)).
Proof.
  intros Hone.
  assert (o = Request ∨ o ≠ Request) as [->|Ho] by (destruct o; (by left) || by right).
  - destruct (request_store m req faults db) as [Heq|(u & Hu & Hfree & Hfresh & Heq)];
      unfold one_active_each; rewrite Heq; [done|].
    intros i j ri rj Hi Hj Hp Hai Haj.
    destruct (decide (i = next_id db)) as [->|Hni], (decide (j = next_id db)) as [->|Hnj];
      [done|..].
    + rewrite lookup_insert_eq in Hi. rewrite lookup_insert_ne in Hj by done.
      exfalso. apply Hfree. exists j, rj. simplify_eq. simpl in Hp. by repeat split.
    + rewrite lookup_insert_eq in Hj. rewrite lookup_insert_ne in Hi by done.
      exfalso. apply Hfree. exists i, ri. simplify_eq. simpl in Hp. by repeat split.
    + rewrite lookup_insert_ne in Hi, Hj by done. by eapply Hone.
  - destruct (serve_moves m o req faults db) as (l & Hmv & _).
    pose proof (others_keep_next_id m o req faults db Ho) as Hn.
    intros i j ri rj Hi Hj Hp Hai Haj.
    destruct (active_after_move _ _ _ _ _ Hmv Hn Hi Hai) as (ri' & ? & ? & ?).
    destruct (active_after_move _ _ _ _ _ Hmv Hn Hj Haj) as (rj' & ? & ? & ?).
    eapply Hone; eauto. congruence.
Qed.

Lemma reachable_one_active m db : reachable m db → one_active_each db.
Proof.
  induction 1 as [|db o req faults _ IH]; [|by apply serve_keeps_one_active].
  intros i j ri rj Hi. simpl in Hi. by rewrite lookup_empty in Hi.
Qed.

(** X8. A passenger has at most one active trip.  In every store reached by
    serving requests one at a time, whichever store calls failed on the way,
    two rows of the same passenger that are both searching, assigned or in
    progress are the same row: requestTrip is the only handler that inserts
    a trip, and it does so only after finding none. *)
Theorem one_active_trip_per_pasajero (m : SingleMode) (db : DB) (i j : TripId) (ri rj : Trip) :
  reachable m db →
  trips db !! i = Some ri → trips db !! j = Some rj →
  pasajero_id ri = pasajero_id rj →
  estado ri ∈ estados_activos → estado rj ∈ estados_activos →
  i = j.
Proof. intros Hdb%reachable_one_active. apply Hdb. Qed.

Lemma one_active_trip_per_pasajero_witness : 0 = 0.
Proof.
  apply (one_active_trip_per_pasajero strict db_accepted 0 0
           (mkTrip 0 1 (Some 7) asignado (Some 9) None None None None)
           (mkTrip 0 1 (Some 7) asignado (Some 9) None None None None)).
  - apply reachable_clean_reachable, db_accepted_reachable.
  - reflexivity.
  - reflexivity.
  - reflexivity.
  - vm_compute. repeat constructor.
  - vm_compute. repeat constructor.
Defined.

(** * Gates and routes *)

Lemma existsb_includes rs us :
  existsb (λ rol, includes rol us) rs = true ↔ ∃ r, r ∈ rs ∧ r ∈ us.
Proof.
  rewrite existsb_exists. unfold includes. split.
  - intros (r & Hr%list_elem_of_In & Hu%bool_decide_eq_true). eauto.
  - intros (r & Hr & Hu). exists r. split; [by apply list_elem_of_In|by apply bool_decide_eq_true].
Qed.

Lemma role_gate_next rs req :
  roleMiddleware rs req = Next ↔ ∃ u r, user req = Some u ∧ r ∈ rs ∧ r ∈ roles u.
Proof.
  unfold roleMiddleware. destruct (user req) as [u|].
  - destruct (existsb _ rs) eqn:Hex; simpl.
    + apply existsb_includes in Hex as (r & ? & ?). split; [eauto 6|done].
    + split; [done|]. intros (u' & r & [= <-] & Hr & Hu).
      assert (existsb (λ rol, includes rol (roles u)) rs = true) by (apply existsb_includes; eauto).
      congruence.
  - split; [done|]. by intros (? & ? & ? & _).
Qed.

Lemma role_gate_cases rs req :
  match roleMiddleware rs req with
  | Next => ∃ u r, user req = Some u ∧ r ∈ rs ∧ r ∈ roles u
  | Deny r shown =>
      success r = false
      ∧ match user req with
        | None => status r = 401 ∧ shown = None
        | Some u => status r = 403 ∧ shown = Some (roles u) ∧ ∀ x, x ∈ rs → x ∉ roles u
        end
  end.
Proof.
  destruct (roleMiddleware rs req) as [|r shown] eqn:Hg.
  - by apply role_gate_next.
  - unfold roleMiddleware in Hg. destruct (user req) as [u|] eqn:Hu; [|by simplify_eq].
    destruct (existsb _ rs) eqn:Hex; simpl in Hg; [done|]. simplify_eq. repeat split.
    intros x Hx Hin.
    assert (existsb (λ rol, includes rol (roles u)) rs = true) by (apply existsb_includes; eauto).
    congruence.
Qed.

(** X9. getTripById hands the whole row to whoever asks and never writes:
    the route has no role gate and the handler does not read the caller.  A
    trip that does not exist is answered with an internal error when the
    client reports an empty result as an error, and with not found only
    when it does not. *)
Theorem get_trip_by_id_outcomes (m : SingleMode) (t : TripId) (req : Req) (faults : list bool)
    (db : DB) :
  let x := trip_route m (GetById t) req faults db in
  routed_final db x = db
  ∧ (reaches_store faults →
     match trips db !! t with
     | Some row =>
         status (routed_response x) = 200 ∧ payload (routed_response x) = OneTrip row
     | None =>
         kind_of (routed_response x) = match m with strict => Internal | lenient => NotFound end
     end).
Proof.
  simpl. unfold trip_route, reaches_store. simpl. unfold getTripById. split.
  - run_all db.
  - intros Hf. run_all db.
Qed.

Lemma get_trip_by_id_outcomes_witness :
  payload (routed_response (trip_route strict (GetById 0) (bare (as_pasajero 2)) [] db_accepted))
  = OneTrip (mkTrip 0 1 (Some 7) asignado (Some 9) None None None None).
Proof.
  destruct (get_trip_by_id_outcomes strict 0 (bare (as_pasajero 2)) [] db_accepted) as [_ H].
  destruct H as [_ H]; [reflexivity|]. exact H.
Defined.

(** X10. roleMiddleware lets a request through exactly when its user holds
    one of the listed roles.  It answers 401 when the request has no user,
    and otherwise 403 with the user's own roles attached. *)
Theorem role_gate (rs : list string) (req : Req) :
  match roleMiddleware rs req with
  | Next => ∃ u r, user req = Some u ∧ r ∈ rs ∧ r ∈ roles u
  | Deny r shown =>
      success r = false
      ∧ match user req with
        | None => status r = 401 ∧ shown = None
        | Some u => status r = 403 ∧ shown = Some (roles u) ∧ ∀ x, x ∈ rs → x ∉ roles u
        end
  end.
Proof. apply role_gate_cases. Qed.

Lemma role_gate_witness :
  ∃ u r, user (bare (as_conductor 7)) = Some u ∧ r ∈ ["pasajero"; "conductor"] ∧ r ∈ roles u.
Proof. exact (role_gate ["pasajero"; "conductor"] (bare (as_conductor 7))). Defined.

Lemma includes_iff r rs : includes r rs = true ↔ r ∈ rs.
Proof. unfold includes. apply bool_decide_eq_true. Qed.

Lemma require_role_next role who :
  AnyRoles.requireRole role who = AnyRoles.Next ↔ ∃ l, who = Some (AnyRoles.Array l) ∧ role ∈ l.
Proof.
  unfold AnyRoles.requireRole. split.
  - destruct who as [[|l|s|]|]; try done.
    destruct (includes role l) eqn:Hin; [|done]. intros _. exists l. by apply includes_iff in Hin.
  - intros (l & -> & Hin%includes_iff). by rewrite Hin.
Qed.

Lemma role_middleware_next role who :
  AnyRoles.roleMiddleware [role] who = AnyRoles.Next ↔
  (∃ l, who = Some (AnyRoles.Array l) ∧ role ∈ l)
  ∨ (∃ s, who = Some (AnyRoles.Text s) ∧ s ≠ "" ∧ AnyRoles.text_includes role s = true).
Proof.
  unfold AnyRoles.roleMiddleware. split.
  - destruct who as [[|l|s|]|]; try done; simpl.
    + destruct (includes role l) eqn:Hin; [|done]. intros _. left. exists l.
      by apply includes_iff in Hin.
    + destruct s as [|c s]; [by destruct (includes role [])|].
      cbn [AnyRoles.some_includes AnyRoles.value_includes].
      destruct (AnyRoles.text_includes role (String c s)) eqn:Hin; [|done].
      intros _. right. by exists (String c s).
  - intros [(l & -> & Hin%includes_iff)|(s & -> & Hs & Hin)]; simpl.
    + by rewrite Hin.
    + destruct s as [|c s]; [done|].
      cbn [AnyRoles.some_includes AnyRoles.value_includes]. by rewrite Hin.
Qed.

(** X11. requireRole(role) and roleMiddleware([role]) on any [req.user].
    requireRole lets a request through exactly when the roles of its user
    are an array that holds the role; it answers 401 without a user and 403
    otherwise.  roleMiddleware([role]) lets through the same requests and,
    besides, those whose roles are a string in which the role occurs.  The
    two answer with the same status, or both let through, except on such a
    string, where requireRole answers 403, and on a value that is neither
    array nor string nor falsy, where roleMiddleware answers 500 from its
    [catch] block and requireRole 403.  On the requests of the engine,
    whose roles are a list, the gate defined here is [roleMiddleware] as
    the routes use it. *)
Theorem require_role_agrees (role : string) (who : option AnyRoles.RolesValue) :
  (AnyRoles.requireRole role who = AnyRoles.Next ↔
     ∃ l, who = Some (AnyRoles.Array l) ∧ role ∈ l)
  ∧ (AnyRoles.roleMiddleware [role] who = AnyRoles.Next ↔
       (∃ l, who = Some (AnyRoles.Array l) ∧ role ∈ l)
       ∨ (∃ s, who = Some (AnyRoles.Text s) ∧ s ≠ ""
               ∧ AnyRoles.text_includes role s = true))
  ∧ (AnyRoles.answer (AnyRoles.requireRole role who)
     = AnyRoles.answer (AnyRoles.roleMiddleware [role] who) ↔
       ¬ ((∃ s, who = Some (AnyRoles.Text s) ∧ s ≠ ""
                ∧ AnyRoles.text_includes role s = true)
          ∨ who = Some AnyRoles.Other))
  ∧ AnyRoles.answer (AnyRoles.requireRole role who)
    = match who with
      | None => Some 401
      | Some (AnyRoles.Array l) => if includes role l then None else Some 403
      | Some _ => Some 403
      end
  ∧ AnyRoles.answer (AnyRoles.roleMiddleware [role] (Some AnyRoles.Other)) = Some 500
  ∧ (∀ rs req,
       match roleMiddleware rs req, AnyRoles.roleMiddleware rs (roles_read req) with
       | Next, AnyRoles.Next => True
       | Deny r shown, AnyRoles.Deny r' shown' => r' = r ∧ shown' = AnyRoles.Array <$> shown
       | _, _ => False
       end).
Proof.
  split; [apply require_role_next|]. split; [apply role_middleware_next|].
  split; [|split; [|split]].
  - destruct who as [[|l|s|]|]; simpl.
    + split; [|done]. intros _ [(s & ? & _)|?]; done.
    + destruct (includes role l); simpl; (split; [|done]); intros _ [(s & ? & _)|?]; done.
    + destruct s as [|c s]; simpl.
      { split; [|done]. intros _ [(s & ? & ? & _)|?]; by simplify_eq. }
      cbn [AnyRoles.some_includes AnyRoles.value_includes].
      destruct (AnyRoles.text_includes role (String c s)) eqn:Hin; simpl.
      * split; [done|]. intros []. left. by exists (String c s).
      * split; [|done]. intros _ [(s' & ? & ? & ?)|?]; simplify_eq. congruence.
    + split; [done|]. intros []. by right.
    + split; [|done]. intros _ [(s & ? & _)|?]; done.
  - destruct who as [[|l|s|]|]; simpl; try done. by destruct (includes role l).
  - done.
  - intros rs req. unfold roleMiddleware, roles_read, AnyRoles.roleMiddleware.
    destruct (user req) as [u|]; simpl; [|done].
    assert (AnyRoles.some_includes rs (AnyRoles.Array (roles u))
            = Some (existsb (λ rol, includes rol (roles u)) rs)) as ->.
    { induction rs as [|r rs IH]; simpl; [done|]. destruct (includes r (roles u)); simpl; done. }
    by destruct (existsb _ rs).
Qed.

(** The roles are the string "conductora": roleMiddleware finds "conductor"
    in it, requireRole finds no array. *)
Lemma require_role_agrees_witness :
  AnyRoles.roleMiddleware ["conductor"] (Some (AnyRoles.Text "conductora")) = AnyRoles.Next
  ∧ AnyRoles.answer (AnyRoles.requireRole "conductor" (Some (AnyRoles.Text "conductora"))) = Some 403.
Proof.
  destruct (require_role_agrees "conductor" (Some (AnyRoles.Text "conductora")))
    as (_ & Hmid & _ & Hreq & _).
  split; [|exact Hreq].
  apply (proj2 Hmid). right. exists "conductora". by repeat split.
Defined.

(** X12. Behind its role gate a trip route either serves the request as the
    handler alone would, when the caller holds one of the route's roles, or
    stops it with 403 before any store call, when he holds none. *)
Theorem trip_route_gate (m : SingleMode) (r : TripRoute) (rs : list string) (req : Req)
    (u : User) (faults : list bool) (db : DB) :
  route_roles r = Some rs →
  user req = Some u →
  ((∃ x, x ∈ rs ∧ x ∈ roles u) →
     trip_route m r req faults db = Handled (run m (route_handler r req) faults db))
  ∧ ((∀ x, x ∈ rs → x ∉ roles u) →
     ∃ resp, trip_route m r req faults db = Stopped resp (Some (roles u))
             ∧ status resp = 403).
Proof.
  intros Hr Hu. unfold trip_route. rewrite Hr. split.
  - intros (x & Hx & Hin).
    assert (roleMiddleware rs req = Next) as -> by (apply role_gate_next; eauto). done.
  - intros Hno. pose proof (role_gate_cases rs req) as Hg.
    destruct (roleMiddleware rs req) as [|resp shown].
    + destruct Hg as (u' & x & ? & ? & ?). simplify_eq. by destruct (Hno x).
    + rewrite Hu in Hg. destruct Hg as (_ & ? & -> & _). eauto.
Qed.

Lemma trip_route_gate_witness :
  ∃ resp, trip_route strict PostStart (about (as_pasajero 1) 0) [] db_accepted
          = Stopped resp (Some ["pasajero"])
          ∧ status resp = 403.
Proof.
  destruct (trip_route_gate strict PostStart ["conductor"] (about (as_pasajero 1) 0)
              (mkUser 1 ["pasajero"]) [] db_accepted eq_refl eq_refl) as [_ H].
  apply H. intros x Hx Hin.
  apply elem_of_cons in Hx as [->|Hx]; [|by apply elem_of_nil in Hx].
  apply elem_of_cons in Hin as [Hin|Hin]; [discriminate Hin|by apply elem_of_nil in Hin].
Defined.

(** X13. On the accept route the handler's own role check never answers:
    whatever the request, the store and the failing calls, the response is
    not acceptTrip's refusal of a caller who is no conductor, because the
    gate has stopped such a caller before. *)
Theorem accept_role_check_unreachable (m : SingleMode) (req : Req) (faults : list bool) (db : DB) :
  message (routed_response (trip_route m PostAccept req faults db))
  ≠ Some "Solo los conductores pueden aceptar viajes".
Proof.
  unfold trip_route. simpl. destruct (roleMiddleware ["conductor"] req) as [|resp shown] eqn:Hg.
  - apply role_gate_next in Hg as (u & x & Hu & Hx%list_elem_of_singleton & Hin). subst x.
    simpl. unfold acceptTrip. rewrite Hu.
    assert (includes "conductor" (roles u) = true) as -> by (by apply bool_decide_eq_true).
    simpl. destruct (tripId req) as [t|]; [|done]. run_all db.
  - unfold roleMiddleware in Hg. destruct (user req); [|by simplify_eq].
    destruct (negb _); by simplify_eq.
Qed.

(** * The registry kept in memory *)

Lemma find_driver_none u ds :
  Memory.find_driver u ds = None ↔ u ∉ Memory.userId <$> ds.
Proof.
  unfold Memory.find_driver. induction ds as [|d ds IH].
  - split; [intros _; apply not_elem_of_nil|done].
  - rewrite fmap_cons, not_elem_of_cons. cbn [List.find].
    case_bool_decide; [|rewrite IH]; intuition congruence.
Qed.

Lemma find_driver_some u ds d :
  Memory.find_driver u ds = Some d → d ∈ ds ∧ Memory.userId d = u.
Proof.
  unfold Memory.find_driver. induction ds as [|d' ds IH]; simpl; [done|].
  case_bool_decide.
  - intros [= <-]. split; [left|done].
  - intros [? ?]%IH. split; [by right|done].
Qed.

Lemma assign_ids u f ds :
  (∀ d, Memory.userId (f d) = Memory.userId d) →
  Memory.userId <$> Memory.assign u f ds = Memory.userId <$> ds.
Proof.
  intros Hf. induction ds as [|d ds IH]; [done|].
  cbn [Memory.assign]. case_bool_decide; rewrite !fmap_cons, ?Hf, ?IH; done.
Qed.

Lemma assign_Forall (P : Memory.Driver → Prop) u f ds :
  (∀ d, P d → P (f d)) → Forall P ds → Forall P (Memory.assign u f ds).
Proof.
  intros Hf. induction 1 as [|d ds Hd Hds IH]; simpl; [done|].
  case_bool_decide; constructor; auto.
Qed.

Lemma memory_serve_ok o req ds : memory_ok ds → memory_ok (Memory.store (Memory.serve o req ds)).
Proof.
  intros [Hnd Hall]. destruct o; simpl.
  - unfold Memory.registerDriver. destruct (Memory.user req) as [u|]; [|done].
    destruct (Memory.find_driver _ ds) eqn:Hf; [done|]. simpl. split.
    + rewrite fmap_app. apply NoDup_app. split; [done|]. split; [|apply NoDup_singleton].
      intros x Hx [->|[]%elem_of_nil]%elem_of_cons. by apply find_driver_none in Hf.
    + apply Forall_app. split; [done|]. constructor; [|done]. simpl.
      apply parse_driver_estado_permitted. by eexists.
  - unfold Memory.updateStatus. destruct (Memory.body req) as [[s|]|], (Memory.user req) as [u|];
      try done.
    destruct s as [|a s]; [done|]. case_bool_decide as Hs; simpl; [|done].
    destruct (Memory.find_driver _ ds) eqn:Hf; simpl; split.
    + by rewrite assign_ids.
    + by apply assign_Forall.
    + rewrite fmap_app. apply NoDup_app. split; [done|]. split; [|apply NoDup_singleton].
      intros x Hx [->|[]%elem_of_nil]%elem_of_cons. by apply find_driver_none in Hf.
    + apply Forall_app. split; [done|]. by constructor.
Qed.

Lemma memory_reachable_ok ds : Memory.reachable ds → memory_ok ds.
Proof.
  induction 1 as [|ds o req _ IH]; [|by apply memory_serve_ok].
  split; [apply NoDup_nil_2|done].
Qed.

Lemma mem_two_reachable : Memory.reachable mem_two.
Proof. unfold mem_two. repeat constructor. Qed.

(** X14. The array holds one record for each user.  In every array reached
    from the empty one by registerDriver and updateStatus requests, no two
    records have the same userId, and every record's status is one of the
    three permitted names. *)
Theorem memory_records_unique (ds : list Memory.Driver) :
  Memory.reachable ds →
  NoDup (Memory.userId <$> ds) ∧ Forall (λ d, Memory.estado d ∈ ESTADOS_PERMITIDOS) ds.
Proof. apply memory_reachable_ok. Qed.

Lemma memory_records_unique_witness :
  NoDup (Memory.userId <$> mem_two)
  ∧ Forall (λ d, Memory.estado d ∈ ESTADOS_PERMITIDOS) mem_two.
Proof. apply (memory_records_unique mem_two), mem_two_reachable. Defined.

(** X15. Records of the array stay where they are.  Whatever the request,
    the record at a position is afterwards at the same position, of the
    same user, with the creation date and the expiry date it had:
    updateStatus sets [activoHasta] when it creates a record and never
    extends it. *)
Theorem memory_keeps_records (o : Memory.Op) (req : Memory.Req) (ds : list Memory.Driver)
    (i : nat) (d : Memory.Driver) :
  ds !! i = Some d →
  ∃ d', Memory.store (Memory.serve o req ds) !! i = Some d'
        ∧ Memory.userId d' = Memory.userId d
        ∧ Memory.createdAt d' = Memory.createdAt d
        ∧ Memory.activoHasta d' = Memory.activoHasta d.
Proof.
  intros Hd.
  assert (Hassign : ∀ u f, (∀ x, Memory.userId (f x) = Memory.userId x
                                 ∧ Memory.createdAt (f x) = Memory.createdAt x
                                 ∧ Memory.activoHasta (f x) = Memory.activoHasta x) →
    ∃ d', Memory.assign u f ds !! i = Some d' ∧ Memory.userId d' = Memory.userId d
          ∧ Memory.createdAt d' = Memory.createdAt d
          ∧ Memory.activoHasta d' = Memory.activoHasta d).
  { intros u f Hf. revert i Hd. induction ds as [|x ds IH]; intros i Hd; [done|].
    cbn [Memory.assign]. case_bool_decide.
    - destruct i; simpl in *; [|eauto]. simplify_eq. eexists. split; [done|]. apply Hf.
    - destruct i; simpl in *; [eauto|]. by apply IH. }
  destruct o; simpl.
  - unfold Memory.registerDriver. destruct (Memory.user req); [|eauto].
    destruct (Memory.find_driver _ ds); simpl; [eauto|].
    exists d. by rewrite lookup_app_l by (by eapply lookup_lt_Some).
  - unfold Memory.updateStatus. destruct (Memory.body req) as [[s|]|], (Memory.user req); eauto.
    destruct s; [eauto|]. destruct (negb _); [eauto|].
    destruct (Memory.find_driver _ ds); simpl.
    + by apply Hassign.
    + exists d. by rewrite lookup_app_l by (by eapply lookup_lt_Some).
Qed.

Lemma memory_keeps_records_witness :
  ∃ d', Memory.store (Memory.serve Memory.Status
                        (Memory.mkReq (as_conductor 7) (Some (Some "offline")) 300%N 301%N)
                        mem_two) !! 0 = Some d'
        ∧ Memory.userId d' = 7
        ∧ Memory.createdAt d' = Some 100%N
        ∧ Memory.activoHasta d' = None.
Proof.
  apply (memory_keeps_records Memory.Status
           (Memory.mkReq (as_conductor 7) (Some (Some "offline")) 300%N 301%N) mem_two 0
           (Memory.mkDriver 7 "disponible" (Some 100%N) None None)).
  reflexivity.
Defined.

Lemma table_lookup_none u ds :
  u ∉ Memory.userId <$> ds → Memory.table ds !! u = None.
Proof.
  induction ds as [|d ds IH]; [done|].
  rewrite fmap_cons, not_elem_of_cons. intros [Hne Hin]. cbn [Memory.table foldr].
  destruct (parse_driver_estado _); [rewrite lookup_insert_ne by done|]; by apply IH.
Qed.

Lemma table_lookup_found u ds d e :
  Memory.find_driver u ds = Some d →
  parse_driver_estado (Memory.estado d) = Some e →
  Memory.table ds !! u = Some e.
Proof.
  unfold Memory.find_driver. induction ds as [|d' ds IH]; [done|].
  cbn [List.find Memory.table foldr]. case_bool_decide as Hd.
  - intros [= ->] ->. by rewrite <- Hd, lookup_insert_eq.
  - intros Hf He. fold (Memory.table ds).
    destruct (parse_driver_estado (Memory.estado d')); [rewrite lookup_insert_ne by done|]; eauto.
Qed.

Lemma table_app_new ds d e :
  Memory.userId d ∉ Memory.userId <$> ds →
  parse_driver_estado (Memory.estado d) = Some e →
  Memory.table (ds ++ [d]) = <[Memory.userId d := e]> (Memory.table ds).
Proof.
  intros Hnew He. induction ds as [|d' ds IH].
  - simpl. by rewrite He.
  - rewrite fmap_cons, not_elem_of_cons in Hnew. destruct Hnew as [Hne Hnew].
    cbn [app Memory.table foldr]. fold (Memory.table (ds ++ [d])). fold (Memory.table ds).
    rewrite IH by done. destruct (parse_driver_estado (Memory.estado d')); [|done].
    by apply insert_insert_ne.
Qed.

Lemma table_assign u f ds e :
  (∀ d, Memory.userId (f d) = Memory.userId d) →
  (∀ d, parse_driver_estado (Memory.estado (f d)) = Some e) →
  u ∈ Memory.userId <$> ds →
  Memory.table (Memory.assign u f ds) = <[u := e]> (Memory.table ds).
Proof.
  intros Hid He. induction ds as [|d ds IH]; [by intros ?%elem_of_nil|].
  rewrite fmap_cons, elem_of_cons. intros Hin.
  cbn [Memory.assign Memory.table foldr]. fold (Memory.table ds). case_bool_decide as Hd.
  - cbn [Memory.table foldr]. fold (Memory.table ds). rewrite He, Hid, Hd.
    destruct (parse_driver_estado (Memory.estado d)); [by rewrite insert_insert_eq|done].
  - cbn [Memory.table foldr]. fold (Memory.table (Memory.assign u f ds)).
    rewrite IH by (destruct Hin; [congruence|done]).
    destruct (parse_driver_estado (Memory.estado d)); [|done].
    apply insert_insert_ne. congruence.
Qed.

(** X16. The two driver controllers keep the same table.  For a request
    with a user and a body, served by the controller in memory on an array
    and by the later controller, with no store call failing, on a store
    whose [drivers] is the table of that array, the two answers have the
    same status, and the array afterwards stands for the [drivers]
    afterwards. *)
Theorem memory_agrees (m : SingleMode) (o : Memory.Op) (req : Memory.Req) (ds : list Memory.Driver)
    (db : DB) :
  is_Some (Memory.user req) →
  is_Some (Memory.body req) →
  Forall (λ d, Memory.estado d ∈ ESTADOS_PERMITIDOS) ds →
  Memory.table ds = drivers db →
  let before := Memory.serve o req ds in
  let after := serve m (later_op o) (later req) [] db in
  Memory.status (Memory.response before) = status (response after)
  ∧ Memory.success (Memory.response before) = success (response after)
  ∧ Memory.table (Memory.store before) = drivers (final after).
Proof.
  intros [u Hu] [b Hb] Hall Htab. destruct db as [ts tab n]. simpl in Htab. subst tab.
  simpl. destruct o; simpl; serve_unfold; unfold later; rewrite Hu, ?Hb; simpl.
  - unfold Memory.registerDriver, Memory.caller. rewrite Hu.
    destruct (Memory.find_driver _ ds) as [d|] eqn:Hf.
    + destruct (find_driver_some _ _ _ Hf) as [Hin Hd].
      rewrite Forall_forall in Hall. apply Hall, parse_driver_estado_permitted in Hin as [e He].
      rewrite (table_lookup_found _ _ _ _ Hf He). done.
    + apply find_driver_none in Hf. rewrite (table_lookup_none _ _ Hf). simpl.
      rewrite (table_lookup_none _ _ Hf). simpl. repeat split.
      by rewrite (table_app_new _ _ disponible).
  - unfold Memory.updateStatus, Memory.caller. rewrite Hu, Hb. destruct b as [s|]; [|done].
    destruct s as [|a s]; [done|]. set (s' := String a s).
    destruct (parse_driver_estado s') as [e|] eqn:He.
    + assert (s' ∈ ESTADOS_PERMITIDOS) by (apply parse_driver_estado_permitted; eauto).
      rewrite bool_decide_eq_true_2 by done. simpl.
      destruct (Memory.find_driver _ ds) as [d|] eqn:Hf.
      * destruct (find_driver_some _ _ _ Hf) as [Hin Hd].
        pose proof Hin as Hin'.
        rewrite Forall_forall in Hall. apply Hall, parse_driver_estado_permitted in Hin as [e' He'].
        rewrite (table_lookup_found _ _ _ _ Hf He'). simpl. repeat split.
        apply table_assign; [done|done|].
        apply list_elem_of_fmap. exists d. done.
      * apply find_driver_none in Hf. rewrite (table_lookup_none _ _ Hf). simpl.
        rewrite (table_lookup_none _ _ Hf). simpl. repeat split.
        by rewrite (table_app_new _ _ e).
    + assert (s' ∉ ESTADOS_PERMITIDOS).
      { intros [? ?]%parse_driver_estado_permitted. congruence. }
      rewrite bool_decide_eq_false_2 by done. done.
Qed.

Lemma memory_agrees_witness :
  Memory.table (Memory.store (Memory.serve Memory.Status
                  (Memory.mkReq (as_conductor 7) (Some (Some "offline")) 300%N 301%N) mem_two))
  = drivers (final (serve strict Status (set_estado (as_conductor 7) "offline") [] db_of_mem_two)).
Proof.
  destruct (memory_agrees strict Memory.Status
              (Memory.mkReq (as_conductor 7) (Some (Some "offline")) 300%N 301%N) mem_two
              db_of_mem_two) as (_ & _ & H).
  - by eexists.
  - by eexists.
  - apply (memory_reachable_ok mem_two), mem_two_reachable.
  - vm_compute. reflexivity.
  - exact H.
Defined.

(** X17. The controllers differ on a request without a user.  The
    controller in memory reads [req.user.userId] unguarded: the read throws
    and the catch block answers 500.  The later controller answers 401.
    Neither changes anything. *)
Theorem memory_without_user (m : SingleMode) (o : Memory.Op) (req : Memory.Req)
    (ds : list Memory.Driver) (faults : list bool) (db : DB) :
  Memory.user req = None →
  Memory.status (Memory.response (Memory.serve o req ds)) = 500
  ∧ Memory.store (Memory.serve o req ds) = ds
  ∧ status (response (serve m (later_op o) (later req) faults db)) = 401
  ∧ final (serve m (later_op o) (later req) faults db) = db.
Proof.
  intros Hu. destruct o; simpl; serve_unfold; unfold later, Memory.registerDriver,
    Memory.updateStatus; rewrite Hu; simpl; [done|].
  by destruct (Memory.body req).
Qed.

Lemma memory_without_user_witness :
  Memory.status (Memory.response (Memory.serve Memory.Status
                   (Memory.mkReq None (Some (Some "ocupado")) 1%N 2%N) mem_two)) = 500
  ∧ status (response (serve strict Status (set_estado None "ocupado") [] db_registered)) = 401.
Proof.
  destruct (memory_without_user strict Memory.Status
              (Memory.mkReq None (Some (Some "ocupado")) 1%N 2%N) mem_two [] db_registered
              eq_refl) as (H1 & _ & H2 & _).
  split; [exact H1|exact H2].
Defined.

(** * Patterns *)

Lemma nullable_matches r : nullable r = true ↔ matches r [].
Proof.
  induction r as [| |p|r1 IH1 r2 IH2|r1 IH1 r2 IH2|r IH]; simpl.
  - split; [done|]. inversion 1.
  - split; [constructor|done].
  - split; [done|]. inversion 1.
  - rewrite andb_true_iff, IH1, IH2. split.
    + intros [H1 H2]. by apply (m_then _ _ [] []).
    + inversion 1 as [| |? ? s1 s2 H1 H2 [E1 E2] E3| | | |]; subst.
      apply app_eq_nil in E3 as [-> ->]. done.
  - rewrite orb_true_iff, IH1, IH2. split.
    + intros [H|H]; [by apply m_or_l|by apply m_or_r].
    + inversion 1; subst; auto.
  - split; [constructor|done].
Qed.

Lemma star_cons r c s :
  matches (Star r) (c :: s) →
  ∃ s1 s2, s = (s1 ++ s2)%list ∧ matches r (c :: s1) ∧ matches (Star r) s2.
Proof.
  intros H. remember (Star r) as r' eqn:Hr. remember (c :: s) as s' eqn:Hs.
  revert s Hs. induction H as [| | | | | |r0 s1 s2 H1 _ H2 IH2]; intros t Ht; try done.
  simplify_eq. destruct s1 as [|c' s1]; simpl in *.
  - by apply IH2.
  - simplify_eq. eauto.
Qed.

Lemma deriv_matches r c s : matches (deriv c r) s ↔ matches r (c :: s).
Proof.
  revert s. induction r as [| |p|r1 IH1 r2 IH2|r1 IH1 r2 IH2|r IH]; intros s; simpl.
  - split; inversion 1.
  - split; inversion 1.
  - destruct (p c) eqn:Hp; split.
    + inversion 1; subst. by constructor.
    + inversion 1; subst. constructor.
    + inversion 1.
    + inversion 1; subst. congruence.
  - assert (Hthen : matches (Then (deriv c r1) r2) s → matches (Then r1 r2) (c :: s)).
    { inversion 1 as [| |? ? s1 s2 H1 H2| | | |]; subst.
      apply IH1 in H1. by apply (m_then _ _ (c :: s1) s2). }
    assert (Hback : matches (Then r1 r2) (c :: s) →
                    matches (Then (deriv c r1) r2) s ∨ (matches r1 [] ∧ matches (deriv c r2) s)).
    { inversion 1 as [| |? ? s1 s2 H1 H2 [E1 E2] E3| | | |]; subst.
      destruct s1 as [|c' s1]; simpl in *.
      - subst. right. split; [done|by apply IH2].
      - simplify_eq. left. constructor; [by apply IH1|done]. }
    destruct (nullable r1) eqn:Hn.
    + split.
      * inversion 1; subst; [by apply Hthen|].
        apply nullable_matches in Hn. apply (m_then _ _ [] (c :: s)); [done|by apply IH2].
      * intros [H|[_ H]]%Hback; [by apply m_or_l|by apply m_or_r].
    + split; [done|]. intros [H|[H _]]%Hback; [done|].
      apply nullable_matches in H. congruence.
  - split.
    + inversion 1; subst; [apply m_or_l; by apply IH1|apply m_or_r; by apply IH2].
    + inversion 1; subst; [apply m_or_l; by apply IH1|apply m_or_r; by apply IH2].
  - split.
    + inversion 1 as [| |? ? s1 s2 H1 H2| | | |]; subst.
      apply IH in H1. by apply (m_star_more _ (c :: s1) s2).
    + intros (s1 & s2 & -> & H1 & H2)%star_cons. constructor; [by apply IH|done].
Qed.

Lemma test_matches r s : test r s = true ↔ matches r s.
Proof.
  revert r. induction s as [|c s IH]; intros r; simpl.
  - apply nullable_matches.
  - by rewrite IH, deriv_matches.
Qed.

Lemma then_matches r1 r2 s :
  matches (Then r1 r2) s ↔ ∃ s1 s2, s = (s1 ++ s2)%list ∧ matches r1 s1 ∧ matches r2 s2.
Proof.
  split.
  - inversion 1; subst. eauto.
  - intros (s1 & s2 & -> & H1 & H2). by constructor.
Qed.

Lemma unit_matches p s : matches (Unit p) s ↔ ∃ c, s = [c] ∧ p c = true.
Proof.
  split.
  - inversion 1; subst. eauto.
  - intros (c & -> & Hc). by constructor.
Qed.

Lemma star_unit_matches p s : matches (Star (Unit p)) s ↔ Forall (λ c, p c = true) s.
Proof.
  split.
  - intros H. remember (Star (Unit p)) as r eqn:Hr.
    induction H as [| | | | | |r0 s1 s2 H1 _ H2 IH2]; try done.
    simplify_eq. apply Forall_app. split; [|by apply IH2].
    apply unit_matches in H1 as (c & -> & Hc). by constructor.
  - induction 1 as [|c s Hc _ IH]; [constructor|].
    apply (m_star_more _ [c] s); [by constructor|done].
Qed.

Lemma plus_unit_matches p s : matches (Plus (Unit p)) s ↔ s ≠ [] ∧ Forall (λ c, p c = true) s.
Proof.
  unfold Plus. rewrite then_matches. split.
  - intros (s1 & s2 & -> & (c & -> & Hc)%unit_matches & H2%star_unit_matches).
    split; [done|]. by constructor.
  - intros [Hne Hall]. destruct Hall as [|c s Hc Hs]; [done|].
    exists [c], s. split; [done|]. split; [by apply unit_matches; eauto|by apply star_unit_matches].
Qed.

(** X20. The addresses [register] accepts.  The pattern of the controller
    matches exactly the strings made of a local part, an [@], and a domain
    whose last dot has something on both sides, where none of the three
    parts is empty or holds a blank or a further [@]; the domain may hold
    more dots. *)
Theorem email_shape (s : Text) :
  test emailRegex s = true ↔
  ∃ a b c, s = (a ++ [64%N] ++ b ++ [46%N] ++ c)%list
           ∧ plain_word a ∧ plain_word b ∧ plain_word c.
Proof.
  rewrite test_matches. unfold emailRegex, plain_word. split.
  - intros (a & ? & -> & Ha%plus_unit_matches
              & (? & ? & -> & (x & -> & Hx%bool_decide_eq_true)%unit_matches
                 & (b & ? & -> & Hb%plus_unit_matches
                    & (? & c & -> & (y & -> & Hy%bool_decide_eq_true)%unit_matches
                       & Hc%plus_unit_matches)%then_matches)%then_matches)%then_matches)%then_matches.
    subst. by exists a, b, c.
  - intros (a & b & c & -> & Ha & Hb & Hc).
    apply then_matches. exists a, ([64%N] ++ b ++ [46%N] ++ c)%list.
    split; [done|]. split; [by apply plus_unit_matches|].
    apply then_matches. exists [64%N], (b ++ [46%N] ++ c)%list.
    split; [done|]. split; [by apply unit_matches; eexists|].
    apply then_matches. exists b, ([46%N] ++ c)%list.
    split; [done|]. split; [by apply plus_unit_matches|].
    apply then_matches. exists [46%N], c.
    split; [done|]. split; [by apply unit_matches; eexists|by apply plus_unit_matches].
Qed.

Lemma email_shape_witness : test emailRegex demo_email = true.
Proof.
  apply (proj2 (email_shape demo_email)). exists [97%N], [98%N], [99%N].
  split; [reflexivity|]. repeat split; try done; by repeat constructor.
Defined.

(** * The authentication middleware *)

Lemma append_nil_l s : "" +:+ s = s.
Proof. reflexivity. Qed.

Lemma append_cons c s t : String c s +:+ t = String c (s +:+ t).
Proof. reflexivity. Qed.

Ltac unappend := rewrite ?append_nil_l, ?append_cons in *; simpl in *.

Lemma split_spaces_cons gap s : ∃ p ps, split_spaces gap s = p :: ps.
Proof.
  revert gap. induction s as [|c s IH]; intros gap; simpl; [eauto|].
  destruct (is_space c).
  - destruct gap; eauto.
  - destruct (IH false) as (p & ps & ->). eauto.
Qed.

Lemma split_one s b : split_spaces false s = [b] ↔ s = b ∧ no_spaces b.
Proof.
  revert b. induction s as [|c s IH]; intros b; simpl.
  - split; [by intros [= <-]|by intros [<- _]].
  - destruct (is_space c) eqn:Hc.
    + destruct (split_spaces_cons true s) as (p & ps & ->). split; [done|].
      intros [<- Hb]. simpl in Hb. rewrite Hc in Hb. done.
    + destruct (split_spaces_cons false s) as (p & ps & Hs). rewrite Hs. split.
      * intros [= <- ->]. apply IH in Hs as [-> Hp]. simpl. by rewrite Hc.
      * intros [<- Hb]. simpl in Hb. rewrite Hc in Hb. simpl in Hb.
        assert (split_spaces false s = [s]) as Hs' by (by apply IH).
        rewrite Hs in Hs'. by simplify_eq.
Qed.

Lemma split_gap_one s b :
  split_spaces true s = [b] ↔ ∃ gap, s = gap +:+ b ∧ all_spaces gap ∧ no_spaces b.
Proof.
  revert b. induction s as [|c s IH]; intros b; simpl.
  - split.
    + intros [= <-]. by exists "".
    + intros (gap & Hs & _). destruct gap; unappend; [by subst|done].
  - destruct (is_space c) eqn:Hc.
    + rewrite IH. split.
      * intros (gap & -> & Hg & Hb). exists (String c gap). unappend. by rewrite Hc.
      * intros (gap & Hs & Hg & Hb). destruct gap as [|c' gap]; unappend.
        -- subst b. simpl in Hb. by rewrite Hc in Hb.
        -- simplify_eq. rewrite Hc in Hg. eauto.
    + destruct (split_spaces_cons false s) as (p & ps & Hs). rewrite Hs. split.
      * intros [= <- ->]. apply split_one in Hs as [-> Hp]. exists "". unappend. by rewrite Hc.
      * intros (gap & Hsb & Hg & Hb). destruct gap as [|c' gap]; unappend.
        -- subst b. simpl in Hb. rewrite Hc in Hb. simpl in Hb.
           assert (split_spaces false s = [s]) as Hs' by (by apply split_one).
           rewrite Hs in Hs'. by simplify_eq.
        -- simplify_eq. by rewrite Hc in Hg.
Qed.

Lemma split_two s a b :
  split_spaces false s = [a; b] ↔
  ∃ gap, s = a +:+ gap +:+ b ∧ no_spaces a ∧ all_spaces gap ∧ gap ≠ "" ∧ no_spaces b.
Proof.
  revert a. induction s as [|c s IH]; intros a; simpl.
  - split; [done|]. intros (gap & Hs & _ & _ & Hg & _).
    destruct a; unappend; [|done]. destruct gap; unappend; done.
  - destruct (is_space c) eqn:Hc.
    + split.
      * intros [= <- Hs]. apply split_gap_one in Hs as (gap & -> & Hg & Hb).
        exists (String c gap). unappend. rewrite Hc. done.
      * intros (gap & Hs & Ha & Hg & Hne & Hb). destruct a as [|c' a]; unappend.
        -- destruct gap as [|c' gap]; [done|]. unappend. simplify_eq.
           f_equal. apply split_gap_one. rewrite Hc in Hg. eauto.
        -- simplify_eq. by rewrite Hc in Ha.
    + destruct (split_spaces_cons false s) as (p & ps & Hs). rewrite Hs. split.
      * intros [= <- ->]. apply IH in Hs as (gap & -> & Ha & Hg & Hne & Hb).
        exists gap. unappend. rewrite Hc. done.
      * intros (gap & Hsb & Ha & Hg & Hne & Hb). destruct a as [|c' a]; unappend.
        -- destruct gap as [|c' gap]; [done|]. unappend. simplify_eq. by rewrite Hc in Hg.
        -- simplify_eq. rewrite Hc in Ha. simpl in Ha.
           assert (split_spaces false (a +:+ gap +:+ b) = [a; b]) as Hs' by (apply IH; by exists gap).
           rewrite Hs in Hs'. by simplify_eq.
Qed.

Lemma append_nil_r s : s +:+ "" = s.
Proof. induction s as [|c s IH]; unappend; [done|by rewrite IH]. Qed.

Lemma append_assoc s t r : (s +:+ t) +:+ r = s +:+ t +:+ r.
Proof. induction s as [|c s IH]; unappend; [done|by rewrite IH]. Qed.

Lemma append_eq_nil s t : s +:+ t = "" → s = "" ∧ t = "".
Proof. destruct s; unappend; [done|discriminate]. Qed.

Lemma trimStart_split s : ∃ pre, s = pre +:+ trimStart s ∧ all_spaces pre.
Proof.
  induction s as [|c s (pre & Hs & Hpre)]; simpl; [by exists ""|].
  destruct (is_space c) eqn:Hc; [|by exists ""].
  exists (String c pre). unappend. rewrite Hc, <- Hs. done.
Qed.

Lemma trimStart_head s c r : trimStart s = String c r → is_space c = false.
Proof.
  induction s as [|c' s IH]; simpl; [done|].
  destruct (is_space c') eqn:Hc; [done|]. by intros [= <- _].
Qed.

Lemma trimStart_spaces pre s :
  all_spaces pre → trimStart (pre +:+ s) = trimStart s.
Proof.
  intros Hpre. induction pre as [|c pre IH]; unappend; [done|].
  destruct (is_space c); [|done]. by apply IH.
Qed.

Lemma trimEnd_split s : ∃ post, s = trimEnd s +:+ post ∧ all_spaces post.
Proof.
  induction s as [|c s (post & Hs & Hpost)]; simpl; [by exists ""|].
  destruct (trimEnd s) as [|c' k] eqn:Hk.
  - unappend. subst s. destruct (is_space c) eqn:Hc.
    + exists (String c post). unappend. by rewrite Hc.
    + exists post. by unappend.
  - exists post. unappend. by rewrite Hs at 1.
Qed.

Lemma trimEnd_head c r c' r' : trimEnd (String c r) = String c' r' → c' = c.
Proof.
  simpl. destruct (trimEnd r); [destruct (is_space c)|]; by intros [= <- _].
Qed.

Lemma trimEnd_tail s x y : trimEnd s = x +:+ y → all_spaces y → y = "".
Proof.
  revert x y. induction s as [|c s IH]; intros x y; simpl.
  - intros Hxy _. symmetry in Hxy. by apply append_eq_nil in Hxy as [_ ->].
  - destruct (trimEnd s) as [|c' k] eqn:Hk.
    + destruct (is_space c) eqn:Hc.
      * intros Hxy _. symmetry in Hxy. by apply append_eq_nil in Hxy as [_ ->].
      * destruct x as [|cx x]; unappend.
        -- intros <-. simpl. by rewrite Hc.
        -- intros [= <- Hxy] _. symmetry in Hxy. by apply append_eq_nil in Hxy as [_ ->].
    + destruct x as [|cx x]; unappend.
      * intros <- Hy. simpl in Hy. destruct (is_space c); [|done]. simpl in Hy.
        by specialize (IH "" (String c' k) eq_refl Hy).
      * intros [= <- Hxy]. by apply (IH x).
Qed.

Lemma trimEnd_spaces s : all_spaces s → trimEnd s = "".
Proof.
  induction s as [|c s IH]; simpl; [done|].
  destruct (is_space c); [|done]. intros Hs. by rewrite IH.
Qed.

Lemma trimEnd_word b p : no_spaces b → trimEnd (b +:+ p) = b +:+ trimEnd p.
Proof.
  intros Hb. induction b as [|c b IH]; unappend; [done|].
  destruct (is_space c) eqn:Hc; [done|]. simpl in Hb. rewrite IH by done.
  by destruct (b +:+ trimEnd p).
Qed.

Lemma trimEnd_before x y : trimEnd y ≠ "" → trimEnd (x +:+ y) = x +:+ trimEnd y.
Proof.
  intros Hy. induction x as [|c x IH]; unappend; [done|].
  rewrite IH. destruct (x +:+ trimEnd y) eqn:Hxy; [|done].
  by apply append_eq_nil in Hxy as [_ ?].
Qed.

(** The headers whose trimmed value splits in two. *)
Lemma header_parts h a b :
  split_spaces false (trim h) = [a; b] ↔ bearer_shape h a b.
Proof.
  unfold bearer_shape, trim. split.
  - intros (gap & Ht & Ha & Hg & Hne & Hb)%split_two.
    destruct (trimStart_split h) as (pre & Hh & Hpre).
    destruct (trimEnd_split (trimStart h)) as (post & Hs & Hpost).
    exists pre, gap, post. rewrite Ht in Hs.
    assert (a ≠ "") as Ha'.
    { intros ->. unappend. destruct gap as [|c gap]; [done|]. unappend.
      destruct (trimStart h) as [|c' r] eqn:Hr; [done|].
      pose proof (trimEnd_head _ _ _ _ Ht) as ->.
      apply trimStart_head in Hr. simpl in Hg. by rewrite Hr in Hg. }
    assert (b ≠ "") as Hb'.
    { intros ->. rewrite append_nil_r in Ht. by apply trimEnd_tail in Ht. }
    repeat split; try done.
    rewrite Hh at 1. rewrite Hs. by rewrite !append_assoc.
  - intros (pre & gap & post & -> & Hpre & Hg & Hpost & Hne & Ha & Hb & Hsa & Hsb).
    rewrite trimStart_spaces by done.
    assert (trimStart (a +:+ gap +:+ b +:+ post) = a +:+ gap +:+ b +:+ post) as ->.
    { destruct a as [|c a]; [done|]. unappend. by destruct (is_space c). }
    assert (trimEnd (b +:+ post) = b) as Hbp.
    { rewrite trimEnd_word, trimEnd_spaces, append_nil_r; done. }
    rewrite <- (append_assoc a gap), trimEnd_before, Hbp, append_assoc by (by rewrite Hbp).
    apply split_two. by exists gap.
Qed.

Lemma verify_token_header env h :
  h ≠ "" →
  verifyToken env (Some h) =
  let parts := split_spaces false (trim h) in
  if negb (bool_decide (length parts = 2))
     || negb (bool_decide (toLowerCase (default "" (parts !! 0)) = "bearer")) then
    Refused (refuse 401 "Formato de token inválido. Usa: Authorization: Bearer <token>") []
  else
  match JWT_SECRET env with
  | None | Some "" =>
      Refused (refuse 500 "Error de configuración del servidor")
              ["JWT_SECRET no está definido en las variables de entorno"]
  | Some secret =>
    match jwt_verify env (default "" (parts !! 1)) secret with
    | Decoded decoded =>
        Granted (mkUser (c_userId decoded) (default [] (c_roles decoded)))
    | Nameless roles => Unnamed (default [] roles)
    | Thrown name =>
        if bool_decide (name = "JsonWebTokenError") then
          Refused (refuse 401 "Token inválido") []
        else if bool_decide (name = "TokenExpiredError") then
          Refused (refuse 401 "Token expirado. Por favor, inicia sesión nuevamente") []
        else
          Refused (refuse 401 "Error al validar el token") ["Error en verifyToken:"]
    end
  end.
Proof. by destruct h. Qed.

Lemma granted_iff env h u :
  verifyToken env (Some h) = Granted u ↔
  ∃ scheme token secret decoded,
    bearer_shape h scheme token
    ∧ toLowerCase scheme = "bearer"
    ∧ JWT_SECRET env = Some secret ∧ secret ≠ ""
    ∧ jwt_verify env token secret = Decoded decoded
    ∧ u = mkUser (c_userId decoded) (default [] (c_roles decoded)).
Proof.
  destruct (decide (h = "")) as [->|Hh].
  { split; [done|]. intros (a & b & ? & ? & (pre & gap & post & Hs & _ & _ & _ & Hne & _) & _).
    symmetry in Hs. apply append_eq_nil in Hs as [_ Hs]. apply append_eq_nil in Hs as [_ Hs].
    by apply append_eq_nil in Hs as [? _]. }
  rewrite verify_token_header by done. cbv zeta. split.
  - destruct (split_spaces false (trim h)) as [|a [|b [|? ?]]] eqn:Hparts; try done.
    simpl. case_bool_decide as Hl; [|done]. simpl.
    destruct (JWT_SECRET env) as [[|c secret]|] eqn:Hsec; try done.
    destruct (jwt_verify env b (String c secret)) as [d|rs|name] eqn:Hv.
    + intros [= <-]. exists a, b, (String c secret), d. apply header_parts in Hparts. done.
    + done.
    + repeat case_bool_decide; done.
  - intros (a & b & secret & d & Hparts%header_parts & Hl & Hsec & Hne & Hv & ->).
    rewrite Hparts. simpl. rewrite Hl. simpl. rewrite Hsec.
    destruct secret; [done|]. by rewrite Hv.
Qed.



(** Behind the door *)
Lemma follows_response (P : Response → Prop) m p faults db h :
  follows (λ _ _, True) (λ _, P) h p → P (response (run m p faults db)).
Proof.
  revert h faults db. induction p as [r|msg k IH|A q k IH]; intros h faults db Hp.
  - done.
  - simpl. by apply (IH h).
  - destruct Hp as [_ Hk]. simpl. eapply IH, Hk.
Qed.

Lemma identified_not_401 r req :
  is_Some (user req) →
  follows (λ _ _, True) (λ _ resp, status resp ≠ 401) [] (route_handler r req).
Proof.
  intros [u Hu]. destruct r; simpl.
  - unfold getTripById. follow_all.
  - unfold requestTrip. rewrite Hu. follow_all.
  - unfold acceptTrip. rewrite Hu. destruct (tripId req); follow_all.
  - unfold startTrip. rewrite Hu. destruct (tripId req); follow_all.
  - unfold finishTrip. rewrite Hu. destruct (tripId req); follow_all.
  - unfold cancelTrip. rewrite Hu. destruct (tripId req); follow_all.
Qed.



Lemma role_gate_unnamed rs req u :
  user req = Some u → roleMiddleware rs req = roleMiddleware_unnamed rs (roles u).
Proof. intros Hu. unfold roleMiddleware. by rewrite Hu. Qed.

Lemma unnamed_gate_next rs userRoles :
  roleMiddleware_unnamed rs userRoles = Next ↔ ∃ x, x ∈ rs ∧ x ∈ userRoles.
Proof.
  unfold roleMiddleware_unnamed. destruct (existsb _ rs) eqn:Hex; simpl.
  - by apply existsb_includes in Hex.
  - split; [done|]. intros Hx%existsb_includes. congruence.
Qed.

Lemma unnamed_gate_deny rs userRoles resp shown :
  roleMiddleware_unnamed rs userRoles = Deny resp shown → status resp = 403.
Proof.
  unfold roleMiddleware_unnamed. destruct (existsb _ rs); simpl; [done|]. by intros [= <- _].
Qed.

(** Without a [userId] the handlers behind a role gate answer at once. *)
Lemma nameless_handler r rs req :
  route_roles r = Some rs → user req = None → route_handler r req = Respond unauthenticated.
Proof.
  intros Hr Hu. destruct r; simpl in *; try done.
  - unfold requestTrip. by rewrite Hu.
  - unfold acceptTrip. by rewrite Hu.
  - unfold startTrip. by rewrite Hu.
  - unfold finishTrip. by rewrite Hu.
  - unfold cancelTrip. by rewrite Hu.
Qed.

Lemma ungated_not_401 m r req faults db :
  route_roles r = None → status (response (run m (route_handler r req) faults db)) ≠ 401.
Proof.
  intros Hr. destruct r as [id0| | | | |]; try discriminate Hr.
  apply (follows_response (λ resp, status resp ≠ 401) m (getTripById id0) faults db []).
  unfold getTripById. follow_all.
Qed.

(** X19. Where 401 comes from on a trip route.  Whatever the header, the
    request, the store and the failing calls, the response has status 401
    in two cases only.  Either [verifyToken] refused the request with it;
    or the token was accepted, its payload has no [userId], and the route
    has a role gate that the roles of the payload pass: [verifyToken]
    attaches [decoded.userId] untested, the gate reads the roles alone,
    and the handler, which tests [!req.user.userId], answers 401 before any
    store call.  When the payload has a [userId], neither the gate nor a
    handler answers 401; and the gate decides on roles alone, whether
    there is a [userId] or not. *)
Theorem unauthenticated_answers (env : Env) (m : SingleMode) (r : TripRoute)
    (authorization : option string) (req : Req) (faults : list bool) (db : DB) :
  (status (routed_response (trip_endpoint env m r authorization req faults db)) = 401 ↔
     (∃ resp out, verifyToken env authorization = Refused resp out ∧ status resp = 401)
     ∨ (∃ userRoles rs x, verifyToken env authorization = Unnamed userRoles
          ∧ route_roles r = Some rs ∧ x ∈ rs ∧ x ∈ userRoles))
  ∧ (∀ userRoles rs x, verifyToken env authorization = Unnamed userRoles →
       route_roles r = Some rs → x ∈ rs → x ∈ userRoles →
       trip_endpoint env m r authorization req faults db
       = Handled (mkOutcome unauthenticated db [] []))
  ∧ (∀ u, verifyToken env authorization = Granted u →
       status (routed_response (trip_endpoint env m r authorization req faults db)) ≠ 401)
  ∧ (∀ rs req' u, user req' = Some u →
       roleMiddleware rs req' = roleMiddleware_unnamed rs (roles u)).
Proof.
  assert (∀ u, verifyToken env authorization = Granted u →
            status (routed_response (trip_endpoint env m r authorization req faults db)) ≠ 401)
    as Hgranted.
  { intros u Hv. unfold trip_endpoint. rewrite Hv. unfold trip_route.
    set (req' := mkReq _ _ _ _).
    assert (Hrun : status (response (run m (route_handler r req') faults db)) ≠ 401).
    { apply (follows_response (λ resp, status resp ≠ 401) m _ faults db []).
      apply identified_not_401. by eexists. }
    destruct (route_roles r) as [rs|]; [|done].
    pose proof (role_gate_cases rs req') as Hg.
    destruct (roleMiddleware rs req') as [|resp shown]; [done|].
    simpl in *. destruct Hg as (_ & -> & _). done. }
  assert (∀ userRoles rs x, verifyToken env authorization = Unnamed userRoles →
            route_roles r = Some rs → x ∈ rs → x ∈ userRoles →
            trip_endpoint env m r authorization req faults db
            = Handled (mkOutcome unauthenticated db [] [])) as Hunnamed.
  { intros userRoles rs x Hv Hr Hx Hin. unfold trip_endpoint. rewrite Hv, Hr.
    assert (roleMiddleware_unnamed rs userRoles = Next) as ->
      by (apply unnamed_gate_next; eauto).
    by rewrite (nameless_handler r rs). }
  split; [|split; [exact Hunnamed|split; [exact Hgranted|]]].
  - split.
    + intros H401. destruct (verifyToken env authorization) as [u|userRoles|resp out] eqn:Hv.
      * by destruct (Hgranted u).
      * right. revert H401. unfold trip_endpoint. rewrite Hv.
        destruct (route_roles r) as [rs|] eqn:Hr.
        -- destruct (roleMiddleware_unnamed rs userRoles) as [|resp shown] eqn:Hg.
           ++ apply unnamed_gate_next in Hg as (x & ? & ?). intros _. by exists userRoles, rs, x.
           ++ apply unnamed_gate_deny in Hg. simpl. congruence.
        -- intros H401. by apply ungated_not_401 in H401.
      * left. revert H401. unfold trip_endpoint. rewrite Hv. simpl. eauto.
    + intros [(resp & out & Hv & Hs)|(userRoles & rs & x & Hv & Hr & Hx & Hin)].
      * unfold trip_endpoint. by rewrite Hv.
      * by rewrite (Hunnamed userRoles rs x).
  - intros rs req' u. apply role_gate_unnamed.
Qed.

(** A token whose payload names a driver's role and no user, on the accept
    route: the gate lets it through and acceptTrip answers 401. *)
Lemma unauthenticated_answers_witness :
  trip_endpoint stray_env strict PostAccept (Some "Bearer n0id") (about None 0) [] db_searching
  = Handled (mkOutcome unauthenticated db_searching [] []).
Proof.
  destruct (unauthenticated_answers stray_env strict PostAccept (Some "Bearer n0id")
              (about None 0) [] db_searching) as (_ & H & _).
  apply (H ["conductor"] ["conductor"] "conductor"); [reflexivity|reflexivity|by left|by left].
Defined.

(** * Accounts *)

Lemma invalid_roles_none rs :
  filter (λ role, negb (includes role Accounts.ROLES_PERMITIDOS)) rs = [] ↔
  ∀ r, r ∈ rs → r ∈ Accounts.ROLES_PERMITIDOS.
Proof.
  induction rs as [|r rs IH]; [by split; [intros _ ? ?%elem_of_nil|]|].
  rewrite filter_cons. destruct (decide _) as [Hr|Hr].
  - split; [done|]. intros Hall. unfold includes in Hr.
    rewrite bool_decide_eq_true_2 in Hr by (apply Hall; by left). done.
  - rewrite IH. unfold includes in Hr. apply negb_prop_classical in Hr.
    apply bool_decide_unpack in Hr. split.
    + intros Hall x [->|Hx]%elem_of_cons; auto.
    + intros Hall x Hx. apply Hall. by right.
Qed.

Lemma filled_some s : s ≠ [] → Accounts.filled (Some s) = true.
Proof. by destruct s. Qed.

(** What register does once the body has passed its checks. *)
Lemma register_checked env m unique req faults st e p n t rs :
  Accounts.body req = Accounts.mkBody (Some e) (Some p) (Some n) (Some t) (Accounts.Array rs) →
  n ≠ [] → t ≠ [] → rs ≠ [] → (∀ r, r ∈ rs → r ∈ Accounts.ROLES_PERMITIDOS) →
  test emailRegex e = true → (6 ≤ length p)%nat →
  Accounts.serve env m unique Accounts.Register req faults st =
  Accounts.run m unique
    (Accounts.Call (Accounts.IdsByEmail e) (λ r1,
       if given (error r1) then
         Accounts.Log "Error al verificar email en Supabase:"
           (Accounts.Respond Accounts.server_error)
       else if some_rows (Accounts.data_of r1) then
         Accounts.Respond (Accounts.refuse 409 "Este email ya está registrado")
       else
       Accounts.Call (Accounts.IdsByTelefono t) (λ r2,
         if given (error r2) then
           Accounts.Log "Error al verificar teléfono en Supabase:"
             (Accounts.Respond Accounts.server_error)
         else if some_rows (Accounts.data_of r2) then
           Accounts.Respond (Accounts.refuse 409 "Este teléfono ya está registrado")
         else
         Accounts.Call (Accounts.Insert e (bcrypt_hash env p (Accounts.salt req)) n t rs) (λ r3,
           match error r3 with
           | Some err =>
               if bool_decide (code err = "23505") then
                 Accounts.Respond (Accounts.refuse 409 "Email o teléfono ya registrado")
               else Accounts.Log "Error al registrar usuario en Supabase:"
                      (Accounts.Respond Accounts.server_error)
           | None =>
             match Accounts.data_of r3 with
             | None => Accounts.Respond (Accounts.refuse 500 "No se pudo crear el usuario")
             | Some nuevoUsuario =>
                 Accounts.Respond
                   (Accounts.mkResponse 201 true "Usuario registrado correctamente"
                      (Accounts.Registered (Accounts.id nuevoUsuario)
                         (Accounts.email nuevoUsuario) (Accounts.nombre nuevoUsuario)
                         (Accounts.telefono nuevoUsuario) (Accounts.roles nuevoUsuario)))
             end
           end))))
    faults st.
Proof.
  intros Hb Hn Ht Hrs Hperm He Hp. unfold Accounts.serve, Accounts.handler, Accounts.register.
  rewrite Hb. cbn [Accounts.b_email Accounts.b_password Accounts.b_nombre Accounts.b_telefono
                   Accounts.b_roles].
  assert (e ≠ []) by (by intros ->). assert (p ≠ []) by (intros ->; simpl in Hp; lia).
  rewrite !filled_some by done. simpl.
  destruct rs as [|r rs]; [done|].
  apply invalid_roles_none in Hperm. rewrite Hperm. simpl.
  rewrite He. simpl. rewrite bool_decide_eq_false_2 by lia. done.
Qed.

(** When register asks nothing of the table. *)
Lemma register_unchecked env m unique req faults st :
  ¬ Accounts.well_formed (Accounts.body req) →
  Accounts.status (Accounts.response (Accounts.serve env m unique Accounts.Register req faults st))
  = 400
  ∧ Accounts.final (Accounts.serve env m unique Accounts.Register req faults st) = st.
Proof.
  intros Hbad. unfold Accounts.serve, Accounts.handler, Accounts.register.
  destruct (Accounts.body req) as [e p n t rf].
  cbn [Accounts.b_email Accounts.b_password Accounts.b_nombre Accounts.b_telefono
       Accounts.b_roles].
  destruct (Accounts.filled e) eqn:Fe; [|done]. destruct (Accounts.filled p) eqn:Fp; [|done].
  destruct (Accounts.filled n) eqn:Fn; [|done]. destruct (Accounts.filled t) eqn:Ft; [|done].
  cbn [negb orb].
  destruct e as [e|]; [|done]. destruct p as [p|]; [|done].
  destruct n as [n|]; [|done]. destruct t as [t|]; [|done]. simpl.
  destruct rf as [| |[|r rs]]; try done.
  destruct (filter _ (r :: rs)) as [|x l] eqn:Hf; [|done]. simpl.
  destruct (test emailRegex e) eqn:He; [|done]. simpl.
  case_bool_decide as Hp; [done|]. exfalso. apply Hbad.
  exists e, p, n, t, (r :: rs).
  repeat split; try done.
  - by destruct n.
  - by destruct t.
  - by apply invalid_roles_none.
  - lia.
Qed.

Lemma well_formed_dec b : Accounts.well_formed b ∨ ¬ Accounts.well_formed b.
Proof.
  destruct b as [[e|] [p|] [n|] [t|] [| |rs]];
    try (right; intros (? & ? & ? & ? & ? & ? & _); simplify_eq; fail).
  destruct (decide (n = [])) as [->|Hn];
    [right; intros (? & ? & ? & ? & ? & ? & ? & _); by simplify_eq|].
  destruct (decide (t = [])) as [->|Ht];
    [right; intros (? & ? & ? & ? & ? & ? & ? & ? & _); by simplify_eq|].
  destruct (decide (rs = [])) as [->|Hrs];
    [right; intros (? & ? & ? & ? & ? & ? & ? & ? & ? & _); by simplify_eq|].
  destruct (decide (Forall (λ r, r ∈ Accounts.ROLES_PERMITIDOS) rs)) as [Hall|Hall]; cycle 1.
  { right. intros (? & ? & ? & ? & ? & ? & ? & ? & ? & Hp & _). simplify_eq.
    apply Hall, Forall_forall. done. }
  destruct (test emailRegex e) eqn:He; cycle 1.
  { right. intros (? & ? & ? & ? & ? & ? & ? & ? & ? & ? & He' & _). simplify_eq. congruence. }
  destruct (decide (6 ≤ length p)%nat) as [Hp|Hp]; cycle 1.
  { right. intros (? & ? & ? & ? & ? & ? & ? & ? & ? & ? & ? & Hp'). by simplify_eq. }
  left. exists e, p, n, t, rs. rewrite Forall_forall in Hall. done.
Qed.

Ltac plan faults :=
  match goal with
  | |- context [head faults] => destruct faults as [|[] faults]; simpl
  end.

(** Where register leaves the table. *)
Lemma register_final env m unique req faults st :
  let st' := Accounts.final (Accounts.serve env m unique Accounts.Register req faults st) in
  st' = st
  ∨ (Accounts.users st' = Accounts.users st ∧ Accounts.next_id st' = S (Accounts.next_id st))
  ∨ ∃ e p n t rs,
      Accounts.body req = Accounts.mkBody (Some e) (Some p) (Some n) (Some t) (Accounts.Array rs)
      ∧ Accounts.well_formed (Accounts.body req)
      ∧ Accounts.with_email e st = [] ∧ Accounts.with_telefono t st = []
      ∧ Accounts.users st !! Accounts.next_id st = None
      ∧ st' = Accounts.mkStore
                (<[Accounts.next_id st :=
                     Accounts.mkAccount (Accounts.next_id st) e
                       (bcrypt_hash env p (Accounts.salt req)) n t (Some rs)]>
                   (Accounts.users st))
                (S (Accounts.next_id st)).
Proof.
  simpl. destruct (well_formed_dec (Accounts.body req)) as [Hwf|Hbad]; cycle 1.
  { left. by apply register_unchecked. }
  pose proof Hwf as (e & p & n & t & rs & Hb & Hn & Ht & Hrs & Hperm & He & Hp).
  rewrite (register_checked env m unique req faults st e p n t rs) by done.
  simpl. plan faults; try (by left).
  all: destruct (Accounts.with_email e st) eqn:Hwe; simpl; try (by left).
  all: try plan faults; try (by left).
  all: destruct (Accounts.with_telefono t st) eqn:Hwt; simpl; try (by left).
  all: try plan faults; try (by left).
  all: destruct (Accounts.users st !! Accounts.next_id st) eqn:Hfresh; simpl;
    [right; left; done|].
  all: rewrite Hwe, Hwt, bool_decide_eq_true_2, andb_false_r by done; simpl.
  all: right; right; exists e, p, n, t, rs; done.
Qed.

Lemma login_reads env m unique req faults st :
  Accounts.final (Accounts.serve env m unique Accounts.Login req faults st) = st.
Proof.
  unfold Accounts.serve, Accounts.handler, Accounts.login.
  destruct (negb _ || negb _); [done|]. simpl. plan faults; try done.
  all: destruct (Accounts.with_email _ st) as [|a [|]]; simpl; try (by destruct m).
  all: destruct (bcrypt_compare env _ _); simpl; try done.
  all: by destruct (JWT_SECRET env) as [[|]|].
Qed.

Lemma with_email_nil e st :
  Accounts.with_email e st = [] ↔ ∀ i a, Accounts.users st !! i = Some a → Accounts.email a ≠ e.
Proof.
  unfold Accounts.with_email. split.
  - intros Hnil i a Ha He.
    assert (a ∈ filter (λ a, Accounts.email a = e) (rows (Accounts.users st))) as Hin.
    { apply list_elem_of_filter. split; [done|]. apply elem_of_rows. eauto. }
    rewrite Hnil in Hin. by apply elem_of_nil in Hin.
  - intros Hno. apply elem_of_nil_inv. intros a [He [i Hi]%elem_of_rows]%list_elem_of_filter.
    by apply (Hno i a).
Qed.

Lemma with_telefono_nil t st :
  Accounts.with_telefono t st = [] ↔
  ∀ i a, Accounts.users st !! i = Some a → Accounts.telefono a ≠ t.
Proof.
  unfold Accounts.with_telefono. split.
  - intros Hnil i a Ha He.
    assert (a ∈ filter (λ a, Accounts.telefono a = t) (rows (Accounts.users st))) as Hin.
    { apply list_elem_of_filter. split; [done|]. apply elem_of_rows. eauto. }
    rewrite Hnil in Hin. by apply elem_of_nil in Hin.
  - intros Hno. apply elem_of_nil_inv. intros a [He [i Hi]%elem_of_rows]%list_elem_of_filter.
    by apply (Hno i a).
Qed.

Lemma serve_keeps_table_ok env m unique o req faults st :
  Accounts.table_ok env st →
  Accounts.table_ok env (Accounts.final (Accounts.serve env m unique o req faults st)).
Proof.
  intros [Hrows Huniq]. destruct o; [|by rewrite login_reads].
  destruct (register_final env m unique req faults st)
    as [->|[[Hu Hn]|(e & p & n & t & rs & Hb & Hwf & He & Ht & Hfresh & ->)]]; [done|..].
  - split.
    + intros i a. rewrite Hu, Hn. intros Ha. destruct (Hrows i a Ha) as (? & ? & ?).
      split; [done|]. split; [lia|done].
    + intros i j a b. rewrite Hu. apply Huniq.
  - destruct Hwf as (e' & p' & n' & t' & rs' & Hb' & Hn & Htn & Hrs & Hperm & Hre & Hp).
    rewrite Hb in Hb'. simplify_eq.
    rewrite with_email_nil in He. rewrite with_telefono_nil in Ht.
    split; simpl.
    + intros i a. destruct (decide (i = Accounts.next_id st)) as [->|Hne].
      * rewrite lookup_insert_eq. intros [= <-]. simpl.
        split; [done|]. split; [lia|]. split; [done|]. split; eauto.
      * rewrite lookup_insert_ne by done. intros Ha.
        destruct (Hrows i a Ha) as (? & ? & ?). split; [done|]. split; [lia|done].
    + intros i j a b.
      destruct (decide (i = Accounts.next_id st)) as [->|Hi],
               (decide (j = Accounts.next_id st)) as [->|Hj]; [done|..].
      * rewrite lookup_insert_eq, lookup_insert_ne by done. intros [= <-] Hb' [Heq|Heq];
          simpl in Heq; exfalso; [by eapply He|by eapply Ht].
      * rewrite lookup_insert_eq, lookup_insert_ne by done. intros Ha [= <-] [Heq|Heq];
          simpl in Heq; exfalso; [by eapply He|by eapply Ht].
      * rewrite !lookup_insert_ne by done. apply Huniq.
Qed.

Lemma reachable_table_ok env m unique st :
  Accounts.reachable env m unique st → Accounts.table_ok env st.
Proof.
  induction 1 as [|st o req faults _ IH]; [|by apply serve_keeps_table_ok].
  split; intros i; intros; simpl in *; by rewrite lookup_empty in *.
Qed.

(** X21. When register creates an account.  On a table whose next id is
    free and with no store call failing, register answers 201 exactly when
    the body carries the four fields, a non-empty array of permitted roles,
    an address of the accepted form and a password of at least six code
    units, and neither the address nor the telephone is in the table.  It
    then adds one row, whose password is the hash and not the password;
    otherwise the rows are what they were. *)
Theorem register_accepts (env : Env) (m : SingleMode) (unique : bool) (req : Accounts.Req)
    (st : Accounts.Store) :
  Accounts.users st !! Accounts.next_id st = None →
  let o := Accounts.serve env m unique Accounts.Register req [] st in
  let e := default [] (Accounts.b_email (Accounts.body req)) in
  let p := default [] (Accounts.b_password (Accounts.body req)) in
  let t := default [] (Accounts.b_telefono (Accounts.body req)) in
  (Accounts.status (Accounts.response o) = 201 ↔
     Accounts.well_formed (Accounts.body req)
     ∧ Accounts.with_email e st = [] ∧ Accounts.with_telefono t st = [])
  ∧ (Accounts.status (Accounts.response o) ≠ 201 →
     Accounts.users (Accounts.final o) = Accounts.users st)
  ∧ (Accounts.status (Accounts.response o) = 201 →
     ∃ a, Accounts.users (Accounts.final o) = <[Accounts.next_id st := a]> (Accounts.users st)
          ∧ Accounts.id a = Accounts.next_id st
          ∧ Accounts.email a = e ∧ Accounts.telefono a = t
          ∧ Accounts.password a = bcrypt_hash env p (Accounts.salt req)).
Proof.
  intros Hfresh. simpl. destruct (well_formed_dec (Accounts.body req)) as [Hwf|Hbad]; cycle 1.
  { destruct (register_unchecked env m unique req [] st Hbad) as [-> ->].
    split; [split; [done|by intros [? _]]|split; done]. }
  pose proof Hwf as (e & p & n & t & rs & Hb & Hn & Ht & Hrs & Hperm & He & Hp).
  rewrite (register_checked env m unique req [] st e p n t rs) by done.
  rewrite Hb. simpl.
  destruct (Accounts.with_email e st) eqn:Hwe; simpl.
  2: { split; [split; [done|by intros (_ & ? & _)]|split; done]. }
  destruct (Accounts.with_telefono t st) eqn:Hwt; simpl.
  2: { split; [split; [done|by intros (_ & _ & ?)]|split; done]. }
  rewrite Hfresh. simpl.
  rewrite Hwe, Hwt, bool_decide_eq_true_2, andb_false_r by done. simpl.
  rewrite Hb in Hwf. split; [by split|]. split; [by intros ?|].
  intros _. eexists. split; [done|]. done.
Qed.

Lemma register_accepts_witness :
  Accounts.status (Accounts.response
    (Accounts.serve demo_env strict true Accounts.Register demo_register [] Accounts.empty))
  = 201.
Proof.
  destruct (register_accepts demo_env strict true demo_register Accounts.empty eq_refl)
    as [H _].
  apply (proj2 H). split; [|split; reflexivity].
  exists demo_email, demo_password, demo_nombre, demo_telefono, ["conductor"].
  split; [reflexivity|]. split; [done|]. split; [done|]. split; [done|].
  split; [|split; [reflexivity|simpl; lia]].
  intros r ->%list_elem_of_singleton. by right; left.
Defined.

(** X22. Accounts stay distinct.  In every table reached by serving
    register and login requests one at a time, whichever store calls fail
    and whether or not the table itself enforces uniqueness, no two rows
    share an address or a telephone; every row has an address of the
    accepted form, a non-empty list of permitted roles, and as password the
    hash of a password of at least six code units. *)
Theorem accounts_stay_distinct (env : Env) (m : SingleMode) (unique : bool)
    (st : Accounts.Store) :
  Accounts.reachable env m unique st → Accounts.table_ok env st.
Proof. apply reachable_table_ok. Qed.

Lemma accounts_stay_distinct_witness : Accounts.table_ok demo_env demo_accounts.
Proof.
  apply (accounts_stay_distinct demo_env strict true demo_accounts).
  unfold demo_accounts. constructor. constructor.
Defined.

Lemma login_cases env m unique req st e p :
  Accounts.b_email (Accounts.body req) = Some e → e ≠ [] →
  Accounts.b_password (Accounts.body req) = Some p → p ≠ [] →
  let o := Accounts.serve env m unique Accounts.Login req [] st in
  Accounts.final o = st
  ∧ match Accounts.with_email e st with
    | [a] =>
        if bcrypt_compare env p (Accounts.password a) then
          match JWT_SECRET env with
          | None | Some "" => Accounts.response o = Accounts.server_error
          | Some secret =>
              Accounts.response o =
              Accounts.mkResponse 200 true "Login exitoso"
                (Accounts.LoggedIn (Accounts.id a) (Accounts.email a) (Accounts.nombre a)
                   (Accounts.telefono a) (default [] (Accounts.roles a))
                   (jwt_sign env
                      (mkClaims (Accounts.id a) (Accounts.email a)
                         (Some (default [] (Accounts.roles a))))
                      secret (Accounts.now req)))
          end
        else Accounts.response o = Accounts.bad_credentials
    | _ => Accounts.response o = Accounts.bad_credentials
    end.
Proof.
  intros He Hne Hp Hnp. simpl. split; [apply login_reads|].
  unfold Accounts.serve, Accounts.handler, Accounts.login. rewrite He, Hp.
  rewrite !filled_some by done. simpl.
  destruct (Accounts.with_email e st) as [|a [|]]; simpl; try (by destruct m).
  destruct (bcrypt_compare env p (Accounts.password a)); simpl; [|done].
  by destruct (JWT_SECRET env) as [[|]|].
Qed.

(** X23. What login answers.  With an address and a password in the body
    and no store call failing, login never writes, and it answers the same
    401, with the same message, when no row has the address, when several
    have, and when the password does not match the stored hash.  Only with
    exactly one row and a matching password does it sign a token, for the
    row's id, address and roles, and answer 200; without [JWT_SECRET] it
    answers 500 instead. *)
Theorem login_outcomes (env : Env) (m : SingleMode) (unique : bool) (req : Accounts.Req)
    (st : Accounts.Store) (e p : Text) :
  Accounts.b_email (Accounts.body req) = Some e → e ≠ [] →
  Accounts.b_password (Accounts.body req) = Some p → p ≠ [] →
  let o := Accounts.serve env m unique Accounts.Login req [] st in
  Accounts.final o = st
  ∧ match Accounts.with_email e st with
    | [a] =>
        if bcrypt_compare env p (Accounts.password a) then
          match JWT_SECRET env with
          | None | Some "" => Accounts.response o = Accounts.server_error
          | Some secret =>
              Accounts.response o =
              Accounts.mkResponse 200 true "Login exitoso"
                (Accounts.LoggedIn (Accounts.id a) (Accounts.email a) (Accounts.nombre a)
                   (Accounts.telefono a) (default [] (Accounts.roles a))
                   (jwt_sign env
                      (mkClaims (Accounts.id a) (Accounts.email a)
                         (Some (default [] (Accounts.roles a))))
                      secret (Accounts.now req)))
          end
        else Accounts.response o = Accounts.bad_credentials
    | _ => Accounts.response o = Accounts.bad_credentials
    end.
Proof. apply login_cases. Qed.

Lemma demo_accounts_row : Accounts.with_email demo_email demo_accounts = [demo_row].
Proof. vm_compute. reflexivity. Qed.

Lemma login_outcomes_witness :
  Accounts.status (Accounts.response
    (Accounts.serve demo_env strict true Accounts.Login demo_login [] demo_accounts)) = 200.
Proof.
  assert (demo_email ≠ []) as He by done.
  assert (demo_password ≠ []) as Hp by done.
  destruct (login_outcomes demo_env strict true demo_login demo_accounts demo_email
              demo_password eq_refl He eq_refl Hp) as [_ H].
  rewrite demo_accounts_row in H.
  assert (∃ d, Accounts.response
                 (Accounts.serve demo_env strict true Accounts.Login demo_login [] demo_accounts)
               = Accounts.mkResponse 200 true "Login exitoso" d) as [d Hd]
    by (eexists; exact H).
  rewrite Hd. reflexivity.
Defined.

Lemma with_email_insert e st i a :
  Accounts.users st !! i = None →
  Accounts.with_email e st = [] →
  Accounts.email a = e →
  Accounts.with_email e (Accounts.mkStore (<[i := a]> (Accounts.users st)) (S (Accounts.next_id st)))
  = [a].
Proof.
  intros Hi Hnil He. unfold Accounts.with_email in *. simpl.
  apply Permutation_singleton_r. unfold rows.
  rewrite (map_to_list_insert _ _ _ Hi). rewrite fmap_cons, filter_cons. simpl.
  rewrite decide_True by done. unfold rows in Hnil. by rewrite Hnil.
Qed.

Lemma table_ok_fresh env st :
  Accounts.table_ok env st → Accounts.users st !! Accounts.next_id st = None.
Proof.
  intros [Hrows _]. destruct (Accounts.users st !! Accounts.next_id st) as [a|] eqn:Ha; [|done].
  destruct (Hrows _ _ Ha) as (_ & ? & _). lia.
Qed.

(** X24. From registration to the gate.  Let a well-formed registration be
    served on a table that holds neither its address nor its telephone, and
    then a login with the same address and password.  If the hashing library
    recognises the password in its own hash, and the token library accepts
    the token it signed and signs tokens without blanks, then registration
    answers 201, login answers 200 with that token, [verifyToken] lets the
    header [Bearer <token>] through with the account's id and roles, and
    [roleMiddleware] lets that user through for each role the account was
    registered with. *)
Theorem registered_user_passes (env : Env) (m : SingleMode) (unique : bool)
    (st : Accounts.Store) (reg log : Accounts.Req) (e p n t : Text) (rs : list string)
    (secret role : string) (req : Req) :
  Accounts.table_ok env st →
  Accounts.body reg = Accounts.mkBody (Some e) (Some p) (Some n) (Some t) (Accounts.Array rs) →
  Accounts.well_formed (Accounts.body reg) →
  Accounts.with_email e st = [] →
  Accounts.with_telefono t st = [] →
  Accounts.b_email (Accounts.body log) = Some e →
  Accounts.b_password (Accounts.body log) = Some p →
  JWT_SECRET env = Some secret → secret ≠ "" →
  bcrypt_compare env p (bcrypt_hash env p (Accounts.salt reg)) = true →
  let claims := mkClaims (Accounts.next_id st) e (Some rs) in
  let token := jwt_sign env claims secret (Accounts.now log) in
  jwt_verify env token secret = Decoded claims →
  token ≠ "" → no_spaces token →
  role ∈ rs →
  let registered := Accounts.serve env m unique Accounts.Register reg [] st in
  let logged := Accounts.serve env m unique Accounts.Login log [] (Accounts.final registered) in
  let caller := mkUser (Accounts.next_id st) rs in
  Accounts.status (Accounts.response registered) = 201
  ∧ Accounts.response logged
    = Accounts.mkResponse 200 true "Login exitoso"
        (Accounts.LoggedIn (Accounts.next_id st) e n t rs token)
  ∧ verifyToken env (Some ("Bearer " +:+ token)) = Granted caller
  ∧ roleMiddleware [role] (mkReq (Some caller) (tripId req) (body_estado req) (now req)) = Next.
Proof.
  intros Hok Hb Hwf Hwe Hwt Hle Hlp Hsec Hsne Hcmp claims token Hver Htok Hns Hrole.
  pose proof (table_ok_fresh env st Hok) as Hfresh.
  pose proof Hwf as (e' & p' & n' & t' & rs' & Hb' & Hn & Htn & Hrs & Hperm & Hre & Hp).
  rewrite Hb in Hb'. simplify_eq.
  assert (e' ≠ []) as Hne by (by intros ->).
  assert (p' ≠ []) as Hnp by (intros ->; simpl in Hp; lia).
  set (row := Accounts.mkAccount (Accounts.next_id st) e'
                (bcrypt_hash env p' (Accounts.salt reg)) n' t' (Some rs')).
  set (st' := Accounts.mkStore (<[Accounts.next_id st := row]> (Accounts.users st))
                (S (Accounts.next_id st))).
  assert (Hreg : Accounts.serve env m unique Accounts.Register reg [] st
                 = Accounts.mkOutcome
                     (Accounts.mkResponse 201 true "Usuario registrado correctamente"
                        (Accounts.Registered (Accounts.next_id st) e' n' t' (Some rs')))
                     st' []).
  { rewrite (register_checked env m unique reg [] st e' p' n' t' rs') by done.
    simpl. rewrite Hwe. simpl. rewrite Hwt. simpl. rewrite Hfresh. simpl.
    rewrite Hwe, Hwt, bool_decide_eq_true_2, andb_false_r by done. done. }
  cbv zeta. rewrite Hreg. cbn [Accounts.response Accounts.final Accounts.status].
  split; [done|]. split; [|split].
  - destruct (login_cases env m unique log st' e' p' Hle Hne Hlp Hnp) as [_ Hlog].
    assert (Accounts.with_email e' st' = [row]) as Hrow
      by (by apply with_email_insert).
    rewrite Hrow in Hlog. simpl in Hlog.
    rewrite Hcmp, Hsec in Hlog. destruct secret; [done|]. exact Hlog.
  - apply granted_iff. exists "Bearer", token, secret, claims.
    split; [|done]. exists "", " ", "". rewrite append_nil_r. done.
  - apply role_gate_next. exists (mkUser (Accounts.next_id st) rs'), role.
    split; [done|]. split; [by left|done].
Qed.

Lemma registered_user_passes_witness :
  verifyToken demo_env (Some ("Bearer " +:+ "t0k")) = Granted (mkUser 0 ["conductor"])
  ∧ roleMiddleware ["conductor"] (mkReq (Some (mkUser 0 ["conductor"])) (Some 0) None 9) = Next.
Proof.
  assert (Accounts.table_ok demo_env Accounts.empty) as Hok.
  { split; intros i; intros; simpl in *; by rewrite lookup_empty in *. }
  assert (Accounts.well_formed (Accounts.body demo_register)) as Hwf.
  { exists demo_email, demo_password, demo_nombre, demo_telefono, ["conductor"].
    split; [reflexivity|]. split; [done|]. split; [done|]. split; [done|].
    split; [|split; [reflexivity|simpl; lia]].
    intros r ->%list_elem_of_singleton. by right; left. }
  assert ("s3cret" ≠ "") as Hsec by done.
  assert ("t0k" ≠ "") as Htok by done.
  assert ("conductor" ∈ ["conductor"]) as Hrole by (by left).
  destruct (registered_user_passes demo_env strict true Accounts.empty demo_register demo_login
              demo_email demo_password demo_nombre demo_telefono ["conductor"] "s3cret"
              "conductor" (about None 0) Hok eq_refl Hwf eq_refl eq_refl eq_refl eq_refl
              eq_refl Hsec eq_refl eq_refl Htok I Hrole) as (_ & _ & H1 & H2).
  split; [exact H1|exact H2].
Defined.

(** * Cancelling, and rows under interleaving *)

(** X26. Who may cancel which trip.  With no store call failing, cancelTrip
    succeeds exactly in three cases: the trip is being searched and the
    caller is its passenger (holding the role) and not also its driver; the
    trip is assigned and the caller is its passenger or its driver; the trip
    is in progress and the caller is its driver and not also its passenger.
    It then marks the row cancelled at the instant of the request, by
    [pasajero] when the caller is the passenger and by [conductor] otherwise;
    in every other case the store is left as it was. *)
Theorem cancel_permissions (m : SingleMode) (db : DB) (req : Req) (u : User) (t : TripId)
    (row : Trip) :
  user req = Some u →
  tripId req = Some t →
  trips db !! t = Some row →
  let esPasajero := "pasajero" ∈ roles u ∧ pasajero_id row = userId u in
  let esConductor := "conductor" ∈ roles u ∧ conductor_id row = Some (userId u) in
  let o := serve m Cancel req [] db in
  (status (response o) = 200 ↔
     (estado row = buscando ∧ esPasajero ∧ ¬ esConductor)
     ∨ (estado row = asignado ∧ (esPasajero ∨ esConductor))
     ∨ (estado row = en_progreso ∧ esConductor ∧ ¬ esPasajero))
  ∧ (status (response o) = 200 →
     ∃ row', trips (final o) !! t = Some row'
             ∧ estado row' = cancelado
             ∧ cancelled_at row' = Some (now req)
             ∧ (esPasajero → cancelled_by row' = Some "pasajero")
             ∧ (¬ esPasajero → cancelled_by row' = Some "conductor"))
  ∧ (status (response o) ≠ 200 → final o = db).
Proof.
  intros Hu Ht Hrow. simpl. serve_unfold. rewrite Hu, Ht. simpl. rewrite Hrow. simpl.
  set (bP := includes "pasajero" (roles u) && bool_decide (pasajero_id row = userId u)).
  set (bC := includes "conductor" (roles u) && bool_decide (conductor_id row = Some (userId u))).
  assert (HP : bP = true ↔ "pasajero" ∈ roles u ∧ pasajero_id row = userId u).
  { unfold bP. by rewrite andb_true_iff, includes_iff, bool_decide_eq_true. }
  assert (HC : bC = true ↔ "conductor" ∈ roles u ∧ conductor_id row = Some (userId u)).
  { unfold bC. by rewrite andb_true_iff, includes_iff, bool_decide_eq_true. }
  clearbody bP bC.
  destruct (estado row) eqn:He; simpl.
  4, 5: split; [split; [done|intuition congruence]|split; done].
  all: destruct bP, bC; simpl; rewrite ?Hrow; simpl.
  all: try (split; [split; [done|intuition congruence]|split; done]).
  all: destruct (conductor_id row) as [c|] eqn:Hcr; simpl;
    [destruct (drivers db !! c) eqn:Hd; simpl|].
  all: (split; [split; [intros _; intuition congruence|done]|]).
  all: (split; [intros _|by intros []]).
  all: rewrite lookup_insert_eq; eexists; split; [done|]; simpl.
  all: split; [done|]; split; [done|]; split; [intros Hy|intros Hn]; try done.
  all: try (exfalso; intuition congruence).
Qed.

Lemma cancel_permissions_witness :
  ∃ row', trips (final (serve strict Cancel (mkReq (as_pasajero 1) (Some 0) None 12) []
                          db_accepted)) !! 0 = Some row'
          ∧ estado row' = cancelado
          ∧ cancelled_at row' = Some 12
          ∧ cancelled_by row' = Some "pasajero".
Proof.
  destruct (cancel_permissions strict db_accepted (mkReq (as_pasajero 1) (Some 0) None 12)
              (mkUser 1 ["pasajero"]) 0
              (mkTrip 0 1 (Some 7) asignado (Some 9) None None None None)
              eq_refl eq_refl eq_refl) as (Hiff & Hrow & _).
  destruct Hrow as (row' & H1 & H2 & H3 & H4 & _).
  - apply (proj2 Hiff). right. left. split; [reflexivity|]. left. split; [by left|reflexivity].
  - exists row'. repeat split; try done. apply H4. split; [by left|reflexivity].
Defined.

Lemma rows_kept_refl db : rows_kept db db.
Proof. split; eauto. Qed.

Lemma rows_kept_trans db1 db2 db3 : rows_kept db1 db2 → rows_kept db2 db3 → rows_kept db1 db3.
Proof.
  intros [Ht1 Hd1] [Ht2 Hd2]. split.
  - intros t row Hrow. destruct (Ht1 t row Hrow) as (row' & Hrow' & ? & ?).
    destruct (Ht2 t row' Hrow') as (row'' & ? & ? & ?). exists row''. intuition congruence.
  - auto.
Qed.

Lemma exec_keeps_rows m {A} (q : Query A) db : rows_kept db (exec m q db).2.
Proof.
  destruct q as [p es|c es|t|p|t g patch|u|u|e|u e|u e|u e]; simpl;
    try apply rows_kept_refl.
  - destruct (trips db !! t); [|destruct m]; apply rows_kept_refl.
  - destruct (trips db !! next_id db) eqn:Hn; simpl; split; simpl; eauto.
    intros t row Hrow. exists row. rewrite lookup_insert_ne; [done|]. intros <-. congruence.
  - destruct (trips db !! t) as [row|] eqn:Hrow; [|destruct m; apply rows_kept_refl].
    destruct (guard_holds g row); [|destruct m; apply rows_kept_refl].
    split; simpl; [|done]. intros t' row' Hrow'.
    destruct (decide (t' = t)) as [->|?].
    + rewrite lookup_insert_eq. simplify_eq. eexists. split; [done|]. done.
    + rewrite lookup_insert_ne by done. eauto.
  - destruct (drivers db !! u); [|destruct m]; apply rows_kept_refl.
  - destruct (drivers db !! u); apply rows_kept_refl.
  - destruct (drivers db !! u) eqn:Hu; [|apply rows_kept_refl]. split; simpl; [eauto|].
    intros u' Hu'. rewrite lookup_insert_is_Some. destruct (decide (u = u')); auto.
  - destruct (drivers db !! u) eqn:Hu; [|apply rows_kept_refl]. split; simpl; [eauto|].
    intros u' Hu'. rewrite lookup_insert_is_Some. destruct (decide (u = u')); auto.
  - destruct (drivers db !! u) eqn:Hu; [apply rows_kept_refl|]. split; simpl; [eauto|].
    intros u' Hu'. rewrite lookup_insert_is_Some. destruct (decide (u = u')); auto.
Qed.

(** X25. No interleaving deletes anything.  Whatever requests are in flight
    and however their store calls interleave and fail, every trip row of the
    store is still there afterwards under the same id and with the same
    passenger, and every driver row is still there: no statement of the
    controllers deletes a row or rewrites these columns. *)
Theorem interleaving_keeps_rows (m : SingleMode) (c c' : Config) :
  rtc (step m) c c' → rows_kept (store c) (store c').
Proof.
  induction 1 as [c|c1 c2 c3 Hstep _ IH]; [apply rows_kept_refl|].
  eapply rows_kept_trans; [|exact IH].
  inversion Hstep; subst; simpl; [apply exec_keeps_rows|apply rows_kept_refl].
Qed.

Lemma interleaving_keeps_rows_witness :
  rows_kept db_two (store (run_sched strict race_sched (arrive db_two (handlers race_reqs)))).
Proof.
  apply (interleaving_keeps_rows strict (arrive db_two (handlers race_reqs))).
  apply run_sched_rtc.
Defined.
